(** * liked-to-playlists-sync: genre-profile engine and sync orchestrator

    A shallow embedding of the TypeScript sources

    - [genreRouter.ts]  (profile builder, scoring, routing),
    - [cache.ts]        (profile cache file),
    - [state.ts]        (sync-state file),
    - [spotify.ts]      (catalog client),
    - [index.ts]        (the orchestrator [main]),

    followed by the properties of the specification that were checked
    against it.

    Conventions of the embedding.
    - A JavaScript [string] is a [string]; the relational operators [<=]
      and [>] on strings are the lexicographic order, [String.leb] and
      [String.ltb] (on the ASCII text of ISO-8601 timestamps, the order of
      the code units).  A string is falsy exactly when it is empty; a
      field that may be [undefined] or [null] is an [option].
    - A JavaScript [number] that the program only counts with is a [Z].
    - [Map<string, number>] is a [gmap string Z] (the program never depends
      on its insertion order); a [Set<string>] that is spread into an array
      is the list of its elements in insertion order; a [Record<string, V>]
      that is enumerated with [Object.entries] is the list of its entries
      in property order.
    - Effects are explicit: a computation is a function from the world
      (files, remote catalog, clock, fault budget) to a result, the new
      world and the trace of I/O events it performed.

    Limits of the embedding.
    - A property read on a [Record] finds the properties of the object
      itself: the members an ordinary object inherits from
      [Object.prototype], which a playlist named [constructor] or
      [toString] would meet, are not modelled.
    - [trim] strips the ASCII white space, not the other Unicode spaces.
    - A JSON file holds a value of the type the program casts it to. *)

From stdpp Require Import gmap strings list fin_maps.
From Stdlib Require Import ZArith Lia.

(** ** JavaScript values *)

(** [Boolean(s)] for a string. *)
Definition truthy (s : string) : bool := negb (String.eqb s "").

(** [Boolean(o)] for a string that may be undefined. *)
Definition truthyOpt (o : option string) : bool :=
  match o with
  | Some s => truthy s
  | None => false
  end.

(** [s.add(x)] on a [Set<string>] kept in insertion order. *)
Definition Set_add (x : string) (s : list string) : list string :=
  if decide (x ∈ s) then s else s ++ [x].

(** [new Set(xs)], and also [for (const x of xs) s.add(x)]. *)
Definition Set_addAll (xs : list string) (s : list string) : list string :=
  foldl (λ acc x, Set_add x acc) s xs.

(** The slices visited by
    [for (let i = 0; i < xs.length; i += size) ... xs.slice(i, i + size)];
    for a positive [size] the loop makes at most [xs.length] rounds. *)
Fixpoint slicesFrom {A} (fuel size i : nat) (xs : list A) : list (list A) :=
  match fuel with
  | O => []
  | S fuel' =>
      if decide (i < length xs)
      then take size (drop i xs) :: slicesFrom fuel' size (i + size) xs
      else []
  end.

Definition slices {A} (size : nat) (xs : list A) : list (list A) :=
  slicesFrom (length xs) size 0 xs.

(** *** Property order of ordinary objects

    [Object.entries] lists the array-index keys first, in ascending numeric
    order, and then the other string keys in insertion order. *)

Definition digitValue (c : Ascii.ascii) : option N :=
  let n := Ascii.N_of_ascii c in
  if ((48 <=? n) && (n <=? 57))%N then Some (n - 48)%N else None.

Fixpoint digitsValue (acc : N) (s : string) : option N :=
  match s with
  | EmptyString => Some acc
  | String c rest =>
      match digitValue c with
      | Some d => digitsValue (acc * 10 + d)%N rest
      | None => None
      end
  end.

(** A canonical numeric string below 2^32 - 1. *)
Definition arrayIndex (k : string) : option N :=
  match k with
  | EmptyString => None
  | String c rest =>
      if (Ascii.N_of_ascii c =? 48)%N
      then (if String.eqb rest "" then Some 0%N else None)
      else
        if decide (String.length k ≤ 10)
        then match digitsValue 0 k with
             | Some n => if (n <? 4294967295)%N then Some n else None
             | None => None
             end
        else None
  end.

Definition Record (V : Type) : Type := list (string * V).

Definition Object_entries {V} (o : Record V) : list (string * V) := o.

Fixpoint Record_get {V} (k : string) (o : Record V) : option V :=
  match o with
  | [] => None
  | (k', v) :: rest => if String.eqb k k' then Some v else Record_get k rest
  end.

Fixpoint Record_replace {V} (k : string) (v : V) (o : Record V) : Record V :=
  match o with
  | [] => []
  | (k', v') :: rest =>
      if String.eqb k k' then (k, v) :: rest
      else (k', v') :: Record_replace k v rest
  end.

Fixpoint Record_insertIndex {V} (n : N) (k : string) (v : V) (o : Record V)
  : Record V :=
  match o with
  | [] => [(k, v)]
  | (k', v') :: rest =>
      match arrayIndex k' with
      | Some n' =>
          if (n <? n')%N then (k, v) :: o
          else (k', v') :: Record_insertIndex n k v rest
      | None => (k, v) :: o
      end
  end.

(** [o[k] = v]. *)
Definition Record_set {V} (k : string) (v : V) (o : Record V) : Record V :=
  match Record_get k o with
  | Some _ => Record_replace k v o
  | None =>
      match arrayIndex k with
      | Some n => Record_insertIndex n k v o
      | None => o ++ [(k, v)]
      end
  end.

(** ** genreRouter.ts: scoring and routing *)

Abbreviation GenreProfile := (gmap string Z).

(** [profile.get(g) ?? 0] *)
Definition weightOf (profile : GenreProfile) (g : string) : Z :=
  default 0%Z (profile !! g).

Definition scoreTrackAgainstProfile
  (trackGenres : list string) (profile : GenreProfile) : Z :=
  foldl (λ score g, (score + weightOf profile g)%Z) 0%Z trackGenres.

(** The loop of [pickBestPlaylist], started from [bestId], [bestScore]. *)
Fixpoint pickBestLoop (trackGenres : list string)
  (entries : list (string * GenreProfile))
  (bestId : option string) (bestScore : Z) : option string :=
  match entries with
  | [] => bestId
  | (pid, prof) :: rest =>
      let s := scoreTrackAgainstProfile trackGenres prof in
      if (bestScore <? s)%Z
      then pickBestLoop trackGenres rest (Some pid) s
      else pickBestLoop trackGenres rest bestId bestScore
  end.

Definition pickBestPlaylist
  (trackGenres : list string) (profiles : Record GenreProfile)
  : option string :=
  pickBestLoop trackGenres (Object_entries profiles) None (-1)%Z.

(** The score as the specification words it: the sum, over the listed
    genres, of the genre's weight in the profile, 0 when absent. *)
Definition score_spec (trackGenres : list string) (profile : GenreProfile) : Z :=
  foldr Z.add 0%Z
    (map (λ g, match profile !! g with Some w => w | None => 0%Z end)
       trackGenres).

(** ** Catalog objects (the fields of the Spotify Web API types the
    program reads) *)

Record ArtistObjectSimplified := { artist_id : string }.

Record TrackObjectFull := {
  track_id : string;
  track_type : string;
  track_name : string;
  track_artists : list ArtistObjectSimplified;
}.

Record PlaylistTrackObject := { pto_track : option TrackObjectFull }.

Record SavedTrackItem := {
  added_at : string;
  saved_track : TrackObjectFull;
}.

Record ArtistObjectFull := {
  full_id : string;
  artist_genres : option (list string);
}.

(** One page of a paginated listing: [body.items] and whether [body.next]
    is set. *)
Record Paging (A : Type) := { items : list A; next : bool }.
Arguments items {A} _.
Arguments next {A} _.

(** The answer of [getPlaylistSnapshot]. *)
Record PlaylistSnapshot := {
  snap_snapshotId : string;
  snap_tracksTotal : option nat;
}.

(** ** state.ts and cache.ts: persisted records *)

Record State := {
  lastProcessedAddedAt : option string;
  lastProfileRebuildTime : option (gmap string string);
}.

Record CachedProfile := {
  playlistId : string;
  snapshotId : string;
  tracksTotal : nat;
  updatedAt : string;
  genres : gmap string Z;
}.

(** ** The world the program runs in *)

(** A JSON file on disk: missing or unreadable, readable but not JSON, or
    the JSON text of a value of the type the program casts it to. *)
Inductive FileContent (A : Type) :=
| NoFile
| NotJson (raw : string)
| Json (a : A).
Arguments NoFile {A}.
Arguments NotJson {A} raw.
Arguments Json {A} a.

(** A playlist held by the remote catalog. *)
Record Playlist := {
  snapshot_id : string;
  playlist_items : list PlaylistTrackObject;
}.

Record World := {
  w_env : list (string * string);            (* process.env *)
  w_stateFile : FileContent State;           (* .data/state.json *)
  w_cacheFile : FileContent (list CachedProfile);
                                             (* .data/playlistProfiles.json *)
  w_playlists : gmap string Playlist;        (* remote playlists *)
  w_saved : list SavedTrackItem;             (* remote liked songs *)
  w_artistGenres : string → option (list string);
                                             (* remote artist metadata *)
  w_trackInfo : string → string * list ArtistObjectSimplified;
                                             (* remote track metadata *)
  w_time : nat → Z;                          (* successive clock readings *)
  w_tick : nat;
  w_failAfter : option nat;
    (* how many catalog requests succeed before one fails for good
       (retries exhausted); [None]: the catalog never fails *)
}.

Definition setStateFile (f : FileContent State) (w : World) : World :=
  {| w_env := w_env w; w_stateFile := f; w_cacheFile := w_cacheFile w;
     w_playlists := w_playlists w; w_saved := w_saved w;
     w_artistGenres := w_artistGenres w; w_trackInfo := w_trackInfo w;
     w_time := w_time w; w_tick := w_tick w; w_failAfter := w_failAfter w |}.

Definition setCacheFile (f : FileContent (list CachedProfile)) (w : World)
  : World :=
  {| w_env := w_env w; w_stateFile := w_stateFile w; w_cacheFile := f;
     w_playlists := w_playlists w; w_saved := w_saved w;
     w_artistGenres := w_artistGenres w; w_trackInfo := w_trackInfo w;
     w_time := w_time w; w_tick := w_tick w; w_failAfter := w_failAfter w |}.

Definition setPlaylists (p : gmap string Playlist) (w : World) : World :=
  {| w_env := w_env w; w_stateFile := w_stateFile w;
     w_cacheFile := w_cacheFile w;
     w_playlists := p; w_saved := w_saved w;
     w_artistGenres := w_artistGenres w; w_trackInfo := w_trackInfo w;
     w_time := w_time w; w_tick := w_tick w; w_failAfter := w_failAfter w |}.

Definition setTick (n : nat) (w : World) : World :=
  {| w_env := w_env w; w_stateFile := w_stateFile w;
     w_cacheFile := w_cacheFile w;
     w_playlists := w_playlists w; w_saved := w_saved w;
     w_artistGenres := w_artistGenres w; w_trackInfo := w_trackInfo w;
     w_time := w_time w; w_tick := n; w_failAfter := w_failAfter w |}.

Definition setFailAfter (b : option nat) (w : World) : World :=
  {| w_env := w_env w; w_stateFile := w_stateFile w;
     w_cacheFile := w_cacheFile w;
     w_playlists := w_playlists w; w_saved := w_saved w;
     w_artistGenres := w_artistGenres w; w_trackInfo := w_trackInfo w;
     w_time := w_time w; w_tick := w_tick w; w_failAfter := b |}.

(** ** Computations: results, I/O events, the monad *)

Inductive Error :=
| ConfigurationError   (* the [Error] thrown by [main] *)
| CatalogError         (* a catalog request rejected after the retries *)
| Diverged.            (* a pagination loop ran longer than the listing *)

Inductive Result (A : Type) :=
| Ok (a : A)
| Throw (e : Error).
Arguments Ok {A} a.
Arguments Throw {A} e.

Inductive Event :=
| EvReadState
| EvWriteState (s : State)
| EvReadCache
| EvWriteCache (profiles : list CachedProfile)
| EvGetPlaylist (pid : string)
| EvGetPlaylistTracks (pid : string) (offset : nat)
| EvGetSavedTracks (offset : nat)
| EvGetArtists (ids : list string)
| EvAddTracks (pid : string) (uris : list string)
| EvRoute (item : SavedTrackItem) (pid : string).  (* the "Route" log line *)

Record Outcome (A : Type) := {
  res : Result A;
  world : World;
  trace : list Event;
}.
Arguments res {A} _.
Arguments world {A} _.
Arguments trace {A} _.

Definition IO (A : Type) : Type := World → Outcome A.

#[global] Instance IO_ret : MRet IO :=
  λ A a w, {| res := Ok a; world := w; trace := [] |}.

#[global] Instance IO_bind : MBind IO :=
  λ A B f m w,
    let o := m w in
    match res o with
    | Ok a =>
        let o' := f a (world o) in
        {| res := res o'; world := world o'; trace := trace o ++ trace o' |}
    | Throw e => {| res := Throw e; world := world o; trace := trace o |}
    end.

Definition throw {A} (e : Error) : IO A :=
  λ w, {| res := Throw e; world := w; trace := [] |}.

Definition tell (ev : Event) : IO unit :=
  λ w, {| res := Ok tt; world := w; trace := [ev] |}.

Definition gets {A} (f : World → A) : IO A :=
  λ w, {| res := Ok (f w); world := w; trace := [] |}.

Definition modify (f : World → World) : IO unit :=
  λ w, {| res := Ok tt; world := f w; trace := [] |}.

(** [for (const x of xs) body] over a loop state. *)
Fixpoint forOf {A St} (xs : list A) (body : A → St → IO St) (s : St) : IO St :=
  match xs with
  | [] => mret s
  | x :: rest => s' ← body x s; forOf rest body s'
  end.

(** A loop body that may [break]. *)
Inductive LoopStep (St : Type) :=
| Continue (s : St)
| Break (s : St).
Arguments Continue {St} s.
Arguments Break {St} s.

Fixpoint forOfBreak {A St} (xs : list A) (body : A → St → IO (LoopStep St))
  (s : St) : IO (LoopStep St) :=
  match xs with
  | [] => mret (Continue s)
  | x :: rest =>
      r ← body x s;
      match r with
      | Continue s' => forOfBreak rest body s'
      | Break s' => mret (Break s')
      end
  end.

(** ** spotify.ts: the catalog client *)

(** What the remote catalog answers (the calls of [spotify-web-api-node]).
    A listing is served in pages: [limit] items from [offset], with [next]
    set while items remain. *)

Definition page {A} (limit offset : nat) (all : list A) : Paging A :=
  {| items := take limit (drop offset all);
     next := bool_decide (offset + limit < length all) |}.

Definition spotify_getPlaylist (playlistId : string) : IO PlaylistSnapshot :=
  pls ← gets w_playlists;
  match pls !! playlistId with
  | Some pl =>
      mret {| snap_snapshotId := snapshot_id pl;
              snap_tracksTotal := Some (length (playlist_items pl)) |}
  | None => throw CatalogError
  end.

Definition spotify_getPlaylistTracks (playlistId : string)
  (limit offset : nat) : IO (Paging PlaylistTrackObject) :=
  pls ← gets w_playlists;
  match pls !! playlistId with
  | Some pl => mret (page limit offset (playlist_items pl))
  | None => throw CatalogError
  end.

Definition spotify_getMySavedTracks (limit offset : nat)
  : IO (Paging SavedTrackItem) :=
  saved ← gets w_saved;
  mret (page limit offset saved).

Definition spotify_getArtists (ids : list string)
  : IO (list ArtistObjectFull) :=
  g ← gets w_artistGenres;
  mret (map (λ i, {| full_id := i; artist_genres := g i |}) ids).

Definition toTrackUri (id : string) : string := "spotify:track:" +:+ id.

Fixpoint dropChars (n : nat) (s : string) : string :=
  match n, s with
  | S n', String _ rest => dropChars n' rest
  | _, _ => s
  end.

(** The id named by a track URI; the catalog rejects any other string. *)
Definition fromTrackUri (uri : string) : option string :=
  if String.prefix "spotify:track:" uri
  then
    let id := dropChars (String.length "spotify:track:") uri in
    if truthy id then Some id else None
  else None.

Definition catalogTrack (info : string → string * list ArtistObjectSimplified)
  (id : string) : PlaylistTrackObject :=
  {| pto_track :=
       Some {| track_id := id; track_type := "track";
               track_name := (info id).1; track_artists := (info id).2 |} |}.

(** Appending to a playlist also gives it a new version token. *)
Definition spotify_addTracksToPlaylist (playlistId : string)
  (uris : list string) : IO unit :=
  pls ← gets w_playlists;
  match pls !! playlistId, mapM fromTrackUri uris with
  | Some pl, Some ids =>
      info ← gets w_trackInfo;
      modify (setPlaylists
        (<[playlistId :=
             {| snapshot_id := snapshot_id pl +:+ "+";
                playlist_items :=
                  playlist_items pl ++ map (catalogTrack info) ids |}]> pls))
  | _, _ => throw CatalogError
  end.

(** [callWithRetry(fn)], by its outcome once the retries are over: the
    request [ev] is issued and either is rejected for good or is answered
    by [fn]. *)
Definition callWithRetry {A} (ev : Event) (fn : IO A) : IO A :=
  tell ev;;
  budget ← gets w_failAfter;
  match budget with
  | Some O => throw CatalogError
  | Some (S n) => modify (setFailAfter (Some n));; fn
  | None => fn
  end.

Definition getSavedTracksPaginated (limit offset : nat)
  : IO (Paging SavedTrackItem) :=
  callWithRetry (EvGetSavedTracks offset)
    (spotify_getMySavedTracks limit offset).

Definition getPlaylistItemsPaginated (playlistId : string)
  (limit offset : nat) : IO (Paging PlaylistTrackObject) :=
  callWithRetry (EvGetPlaylistTracks playlistId offset)
    (spotify_getPlaylistTracks playlistId limit offset).

(** The tracks a page of playlist items yields: the items whose [track] is
    set and has type ["track"]. *)
Definition yieldedTracks (its : list PlaylistTrackObject)
  : list TrackObjectFull :=
  omap (λ it,
          match pto_track it with
          | Some t => if String.eqb (track_type t) "track" then Some t else None
          | None => None
          end) its.

(** [iteratePlaylistTracks], from [offset] on; the list of the tracks it
    yields.  Its consumers neither break nor perform I/O of their own. *)
Fixpoint iteratePlaylistTracksFrom (fuel : nat) (playlistId : string)
  (offset : nat) : IO (list TrackObjectFull) :=
  match fuel with
  | O => throw Diverged
  | S fuel' =>
      r ← getPlaylistItemsPaginated playlistId 50 offset;
      if decide (length (items r) = 0) then mret []
      else
        let yielded := yieldedTracks (items r) in
        if negb (next r) then mret yielded
        else
          more ← iteratePlaylistTracksFrom fuel' playlistId
                   (offset + length (items r));
          mret (yielded ++ more)
  end.

(** Every round with a non-empty page advances the offset, so one round
    more than the listing has items is enough. *)
Definition iteratePlaylistTracks (playlistId : string)
  : IO (list TrackObjectFull) :=
  pls ← gets w_playlists;
  iteratePlaylistTracksFrom
    (S (from_option (λ pl, length (playlist_items pl)) 0 (pls !! playlistId)))
    playlistId 0.

(** [for await (const item of iterateSavedTracks()) body], from [offset]
    on.  A [break] in the body closes the generator: no further page is
    requested. *)
Fixpoint forAwaitSavedTracksFrom {St} (fuel offset : nat)
  (body : SavedTrackItem → St → IO (LoopStep St)) (s : St) : IO St :=
  match fuel with
  | O => throw Diverged
  | S fuel' =>
      r ← getSavedTracksPaginated 50 offset;
      if decide (length (items r) = 0) then mret s
      else
        st ← forOfBreak (items r) body s;
        match st with
        | Break s' => mret s'
        | Continue s' =>
            if negb (next r) then mret s'
            else forAwaitSavedTracksFrom fuel'
                   (offset + length (items r)) body s'
        end
  end.

Definition forAwaitSavedTracks {St}
  (body : SavedTrackItem → St → IO (LoopStep St)) (s : St) : IO St :=
  saved ← gets w_saved;
  forAwaitSavedTracksFrom (S (length saved)) 0 body s.

Definition getSeveralArtists (ids : list string)
  : IO (list ArtistObjectFull) :=
  callWithRetry (EvGetArtists ids) (spotify_getArtists ids).

Definition getPlaylistTrackIdsSet (playlistId : string) : IO (list string) :=
  tracks ← iteratePlaylistTracks playlistId;
  mret (foldl (λ ids track,
                 if truthy (track_id track)
                 then Set_add (track_id track) ids else ids)
          [] tracks).

Record AddResult := { added : nat; skipped : nat }.

Definition addTracksToPlaylistIfMissing (playlistId : string)
  (trackIds : list string) : IO AddResult :=
  existing ← getPlaylistTrackIdsSet playlistId;
  let toAdd := filter (λ id, id ∉ existing) trackIds in
  if decide (length toAdd = 0)
  then mret {| added := 0; skipped := length trackIds |}
  else
    forOf (slices 100 toAdd)
      (λ slice (_ : unit),
         callWithRetry (EvAddTracks playlistId (map toTrackUri slice))
           (spotify_addTracksToPlaylist playlistId (map toTrackUri slice)))
      tt;;
    mret {| added := length toAdd;
            skipped := length trackIds - length toAdd |}.

Definition getPlaylistSnapshot (playlistId : string) : IO PlaylistSnapshot :=
  callWithRetry (EvGetPlaylist playlistId) (spotify_getPlaylist playlistId).

(** ** state.ts *)

Definition emptyState : State :=
  {| lastProcessedAddedAt := None; lastProfileRebuildTime := None |}.

(** [try { read; parse } catch { return {} }] *)
Definition readState : IO State :=
  tell EvReadState;;
  f ← gets w_stateFile;
  match f with
  | Json s => mret s
  | NoFile | NotJson _ => mret emptyState
  end.

Definition writeState (state : State) : IO unit :=
  tell (EvWriteState state);;
  modify (setStateFile (Json state)).

(** ** cache.ts *)

Definition Cache_readFile : IO (list CachedProfile) :=
  tell EvReadCache;;
  f ← gets w_cacheFile;
  match f with
  | Json profiles => mret profiles
  | NoFile | NotJson _ => mret []
  end.

Definition Cache_writeFile (profiles : list CachedProfile) : IO unit :=
  tell (EvWriteCache profiles);;
  modify (setCacheFile (Json profiles)).

Definition cacheKeyIs (pid snap : string) (p : CachedProfile) : bool :=
  String.eqb (playlistId p) pid && String.eqb (snapshotId p) snap.

Fixpoint findIndex {A} (f : A → bool) (l : list A) : option nat :=
  match l with
  | [] => None
  | x :: rest => if f x then Some 0 else S <$> findIndex f rest
  end.

Definition getCachedProfile (pid snap : string) : IO (option CachedProfile) :=
  profiles ← Cache_readFile;
  mret (List.find (cacheKeyIs pid snap) profiles).

Definition putCachedProfile (entry : CachedProfile) : IO unit :=
  profiles ← Cache_readFile;
  match findIndex (cacheKeyIs (playlistId entry) (snapshotId entry)) profiles
  with
  | Some idx => Cache_writeFile (<[idx := entry]> profiles)
  | None => Cache_writeFile (profiles ++ [entry])
  end.

(** ** JavaScript built-ins the program calls

    [Date.parse] ([None] for an invalid date, whose time value is NaN),
    [Date.prototype.toISOString] and [parseInt] ([None] for NaN). *)
Class JsRuntime := {
  Date_parse : string → option Z;
  toISOString : Z → string;
  parseInt : string → option Z;
}.

(** [new Date()]: the next clock reading, in milliseconds. *)
Definition newDate : IO Z :=
  t ← gets (λ w, w_time w (w_tick w));
  modify (λ w, setTick (S (w_tick w)) w);;
  mret t.

(** ** genreRouter.ts: the profile builder *)

(** [counts.set(g, (counts.get(g) ?? 0) + 1)] for every genre of every
    artist of one answer. *)
Definition countGenres (artists : list ArtistObjectFull)
  (counts : GenreProfile) : GenreProfile :=
  foldl (λ counts artist,
           foldl (λ counts g, <[g := (weightOf counts g + 1)%Z]> counts)
             counts (default [] (artist_genres artist)))
    counts artists.

(** The [Set] of artist ids collected over the tracks of a playlist. *)
Definition collectArtistIds (tracks : list TrackObjectFull) : list string :=
  foldl (λ artistIds track,
           Set_addAll (map artist_id (track_artists track)) artistIds)
    [] tracks.

Section Program.
Context `{JsRuntime}.

Definition buildPlaylistGenreProfile (pid : string) : IO GenreProfile :=
  snap ← getPlaylistSnapshot pid;
  cached ← getCachedProfile pid (snap_snapshotId snap);
  match cached with
  | Some c => mret (genres c)
  | None =>
      tracks ← iteratePlaylistTracks pid;
      let artistIds := collectArtistIds tracks in
      let ids := List.filter truthy artistIds in
      counts ← forOf (slices 50 ids)
                 (λ batch counts,
                    artists ← getSeveralArtists batch;
                    mret (countGenres artists counts))
                 (∅ : GenreProfile);
      now ← newDate;
      putCachedProfile
        {| playlistId := pid;
           snapshotId := snap_snapshotId snap;
           tracksTotal := default (length ids) (snap_tracksTotal snap);
           updatedAt := toISOString now;
           genres := counts |};;
      mret counts
  end.

End Program.

(** ** index.ts: configuration *)

Definition isAlnum (c : Ascii.ascii) : bool :=
  let n := Ascii.N_of_ascii c in
  ((48 <=? n) && (n <=? 57) || (65 <=? n) && (n <=? 90)
   || (97 <=? n) && (n <=? 122))%N.

(** The longest prefix of [s] made of letters and digits. *)
Fixpoint takeAlnum (s : string) : string :=
  match s with
  | String c rest => if isAlnum c then String c (takeAlnum rest) else EmptyString
  | EmptyString => EmptyString
  end.

(** [/^[a-zA-Z0-9]+$/.test(s)] *)
Definition allAlnum (s : string) : bool :=
  truthy s && String.eqb (takeAlnum s) s.

Fixpoint trimStart (s : string) : string :=
  match s with
  | String c rest => if Ascii.is_space c then trimStart rest else s
  | EmptyString => EmptyString
  end.

(** [s.trim()], for the ASCII white space. *)
Definition trim (s : string) : string :=
  String.rev (trimStart (String.rev (trimStart s))).

(** [s.match(/^spotify:playlist:([a-zA-Z0-9]+)$/)], the group. *)
Definition matchColon (s : string) : option string :=
  if String.prefix "spotify:playlist:" s
  then
    let id := dropChars (String.length "spotify:playlist:") s in
    if allAlnum id then Some id else None
  else None.

(** [s.match(/open\.spotify\.com\/playlist\/([a-zA-Z0-9]+)/)], the group
    of the leftmost match. *)
Fixpoint matchUrl (s : string) : option string :=
  let here :=
    if String.prefix "open.spotify.com/playlist/" s
    then
      let id :=
        takeAlnum (dropChars (String.length "open.spotify.com/playlist/") s) in
      if truthy id then Some id else None
    else None in
  match here, s with
  | Some id, _ => Some id
  | None, String _ rest => matchUrl rest
  | None, EmptyString => None
  end.

(** [s.split(sep)] for a one-character separator. *)
Fixpoint splitOn (sep : N) (s : string) : list string :=
  match s with
  | EmptyString => [EmptyString]
  | String c rest =>
      if (Ascii.N_of_ascii c =? sep)%N then EmptyString :: splitOn sep rest
      else
        match splitOn sep rest with
        | h :: t => String c h :: t
        | [] => [String c EmptyString]
        end
  end.

Definition extractPlaylistId (raw : string) : option string :=
  let s := trim raw in
  match matchColon s with
  | Some id => Some id
  | None =>
      match matchUrl s with
      | Some id => Some id
      | None =>
          let bare := default "" (head (splitOn 63 s)) in   (* "?" *)
          if allAlnum bare then Some bare else None
      end
  end.

(** [process.env[k]] *)
Fixpoint envLookup (k : string) (env : list (string * string))
  : option string :=
  match env with
  | [] => None
  | (k', v) :: rest => if String.eqb k k' then Some v else envLookup k rest
  end.

(** The closure [push] of [getTargetPlaylistIds]. *)
Definition pushTarget (v : option string) (out : list string) : list string :=
  match v with
  | Some v =>
      if truthy v
      then match extractPlaylistId v with
           | Some id => out ++ [id]
           | None => out
           end
      else out
  | None => out
  end.

Definition getTargetPlaylistIds (env : list (string * string)) : list string :=
  let out1 :=
    match envLookup "TARGET_PLAYLIST_IDS" env with
    | Some ids =>
        if truthy ids
        then foldl (λ out part, pushTarget (Some part) out) []
               (splitOn 44 ids)                               (* "," *)
        else []
    | None => []
    end in
  let out2 :=
    foldl (λ out '(k, v),
             if String.prefix "TARGET_PLAYLIST_ID_" k
             then pushTarget (Some v) out else out)
      out1 env in
  Set_addAll out2 [].

(** ** index.ts: the orchestrator *)

(** [arr.sort((a, b) => b[1] - a[1])]: stable, by descending score. *)
Fixpoint insertByScore (x : string * Z) (l : list (string * Z))
  : list (string * Z) :=
  match l with
  | [] => [x]
  | y :: rest =>
      if (y.2 <=? x.2)%Z then x :: l else y :: insertByScore x rest
  end.

Definition sortScores (l : list (string * Z)) : list (string * Z) :=
  foldr insertByScore [] l.

(** [a > b] on a string and a possibly undefined string. *)
Definition gtOpt (a : string) (b : option string) : bool :=
  match b with
  | Some b => String.ltb b a
  | None => false
  end.

(** [a <= b], likewise. *)
Definition leOpt (a : string) (b : option string) : bool :=
  match b with
  | Some b => String.leb a b
  | None => false
  end.

Section Orchestrator.
Context `{JsRuntime}.

Definition REBUILD_GENRE_PROFILE_INTERVAL (env : list (string * string))
  : option Z :=
  match envLookup "REBUILD_GENRE_PROFILE_INTERVAL" env with
  | Some s => if truthy s then parseInt s else Some 24%Z
  | None => Some 24%Z
  end.

(** [hoursSinceLastRebuild >= REBUILD_GENRE_PROFILE_INTERVAL], with the
    division by the milliseconds of an hour moved to the other side; a NaN
    on either side makes the comparison false. *)
Definition shouldRebuildProfile (lastRebuildTime : option string) : IO bool :=
  match lastRebuildTime with
  | Some l =>
      if truthy l
      then
        now ← newDate;
        env ← gets w_env;
        mret (match Date_parse l, REBUILD_GENRE_PROFILE_INTERVAL env with
              | Some lastRebuild, Some interval =>
                  bool_decide (interval * 3600000 ≤ now - lastRebuild)%Z
              | _, _ => false
              end)
      else mret true
  | None => mret true
  end.

(** The loop over the target playlists: the profiles and the rebuild
    times. *)
Definition buildProfiles (state : State) (targetPlaylists : list string)
  : IO (Record GenreProfile * gmap string string) :=
  forOf targetPlaylists
    (λ pid (acc : Record GenreProfile * gmap string string),
       let '(profiles, updatedLastProfileRebuildTime) := acc in
       let lastRebuildTime :=
         default ∅ (lastProfileRebuildTime state) !! pid in
       needsRebuild ← shouldRebuildProfile lastRebuildTime;
       if (needsRebuild : bool)
       then
         prof ← buildPlaylistGenreProfile pid;
         now ← newDate;
         mret (Record_set pid prof profiles,
               <[pid := toISOString now]> updatedLastProfileRebuildTime)
       else
         prof ← buildPlaylistGenreProfile pid;
         mret (Record_set pid prof profiles, updatedLastProfileRebuildTime))
    ([], default ∅ (lastProfileRebuildTime state)).

(** The genre set of a liked track, spread into an array. *)
Definition trackGenresOf (track : TrackObjectFull) : IO (list string) :=
  let artistIds := List.filter truthy (map artist_id (track_artists track)) in
  forOf (slices 50 artistIds)
    (λ batch genres,
       artists ← getSeveralArtists batch;
       mret (foldl (λ genres artist,
                      Set_addAll (default [] (artist_genres artist)) genres)
               genres artists))
    [].

(** The body of the loop over the liked tracks; the loop state is
    [newTrackIdsByPlaylist] and [newestAddedAt]. *)
Definition routeItem (state : State) (targetPlaylists : list string)
  (profiles : Record GenreProfile) (item : SavedTrackItem)
  (acc : Record (list string) * option string)
  : IO (LoopStep (Record (list string) * option string)) :=
  let '(newTrackIdsByPlaylist, newestAddedAt) := acc in
  let addedAt := added_at item in
  let newestAddedAt :=
    if negb (truthyOpt newestAddedAt) || gtOpt addedAt newestAddedAt
    then Some addedAt else newestAddedAt in
  if truthyOpt (lastProcessedAddedAt state)
     && leOpt addedAt (lastProcessedAddedAt state)
  then mret (Break (newTrackIdsByPlaylist, newestAddedAt))
  else
    let track := saved_track item in
    trackGenres ← trackGenresOf track;
    let scores :=
      sortScores
        (map (λ '(pid, prof), (pid, scoreTrackAgainstProfile trackGenres prof))
           (Object_entries profiles)) in
    let bestPid :=
      match head scores with
      | Some (pid, _) => Some pid
      | None => head targetPlaylists
      end in
    let best :=
      match pickBestPlaylist trackGenres profiles with
      | Some b => b
      | None =>
          match bestPid with
          | Some b => b
          | None => default "undefined" (head targetPlaylists)
          end
      end in
    tell (EvRoute item best);;
    mret (Continue
            (Record_set best
               (default [] (Record_get best newTrackIdsByPlaylist)
                  ++ [track_id track])
               newTrackIdsByPlaylist,
             newestAddedAt)).

(** The loop that writes the routed tracks. *)
Definition writePlaylists (newTrackIdsByPlaylist : Record (list string))
  : IO unit :=
  forOf (Object_entries newTrackIdsByPlaylist)
    (λ (entry : string * list string) (_ : unit),
       let '(pid, ids) := entry in
       if decide (length ids = 0) then mret tt
       else _ ← addTracksToPlaylistIfMissing pid ids; mret tt)
    tt.

(** [main] on the first-ever run. *)
Definition firstRun (state : State) : IO unit :=
  now ← newDate;
  let nowIso := toISOString now in
  writeState {| lastProcessedAddedAt := Some nowIso;
                lastProfileRebuildTime := lastProfileRebuildTime state |}.

(** [main] from [getTargetPlaylistIds()] up to, and without, the final
    [writeState]: the state to write. *)
Definition incrementalRun (state : State) : IO State :=
  env ← gets w_env;
  let targetPlaylists := getTargetPlaylistIds env in
  if decide (length targetPlaylists = 0) then throw ConfigurationError
  else
    '(profiles, updatedLastProfileRebuildTime) ←
      buildProfiles state targetPlaylists;
    '(newTrackIdsByPlaylist, newestAddedAt) ←
      forAwaitSavedTracks (routeItem state targetPlaylists profiles)
        ([], lastProcessedAddedAt state);
    writePlaylists newTrackIdsByPlaylist;;
    let watermark :=
      match newestAddedAt with
      | Some n =>
          if truthy n && gtOpt n (lastProcessedAddedAt state)
          then Some n else lastProcessedAddedAt state
      | None => lastProcessedAddedAt state
      end in
    mret {| lastProcessedAddedAt := watermark;
            lastProfileRebuildTime := Some updatedLastProfileRebuildTime |}.

Definition main : IO unit :=
  loaded ← readState;
  let state :=
    match lastProfileRebuildTime loaded with
    | Some _ => loaded
    | None => {| lastProcessedAddedAt := lastProcessedAddedAt loaded;
                 lastProfileRebuildTime := Some ∅ |}
    end in
  if negb (truthyOpt (lastProcessedAddedAt state))
  then firstRun state
  else
    updatedState ← incrementalRun state;
    writeState updatedState.

End Orchestrator.

(** ** spotify.ts: unconditional insertion *)

(** [addTracksToPlaylist]: every listed track, in batches of 100. *)
Definition addTracksToPlaylist (playlistId : string) (trackIds : list string)
  : IO unit :=
  forOf (slices 100 trackIds)
    (λ slice (_ : unit),
       callWithRetry (EvAddTracks playlistId (map toTrackUri slice))
         (spotify_addTracksToPlaylist playlistId (map toTrackUri slice)))
    tt.

(** ** spotify.ts: the retry loop

    [callWithRetry] in detail: the attempts it makes, the token refreshes
    and the waits between them.  The web API client and the clock are
    explicit: the answers of the successive calls of
    [spotify.refreshAccessToken] and of [fn], and a log of the steps
    taken. *)

Module Retry.

(** A rejection, by the fields the handler reads.  A [Retry-After] header
    is read with [Number(...)]: a whole number of seconds, or not a
    number. *)
Inductive HeaderValue :=
| Seconds (n : Z)
| NotANumber.

Record Failure := {
  statusCode : option Z;                 (* err.statusCode *)
  status : option Z;                     (* err.status *)
  retry_after : option HeaderValue;      (* err.headers["retry-after"] *)
  Retry_After : option HeaderValue;      (* err.headers["Retry-After"] *)
}.

Inductive Answer (A : Type) :=
| Returned (a : A)
| Rejected (err : Failure).
Arguments Returned {A} a.
Arguments Rejected {A} err.

(** The steps of a call; a wait carries its milliseconds, [None] when
    they are not a number. *)
Inductive Step :=
| Refresh
| Call
| Sleep (ms : option Z).

Record Client := {
  accessToken : option string;   (* spotify.getAccessToken() *)
  refreshed : nat;               (* calls of refreshAccessToken so far *)
  called : nat;                  (* calls of fn so far *)
  steps : list Step;
}.

Section Loop.
Context {A : Type}.
Context (refreshAccessToken : nat → Answer string) (fn : nat → Answer A).

(** [const data = await spotify.refreshAccessToken();
     spotify.setAccessToken(data.body.access_token)] *)
Definition refresh (c : Client) : Answer unit * Client :=
  match refreshAccessToken (refreshed c) with
  | Returned t =>
      (Returned tt,
       {| accessToken := Some t; refreshed := S (refreshed c);
          called := called c; steps := steps c ++ [Refresh] |})
  | Rejected err =>
      (Rejected err,
       {| accessToken := accessToken c; refreshed := S (refreshed c);
          called := called c; steps := steps c ++ [Refresh] |})
  end.

Definition ensureAccessToken (c : Client) : Answer unit * Client :=
  if truthyOpt (accessToken c) then (Returned tt, c) else refresh c.

Definition invoke (c : Client) : Answer A * Client :=
  (fn (called c),
   {| accessToken := accessToken c; refreshed := refreshed c;
      called := S (called c); steps := steps c ++ [Call] |}).

Definition sleep (ms : option Z) (c : Client) : Client :=
  {| accessToken := accessToken c; refreshed := refreshed c;
     called := called c; steps := steps c ++ [Sleep ms] |}.

(** [err?.statusCode ?? err?.status ?? 0] *)
Definition statusOf (err : Failure) : Z :=
  match statusCode err with
  | Some s => s
  | None => default 0%Z (status err)
  end.

(** [Math.max(1, Number(headers["retry-after"] ?? headers["Retry-After"]
    ?? 1)) * 1000] *)
Definition retryDelay (err : Failure) : option Z :=
  let header :=
    match retry_after err with
    | Some v => v
    | None => default (Seconds 1) (Retry_After err)
    end in
  match header with
  | Seconds n => Some (Z.max 1 n * 1000)%Z
  | NotANumber => None
  end.

(** The body of [try]: the token, then the call. *)
Definition tryOnce (c : Client) : Answer A * Client :=
  match ensureAccessToken c with
  | (Returned _, c1) => invoke c1
  | (Rejected err, c1) => (Rejected err, c1)
  end.

(** The loop [while (true)], entered with [attempt] attempts made;
    [None] when the rounds allowed by [fuel] are used up. *)
Fixpoint retryFrom (fuel tries attempt : nat) (c : Client)
  : option (Answer A * Client) :=
  match fuel with
  | O => None
  | S fuel' =>
      let attempt := S attempt in
      match tryOnce c with
      | (Returned a, c1) => Some (Returned a, c1)
      | (Rejected err, c1) =>
          if (statusOf err =? 401)%Z && (attempt <? tries)
          then
            match refresh c1 with
            | (Returned _, c2) => retryFrom fuel' tries attempt c2
            | (Rejected err', c2) => Some (Rejected err', c2)
            end
          else if (statusOf err =? 429)%Z && (attempt <? tries)
          then retryFrom fuel' tries attempt (sleep (retryDelay err) c1)
          else if attempt <? tries
          then
            retryFrom fuel' tries attempt
              (sleep (Some (500 * Z.of_nat attempt)%Z) c1)
          else Some (Rejected err, c1)
      end
  end.

(** A round either ends the loop or adds an attempt, and a round with
    [tries] attempts made or more ends it: [tries] rounds, and one when
    [tries] is 0, are enough. *)
Definition callWithRetry (tries : nat) (c : Client)
  : option (Answer A * Client) :=
  retryFrom (Nat.max 1 tries) tries 0 c.

End Loop.

(** The waits of a log, in order. *)
Definition sleeps (l : list Step) : list (option Z) :=
  omap (λ s, match s with Sleep ms => Some ms | _ => None end) l.

End Retry.

(** ** Notions used to state the properties *)

(** The state [readState] loads from a state file. *)
Definition loadedState (f : FileContent State) : State :=
  match f with
  | Json s => s
  | NoFile | NotJson _ => emptyState
  end.

(** The state [main] works on: the loaded state, with an empty mapping of
    rebuild times when it has none. *)
Definition startState (f : FileContent State) : State :=
  let loaded := loadedState f in
  match lastProfileRebuildTime loaded with
  | Some _ => loaded
  | None => {| lastProcessedAddedAt := lastProcessedAddedAt loaded;
               lastProfileRebuildTime := Some ∅ |}
  end.

(** The state the first-ever run writes at clock reading [now]. *)
Definition initialState `{JsRuntime} (f : FileContent State) (now : Z)
  : State :=
  {| lastProcessedAddedAt := Some (toISOString now);
     lastProfileRebuildTime := lastProfileRebuildTime (startState f) |}.

(** The persisted watermark, the empty string (the least string, and
    falsy like an absent field) when there is none. *)
Definition watermarkOf (f : FileContent State) : string :=
  default "" (lastProcessedAddedAt (loadedState f)).

(** The instant [a] comes before the instant [b]: both are timestamps
    [Date.parse] reads, and the time value of the first is smaller. *)
Definition instantBefore `{JsRuntime} (a b : string) : Prop :=
  match Date_parse a, Date_parse b with
  | Some x, Some y => (x < y)%Z
  | _, _ => False
  end.

(** Every weight of every profile is non-negative (the invariant of
    [GenreProfile] in the data model). *)
Definition nonNegativeWeights (profiles : Record GenreProfile) : Prop :=
  ∀ pid prof g w,
    (pid, prof) ∈ Object_entries profiles → prof !! g = Some w → (0 ≤ w)%Z.

(** The artists appearing on the tracks of a playlist, one occurrence per
    appearance. *)
Definition playlistArtists (pl : Playlist) : list string :=
  flat_map (λ t, map artist_id (track_artists t))
    (yieldedTracks (playlist_items pl)).

(** The genre tags the catalog attaches to an artist. *)
Definition tagsOf (w : World) (a : string) : list string :=
  default [] (w_artistGenres w a).

(** The number of distinct artists of the playlist that carry tag [g]. *)
Definition distinctArtistsCarrying (w : World) (pl : Playlist) (g : string)
  : nat :=
  size (filter (λ a, g ∈ tagsOf w a)
          (list_to_set (playlistArtists pl) : gset string)).

(** The profiles the cache file holds. *)
Definition cachedProfiles (w : World) : list CachedProfile :=
  match w_cacheFile w with
  | Json profiles => profiles
  | NoFile | NotJson _ => []
  end.

(** The artist object the catalog answers for an id. *)
Definition artistOf (w : World) (a : string) : ArtistObjectFull :=
  {| full_id := a; artist_genres := w_artistGenres w a |}.

(** The ids [buildPlaylistGenreProfile] asks the catalog about. *)
Definition profiledArtistIds (pl : Playlist) : list string :=
  List.filter truthy (collectArtistIds (yieldedTracks (playlist_items pl))).

(** The number of times tag [g] is listed by the distinct artists, with an
    id, of the tracks of the playlist. *)
Definition tagListings (w : World) (pl : Playlist) (g : string) : nat :=
  length (filter (λ t, t = g) (flat_map (tagsOf w) (profiledArtistIds pl))).

(** The cache entry a rebuild of [pid] writes in world [w]. *)
Definition rebuiltEntry `{JsRuntime} (w : World) (pid : string)
  (pl : Playlist) : CachedProfile :=
  {| playlistId := pid;
     snapshotId := snapshot_id pl;
     tracksTotal := length (playlist_items pl);
     updatedAt := toISOString (w_time w (w_tick w));
     genres := countGenres (map (artistOf w) (profiledArtistIds pl)) ∅ |}.

(** The offsets at which [iteratePlaylistTracks] requests a page of a
    listing of [total] items. *)
Fixpoint pageOffsets (fuel offset total : nat) : list nat :=
  match fuel with
  | O => []
  | S fuel' =>
      offset ::
        (if decide (offset + 50 < total)
         then pageOffsets fuel' (offset + 50) total else [])
  end.

Definition enumerationEvents (pid : string) (pl : Playlist) : list Event :=
  map (EvGetPlaylistTracks pid)
    (pageOffsets (S (length (playlist_items pl))) 0
       (length (playlist_items pl))).
Arguments enumerationEvents : simpl never.

(** The liked tracks that come before the first one liked at or before
    the watermark [wm]. *)
Fixpoint newerPrefix (wm : string) (saved : list SavedTrackItem)
  : list SavedTrackItem :=
  match saved with
  | [] => []
  | item :: rest =>
      if String.leb (added_at item) wm then []
      else item :: newerPrefix wm rest
  end.

(** The liked tracks are the same in both worlds. *)
Definition sameSaved (w1 w2 : World) : Prop := w_saved w2 = w_saved w1.

(** The tracks routed in a trace, in order. *)
Definition routedItems (t : list Event) : list SavedTrackItem :=
  omap (λ ev, match ev with EvRoute item _ => Some item | _ => None end) t.

Definition isWriteState (ev : Event) : bool :=
  match ev with EvWriteState _ => true | _ => false end.

(** A catalog request: a read or a write of the remote service. *)
Definition isCatalogCall (ev : Event) : bool :=
  match ev with
  | EvGetPlaylist _ | EvGetPlaylistTracks _ _ | EvGetSavedTracks _
  | EvGetArtists _ | EvAddTracks _ _ => true
  | _ => false
  end.

Definition isStateIO (ev : Event) : bool :=
  match ev with EvReadState | EvWriteState _ => true | _ => false end.

Definition isMembershipOrArtistFetch (ev : Event) : bool :=
  match ev with
  | EvGetPlaylistTracks _ _ | EvGetArtists _ => true
  | _ => false
  end.

Definition isAddTracks (ev : Event) : bool :=
  match ev with EvAddTracks _ _ => true | _ => false end.

(** The uris of the insertion requests of a trace, in order. *)
Definition addedUris (t : list Event) : list (list string) :=
  omap (λ ev, match ev with EvAddTracks _ uris => Some uris | _ => None end) t.

(** The [Set] of ids [getPlaylistTrackIdsSet] collects from a playlist. *)
Definition existingIds (pl : Playlist) : list string :=
  foldl (λ ids track,
           if truthy (track_id track)
           then Set_add (track_id track) ids else ids)
    [] (yieldedTracks (playlist_items pl)).

(** A playlist after the catalog appended the tracks [ids]. *)
Definition grownPlaylist
  (info : string → string * list ArtistObjectSimplified)
  (pl : Playlist) (ids : list string) : Playlist :=
  {| snapshot_id := snapshot_id pl +:+ "+";
     playlist_items := playlist_items pl ++ map (catalogTrack info) ids |}.

(** The playlists are the same in both worlds. *)
Definition samePlaylists (w1 w2 : World) : Prop :=
  w_playlists w2 = w_playlists w1.

(** The track ids present in a playlist of the catalog. *)
Definition playlistTrackIds (w : World) (pid : string) : list string :=
  match w_playlists w !! pid with
  | Some pl => map track_id (yieldedTracks (playlist_items pl))
  | None => []
  end.

(** [m] relates every world to its final world by [R], performs only
    events that satisfy [T], and returns only values that satisfy [Q]. *)
Definition maintains {A} (R : World → World → Prop) (T : Event → Prop)
  (Q : A → Prop) (m : IO A) : Prop :=
  ∀ w,
    R w (world (m w))
    ∧ Forall T (trace (m w))
    ∧ ∀ a, res (m w) = Ok a → Q a.

(** The state file is the same in both worlds. *)
Definition sameStateFile (w1 w2 : World) : Prop :=
  w_stateFile w2 = w_stateFile w1.

(** The world with a catalog that never fails. *)
Definition reliable (w : World) : World := setFailAfter None w.

(** [m] does not depend on the fault budget beyond failing: whenever it
    returns, it returns the same value, with the same trace and the same
    final world (budget apart), when the catalog never fails. *)
Definition robust {A} (m : IO A) : Prop :=
  ∀ w a,
    res (m w) = Ok a →
    res (m (reliable w)) = Ok a
    ∧ trace (m (reliable w)) = trace (m w)
    ∧ world (m (reliable w)) = reliable (world (m w)).

(** [m] never runs out of the fuel of a pagination loop. *)
Definition converges {A} (m : IO A) : Prop :=
  ∀ w, res (m w) ≠ Throw Diverged.

(** An outcome after the events [t]. *)
Definition prefixed {A} (t : list Event) (o : Outcome A) : Outcome A :=
  {| res := res o; world := world o; trace := t ++ trace o |}.

Section Runs.
Context `{JsRuntime}.

(** Consecutive runs of [main]: run [k] happens in the environment
    [envs !! k] (catalog, clock, configuration), on the state file the
    previous run left.  The result is the state files after each run, when
    every run succeeds. *)
Fixpoint consecutiveRuns (envs : list World) (f : FileContent State)
  : option (list (FileContent State)) :=
  match envs with
  | [] => Some []
  | env :: rest =>
      let o := main (setStateFile f env) in
      match res o with
      | Ok _ =>
          cons (w_stateFile (world o))
            <$> consecutiveRuns rest (w_stateFile (world o))
      | Throw _ => None
      end
  end.

End Runs.

(** *** Notions used to state the further properties *)

(** Whether the character of code [n] occurs in [s]. *)
Fixpoint occursIn (n : N) (s : string) : bool :=
  match s with
  | EmptyString => false
  | String c rest => (Ascii.N_of_ascii c =? n)%N || occursIn n rest
  end.

(** The parts of the comma-separated list [TARGET_PLAYLIST_IDS]. *)
Definition listedTargets (env : list (string * string)) : list string :=
  match envLookup "TARGET_PLAYLIST_IDS" env with
  | Some ids => splitOn 44 ids
  | None => []
  end.

(** The values of the variables [TARGET_PLAYLIST_ID_*], in the order of
    the environment. *)
Definition numberedTargets (env : list (string * string)) : list string :=
  map snd (List.filter (λ kv, String.prefix "TARGET_PLAYLIST_ID_" kv.1) env).

(** The ranking [main] logs for a track: every profile with its score,
    best first. *)
Definition ranking (trackGenres : list string) (profiles : Record GenreProfile)
  : list (string * Z) :=
  sortScores
    (map (λ '(pid, prof), (pid, scoreTrackAgainstProfile trackGenres prof))
       (Object_entries profiles)).

(** The names of the members of [Object.prototype], which a property read
    on an ordinary object finds when the object has no such property of
    its own. *)
Definition Object_prototype_members : list string :=
  ["constructor"; "hasOwnProperty"; "isPrototypeOf"; "propertyIsEnumerable";
   "toLocaleString"; "toString"; "valueOf"; "__proto__";
   "__defineGetter__"; "__defineSetter__"; "__lookupGetter__";
   "__lookupSetter__"].

(** The key of a cache entry. *)
Definition cacheKey (c : CachedProfile) : string * string :=
  (playlistId c, snapshotId c).

(** The profiles [putCachedProfile] writes back: [entry] in the place of
    the first profile with its key, or at the end. *)
Definition storedProfiles (entry : CachedProfile)
  (profiles : list CachedProfile) : list CachedProfile :=
  match findIndex (cacheKeyIs (playlistId entry) (snapshotId entry)) profiles
  with
  | Some idx => <[idx := entry]> profiles
  | None => profiles ++ [entry]
  end.

(** The number of pages of [limit] items a listing of [n] items is read
    in: one request even when there is nothing to read. *)
Definition pagesOf (limit n : nat) : nat := Nat.max 1 ((n + (limit - 1)) / limit).

(** What a run may do between its state read and its state write, given
    its target playlists: no state I/O; requests about target playlists
    only; artist requests of 1 to 50 non-empty ids; insertions of 1 to 100
    tracks into a target; routing to a target. *)
Definition orderly (targets : list string) (ev : Event) : Prop :=
  match ev with
  | EvReadState | EvWriteState _ => False
  | EvReadCache | EvWriteCache _ | EvGetSavedTracks _ => True
  | EvGetPlaylist pid | EvGetPlaylistTracks pid _ => pid ∈ targets
  | EvGetArtists ids => 0 < length ids ≤ 50 ∧ "" ∉ ids
  | EvAddTracks pid uris => pid ∈ targets ∧ 0 < length uris ≤ 100
  | EvRoute _ pid => pid ∈ targets
  end.

(** From [w] to [w'] the configuration and the liked songs are the same,
    no playlist appeared or disappeared, every playlist kept its items as
    a prefix, and the playlists outside [targets] are unchanged. *)
Definition onlyAppends (targets : list string) (w w' : World) : Prop :=
  w_env w' = w_env w
  ∧ w_saved w' = w_saved w
  ∧ ∀ pid,
      match w_playlists w !! pid with
      | Some pl =>
          ∃ pl', w_playlists w' !! pid = Some pl'
                 ∧ playlist_items pl `prefix_of` playlist_items pl'
                 ∧ (pid ∉ targets → pl' = pl)
      | None => w_playlists w' !! pid = None
      end.

(** The state a loop step leaves. *)
Definition stepState {St} (r : LoopStep St) : St :=
  match r with Continue s | Break s => s end.

(** The routed tracks collected so far all go to target playlists. *)
Definition toTargets (targets : list string)
  (acc : Record (list string) * option string) : Prop :=
  ∀ pid, pid ∈ map fst acc.1 → pid ∈ targets.

(** The routing decisions of a trace: destination and track id, in
    order. *)
Definition routes (t : list Event) : list (string * string) :=
  omap (λ ev,
          match ev with
          | EvRoute item pid => Some (pid, track_id (saved_track item))
          | _ => None
          end) t.

(** Track [id] is among the tracks collected for playlist [pid]. *)
Definition collected (byPlaylist : Record (list string)) (pid id : string)
  : Prop :=
  id ∈ default [] (Record_get pid byPlaylist).

(** A computation that records in its result every routing decision it
    logs, and forgets none recorded before. *)
Definition recording {St}
  (proj : St → Record (list string)) (before : Record (list string))
  (m : IO St) : Prop :=
  ∀ w r,
    res (m w) = Ok r →
    (∀ pid id, collected before pid id → collected (proj r) pid id)
    ∧ (∀ pid id, (pid, id) ∈ routes (trace (m w)) → collected (proj r) pid id).


(** A computation whose result is the loop state [s] unless it logs a
    routing decision. *)
Definition idleUnlessRouting {St R} (proj : R → St) (s : St) (m : IO R)
  : Prop :=
  ∀ w r, res (m w) = Ok r → routes (trace (m w)) = [] → proj r = s.

(** The newest like seen so far, the empty string when there is none. *)
Definition newestOf (acc : Record (list string) * option string) : string :=
  default "" acc.2.

(** A computation whose resulting loop state covers (is at or after)
    every like it routes, and does not go back. *)
Definition covering {R}
  (proj : R → Record (list string) * option string)
  (s : Record (list string) * option string) (m : IO R) : Prop :=
  ∀ w r,
    res (m w) = Ok r →
    (newestOf s ≤ newestOf (proj r))%string
    ∧ Forall (λ item, (added_at item ≤ newestOf (proj r))%string)
        (routedItems (trace (m w))).

(** The version requests of a trace, in order. *)
Definition versionRequests (t : list Event) : list string :=
  omap (λ ev, match ev with EvGetPlaylist pid => Some pid | _ => None end) t.

(** The wait that follows the rejection [err] of attempt number
    [attempt], when another attempt is allowed: none after a 401 (the
    token is refreshed instead), the server's delay after a 429, a delay
    that grows with the attempts otherwise. *)
Definition waitAfter (err : Retry.Failure) (attempt : nat) : list (option Z) :=
  if (Retry.statusOf err =? 401)%Z then []
  else if (Retry.statusOf err =? 429)%Z then [Retry.retryDelay err]
  else [Some (500 * Z.of_nat attempt)%Z].

(** ** Sample inputs *)

Definition sampleRuntime : JsRuntime :=
  {| Date_parse := λ _, Some 0%Z;
     toISOString := λ _, "2025-05-01T00:00:00.000Z";
     parseInt := λ _, Some 24%Z |}.

Definition sampleTrack (id : string) (artists : list string)
  : TrackObjectFull :=
  {| track_id := id; track_type := "track"; track_name := id;
     track_artists := map (λ a, {| artist_id := a |}) artists |}.

Definition sampleItem (id : string) (artists : list string)
  : PlaylistTrackObject :=
  {| pto_track := Some (sampleTrack id artists) |}.

Definition sampleGenres (a : string) : option (list string) :=
  if String.eqb a "a1" then Some ["rock"; "pop"]
  else if String.eqb a "a2" then Some ["rock"]
  else if String.eqb a "a3" then Some ["jazz"]
  else None.

Definition rockPlaylist : Playlist :=
  {| snapshot_id := "s1";
     playlist_items := [sampleItem "t1" ["a1"; "a2"]; sampleItem "t2" ["a1"]] |}.

Definition jazzPlaylist : Playlist :=
  {| snapshot_id := "j1"; playlist_items := [sampleItem "t3" ["a3"]] |}.

Definition sampleState : State :=
  {| lastProcessedAddedAt := Some "2025-02-01T00:00:00Z";
     lastProfileRebuildTime := None |}.

(** Two target playlists, three liked tracks of which two are newer than
    the watermark, an empty cache, a catalog that never fails. *)
Definition sampleWorld : World :=
  {| w_env := [("TARGET_PLAYLIST_IDS", "rockpl,jazzpl")];
     w_stateFile := Json sampleState;
     w_cacheFile := NoFile;
     w_playlists := {[ "rockpl" := rockPlaylist; "jazzpl" := jazzPlaylist ]};
     w_saved :=
       [ {| added_at := "2025-03-01T00:00:00Z";
            saved_track := sampleTrack "n1" ["a3"] |};
         {| added_at := "2025-02-15T00:00:00Z";
            saved_track := sampleTrack "n2" ["a2"] |};
         {| added_at := "2025-01-15T00:00:00Z";
            saved_track := sampleTrack "n3" ["a2"] |} ];
     w_artistGenres := sampleGenres;
     w_trackInfo := λ id, (id, []);
     w_time := λ n, Z.of_nat (1000 * n);
     w_tick := 0;
     w_failAfter := None |}.

(** The same world with no target playlist configured. *)
Definition noTargetsWorld : World :=
  {| w_env := [("HOME", "/home/user")];
     w_stateFile := w_stateFile sampleWorld;
     w_cacheFile := w_cacheFile sampleWorld;
     w_playlists := w_playlists sampleWorld;
     w_saved := w_saved sampleWorld;
     w_artistGenres := w_artistGenres sampleWorld;
     w_trackInfo := w_trackInfo sampleWorld;
     w_time := w_time sampleWorld;
     w_tick := w_tick sampleWorld;
     w_failAfter := w_failAfter sampleWorld |}.

(** The sample world with a catalog that fails for good at its eighth
    request, the first artist request of the routing phase. *)
Definition failingWorld : World := setFailAfter (Some 7) sampleWorld.

(** The sample world with a state file that is not JSON. *)
Definition corruptStateWorld : World :=
  setStateFile (NotJson "{lastProcessedAddedAt: 2025-02") sampleWorld.

(** The sample world before the first-ever run. *)
Definition freshWorld : World := setStateFile NoFile sampleWorld.

(** Two profiles that tie at zero on an empty genre list. *)
Definition tiedProfiles : Record GenreProfile :=
  [("A", {[ "rock" := 5%Z ]}); ("B", {[ "jazz" := 4%Z ]})].

(** The sample world with a catalog that lists "rock" twice for the artist
    [a1]. *)
Definition repeatedTagWorld : World :=
  {| w_env := w_env sampleWorld;
     w_stateFile := w_stateFile sampleWorld;
     w_cacheFile := w_cacheFile sampleWorld;
     w_playlists := w_playlists sampleWorld;
     w_saved := w_saved sampleWorld;
     w_artistGenres :=
       λ a, if String.eqb a "a1" then Some ["rock"; "pop"; "rock"]
            else sampleGenres a;
     w_trackInfo := w_trackInfo sampleWorld;
     w_time := w_time sampleWorld;
     w_tick := w_tick sampleWorld;
     w_failAfter := w_failAfter sampleWorld |}.

(** *** A runtime with ISO-8601 timestamps *)

(** The value of a string of decimal digits. *)
Fixpoint decimalFrom (acc : Z) (s : string) : option Z :=
  match s with
  | EmptyString => Some acc
  | String c rest =>
      let n := Ascii.N_of_ascii c in
      if ((48 <=? n) && (n <=? 57))%N
      then decimalFrom (10 * acc + Z.of_N n - 48)%Z rest
      else None
  end.

Definition decimal (s : string) : option Z :=
  if truthy s then decimalFrom 0 s else None.

(** The days from 1970-01-01 to a day of the proleptic Gregorian
    calendar. *)
Definition daysFromCivil (y m d : Z) : Z :=
  let y := (if m <=? 2 then y - 1 else y)%Z in
  let era := (y / 400)%Z in
  let yoe := (y - era * 400)%Z in
  let mp := ((m + 9) mod 12)%Z in
  let doy := ((153 * mp + 2) / 5 + d - 1)%Z in
  let doe := (yoe * 365 + yoe / 4 - yoe / 100 + doy)%Z in
  (era * 146097 + doe - 719468)%Z.

(** The year, month and day that many days after 1970-01-01. *)
Definition civilFromDays (z : Z) : Z * Z * Z :=
  let z := (z + 719468)%Z in
  let era := (z / 146097)%Z in
  let doe := (z - era * 146097)%Z in
  let yoe := ((doe - doe / 1460 + doe / 36524 - doe / 146096) / 365)%Z in
  let doy := (doe - (365 * yoe + yoe / 4 - yoe / 100))%Z in
  let mp := ((5 * doy + 2) / 153)%Z in
  let d := (doy - (153 * mp + 2) / 5 + 1)%Z in
  let m := (if mp <? 10 then mp + 3 else mp - 9)%Z in
  let y := (yoe + era * 400)%Z in
  ((if m <=? 2 then y + 1 else y)%Z, m, d).

(** [Date.parse] on the two UTC date-time forms the program meets,
    [YYYY-MM-DDTHH:mm:ssZ] (the catalog) and [YYYY-MM-DDTHH:mm:ss.sssZ]
    ([toISOString]): the milliseconds since 1970-01-01T00:00:00Z. *)
Definition isoParse (s : string) : option Z :=
  let field (from len : nat) := decimal (String.substring from len s) in
  let sep (at_ : nat) (c : string) :=
    String.eqb (String.substring at_ 1 s) c in
  let ms :=
    if (String.length s =? 20)%nat && sep 19 "Z" then Some 0%Z
    else if (String.length s =? 24)%nat && sep 19 "." && sep 23 "Z"
         then field 20 3
         else None in
  if sep 4 "-" && sep 7 "-" && sep 10 "T" && sep 13 ":" && sep 16 ":"
  then
    match field 0 4, field 5 2, field 8 2, field 11 2, field 14 2,
          field 17 2, ms with
    | Some y, Some m, Some d, Some hh, Some mm, Some ss, Some ms =>
        if ((1 <=? m) && (m <=? 12) && (1 <=? d) && (d <=? 31)
            && (hh <=? 23) && (mm <=? 59) && (ss <=? 59))%Z
        then Some ((((daysFromCivil y m d * 24 + hh) * 60 + mm) * 60 + ss)
                   * 1000 + ms)%Z
        else None
    | _, _, _, _, _, _, _ => None
    end
  else None.

(** A number written in decimal with at least [width] digits. *)
Fixpoint digitsOf (width : nat) (n : Z) : string :=
  match width with
  | 0 => ""
  | S width' =>
      digitsOf width' (n / 10)
      +:+ String (Ascii.ascii_of_N (Z.to_N (48 + n mod 10))) ""
  end.

(** [Date.prototype.toISOString], for the years 0 to 9999. *)
Definition isoFormat (t : Z) : string :=
  let '(y, m, d) := civilFromDays (t / 86400000) in
  let r := (t mod 86400000)%Z in
  digitsOf 4 y +:+ "-" +:+ digitsOf 2 m +:+ "-" +:+ digitsOf 2 d +:+ "T"
  +:+ digitsOf 2 (r / 3600000) +:+ ":" +:+ digitsOf 2 (r / 60000 mod 60)
  +:+ ":" +:+ digitsOf 2 (r / 1000 mod 60) +:+ "."
  +:+ digitsOf 3 (r mod 1000) +:+ "Z".

(** A runtime that reads and writes ISO timestamps as above; its
    [parseInt] reads a string of decimal digits. *)
Definition isoRuntime : JsRuntime :=
  {| Date_parse := isoParse;
     toISOString := isoFormat;
     parseInt := decimal |}.

(** The sample world before its first-ever run, with a clock that starts
    at [start]. *)
Definition firstRunWorldAt (start : Z) : World :=
  {| w_env := w_env sampleWorld;
     w_stateFile := NoFile;
     w_cacheFile := w_cacheFile sampleWorld;
     w_playlists := w_playlists sampleWorld;
     w_saved := w_saved sampleWorld;
     w_artistGenres := w_artistGenres sampleWorld;
     w_trackInfo := w_trackInfo sampleWorld;
     w_time := λ n, (start + Z.of_nat (1000 * n))%Z;
     w_tick := w_tick sampleWorld;
     w_failAfter := w_failAfter sampleWorld |}.

(** Two runs: the first at 2025-03-01T00:00:00.500Z, half a second after
    the newest like of the sample world, the second an hour later. *)
Definition sameSecondRuns : list World :=
  [firstRunWorldAt 1740787200500; firstRunWorldAt 1740790800500].

(** ** Further sample inputs *)

Definition sampleId : string := "37i9dQZF1DXcBWIGoYBM5M".

(** A configuration that names the rock playlist twice, the jazz playlist
    as a URI, and two values that are no playlist reference. *)
Definition sampleEnv : list (string * string) :=
  [("TARGET_PLAYLIST_IDS", "rockpl, spotify:playlist:jazzpl,,bad id");
   ("HOME", "/home/user");
   ("TARGET_PLAYLIST_ID_1", "https://open.spotify.com/playlist/rockpl?si=1")].

Definition sampleEntry : CachedProfile :=
  {| playlistId := "rockpl"; snapshotId := "s1"; tracksTotal := 2;
     updatedAt := "2025-05-01T00:00:00.000Z";
     genres := {[ "rock" := 2%Z; "pop" := 1%Z ]} |}.

(** An older profile of the rock playlist under the key of [sampleEntry],
    and a cache that holds it between two other profiles. *)
Definition staleEntry : CachedProfile :=
  {| playlistId := "rockpl"; snapshotId := "s1"; tracksTotal := 1;
     updatedAt := "2025-04-01T00:00:00.000Z";
     genres := {[ "rock" := 1%Z ]} |}.

Definition jazzEntry (snap : string) : CachedProfile :=
  {| playlistId := "jazzpl"; snapshotId := snap; tracksTotal := 1;
     updatedAt := "2025-04-01T00:00:00.000Z";
     genres := {[ "jazz" := 1%Z ]} |}.

Definition cachedWorld : World :=
  setCacheFile (Json [jazzEntry "j0"; staleEntry; jazzEntry "j1"]) sampleWorld.

(** The sample world with a watermark newer than every like. *)
Definition idleWorld : World :=
  setStateFile
    (Json {| lastProcessedAddedAt := Some "2025-04-01T00:00:00Z";
             lastProfileRebuildTime := None |})
    sampleWorld.

(** A client that holds a token, a token service that answers, and a
    request that is rejected twice (rate limit with a delay of 3 seconds,
    then a server error) before it is answered. *)
Definition sampleClient : Retry.Client :=
  {| Retry.accessToken := Some "token"; Retry.refreshed := 0;
     Retry.called := 0; Retry.steps := [] |}.

Definition sampleRefresh (n : nat) : Retry.Answer string :=
  Retry.Returned "token".

Definition rateLimited : Retry.Failure :=
  {| Retry.statusCode := Some 429%Z; Retry.status := None;
     Retry.retry_after := Some (Retry.Seconds 3); Retry.Retry_After := None |}.

Definition serverError : Retry.Failure :=
  {| Retry.statusCode := Some 500%Z; Retry.status := None;
     Retry.retry_after := None; Retry.Retry_After := None |}.

Definition flakyRequest (n : nat) : Retry.Answer string :=
  match n with
  | 0 => Retry.Rejected rateLimited
  | 1 => Retry.Rejected serverError
  | _ => Retry.Returned "answer"
  end.

Definition failingRequest (n : nat) : Retry.Answer string :=
  Retry.Rejected serverError.

(** * Properties *)

(** ** Scoring *)

Lemma foldl_score_acc (profile : GenreProfile) (gs : list string) (acc : Z) :
  foldl (λ score g, (score + weightOf profile g)%Z) acc gs
  = (acc + score_spec gs profile)%Z.
Proof.
  unfold score_spec.
  revert acc. induction gs as [|g gs IH]; intros acc; simpl.
  - lia.
  - rewrite IH. unfold weightOf. destruct (profile !! g); simpl; lia.
Qed.

Lemma score_is_sum
  (trackGenres : list string) (profile : GenreProfile) :
  scoreTrackAgainstProfile trackGenres profile
  = score_spec trackGenres profile.
Proof.
  unfold scoreTrackAgainstProfile. rewrite foldl_score_acc. lia.
Qed.

(** C8. For every genre list and every profile, [scoreTrackAgainstProfile]
    returns the sum over the listed genres of the genre's weight in the
    profile, an absent genre counting 0.  The function lives outside the
    [IO] monad: its result depends on its two arguments only and it
    performs no effect. *)
Theorem scoreTrackAgainstProfile_is_sum
  (trackGenres : list string) (profile : GenreProfile) :
  scoreTrackAgainstProfile trackGenres profile
  = score_spec trackGenres profile.
Proof. apply score_is_sum. Qed.

(** The scenario of the specification: A = {rock:5, pop:1}, B = {jazz:4};
    a track tagged {pop} scores 1 against A and 0 against B and goes
    to A. *)
Example score_scenario :
  let A : GenreProfile := {[ "rock" := 5%Z; "pop" := 1%Z ]} in
  let B : GenreProfile := {[ "jazz" := 4%Z ]} in
  scoreTrackAgainstProfile ["pop"] A = 1%Z
  ∧ scoreTrackAgainstProfile ["pop"] B = 0%Z
  ∧ pickBestPlaylist ["pop"] [("A", A); ("B", B)] = Some "A".
Proof. vm_compute. auto. Qed.

(** ** Routing *)

Lemma score_spec_nonneg (profile : GenreProfile) (gs : list string) :
  (∀ g w, profile !! g = Some w → (0 ≤ w)%Z) →
  (0 ≤ score_spec gs profile)%Z.
Proof.
  intros Hpos. unfold score_spec.
  induction gs as [|g gs IH]; simpl; [lia|].
  destruct (profile !! g) as [w|] eqn:Hg; [apply Hpos in Hg|]; lia.
Qed.

Lemma score_nonneg (profile : GenreProfile) (gs : list string) :
  (∀ g w, profile !! g = Some w → (0 ≤ w)%Z) →
  (0 ≤ scoreTrackAgainstProfile gs profile)%Z.
Proof.
  intros. rewrite score_is_sum.
  by apply score_spec_nonneg.
Qed.

Lemma score_empty (profile : GenreProfile) :
  scoreTrackAgainstProfile [] profile = 0%Z.
Proof. reflexivity. Qed.

(** The loop of [pickBestPlaylist], from any best-so-far: either no entry
    beats [bestScore] and the best-so-far stands, or the answer is the
    first entry that reaches the maximum of the scores. *)
Lemma pickBestLoop_first_max (gs : list string)
  (entries : list (string * GenreProfile)) :
  ∀ (bestId : option string) (bestScore : Z),
    (Forall (λ q, (scoreTrackAgainstProfile gs q.2 ≤ bestScore)%Z) entries
     ∧ pickBestLoop gs entries bestId bestScore = bestId)
    ∨ (∃ i pid prof,
         entries !! i = Some (pid, prof)
         ∧ pickBestLoop gs entries bestId bestScore = Some pid
         ∧ (bestScore < scoreTrackAgainstProfile gs prof)%Z
         ∧ (∀ j q, entries !! j = Some q →
              (scoreTrackAgainstProfile gs q.2
               ≤ scoreTrackAgainstProfile gs prof)%Z)
         ∧ (∀ j q, j < i → entries !! j = Some q →
              (scoreTrackAgainstProfile gs q.2
               < scoreTrackAgainstProfile gs prof)%Z)).
Proof.
  induction entries as [|[pid prof] rest IH]; intros bestId bestScore.
  - left. split; [constructor | reflexivity].
  - simpl. destruct (Z.ltb_spec bestScore (scoreTrackAgainstProfile gs prof))
      as [Hlt|Hge].
    + right.
      destruct (IH (Some pid) (scoreTrackAgainstProfile gs prof))
        as [[Hall ->] | (i & pid' & prof' & Hi & -> & Hbeat & Hmax & Hfirst)].
      * exists 0, pid, prof. repeat split; auto.
        -- intros [|j] q Hq; simpl in Hq.
           ++ inversion Hq; subst; simpl; lia.
           ++ rewrite Forall_lookup in Hall. by apply (Hall j).
        -- intros j q Hj; lia.
      * exists (S i), pid', prof'. repeat split; auto.
        -- lia.
        -- intros [|j] q Hq; simpl in Hq.
           ++ inversion Hq; subst; simpl; lia.
           ++ by apply (Hmax j).
        -- intros [|j] q Hj Hq; simpl in Hq.
           ++ inversion Hq; subst; simpl; lia.
           ++ apply (Hfirst j); [lia | done].
    + destruct (IH bestId bestScore)
        as [[Hall ->] | (i & pid' & prof' & Hi & -> & Hbeat & Hmax & Hfirst)].
      * left. split; [|done]. constructor; [simpl; lia | done].
      * right. exists (S i), pid', prof'. repeat split; auto.
        -- intros [|j] q Hq; simpl in Hq.
           ++ inversion Hq; subst; simpl; lia.
           ++ by apply (Hmax j).
        -- intros [|j] q Hj Hq; simpl in Hq.
           ++ inversion Hq; subst; simpl; lia.
           ++ apply (Hfirst j); [lia | done].
Qed.

(** C7. For every track-genre list and every non-empty mapping of
    profiles (with the non-negative weights of the data model),
    [pickBestPlaylist] returns the id of an entry whose score is the
    maximum, and of the first such entry in the iteration order of the
    mapping: every earlier entry scores strictly less.  With an empty
    genre list every score is 0 and the first entry is returned. *)
Theorem pickBestPlaylist_first_maximum
  (trackGenres : list string) (profiles : Record GenreProfile) :
  profiles ≠ [] →
  nonNegativeWeights profiles →
  ∃ i pid prof,
    Object_entries profiles !! i = Some (pid, prof)
    ∧ pickBestPlaylist trackGenres profiles = Some pid
    ∧ (∀ j q, Object_entries profiles !! j = Some q →
         (scoreTrackAgainstProfile trackGenres q.2
          ≤ scoreTrackAgainstProfile trackGenres prof)%Z)
    ∧ (∀ j q, j < i → Object_entries profiles !! j = Some q →
         (scoreTrackAgainstProfile trackGenres q.2
          < scoreTrackAgainstProfile trackGenres prof)%Z)
    ∧ (trackGenres = [] →
         i = 0
         ∧ ∀ q, q ∈ Object_entries profiles →
             scoreTrackAgainstProfile trackGenres q.2 = 0%Z).
Proof.
  intros Hne Hpos. unfold pickBestPlaylist, Object_entries in *.
  destruct (pickBestLoop_first_max trackGenres profiles None (-1)%Z)
    as [[Hall _] | (i & pid & prof & Hi & Hres & Hbeat & Hmax & Hfirst)].
  - destruct profiles as [|[pid prof] rest]; [done|].
    apply Forall_cons in Hall as [Hhd _]. simpl in Hhd.
    assert (0 ≤ scoreTrackAgainstProfile trackGenres prof)%Z; [|lia].
    apply score_nonneg. intros g w. apply (Hpos pid prof g w). left.
  - exists i, pid, prof. repeat split; auto.
    + subst trackGenres. destruct i as [|i]; [done|].
      destruct profiles as [|q rest]; [done|].
      specialize (Hfirst 0 q ltac:(lia) eq_refl).
      rewrite !score_empty in Hfirst. lia.
    + intros q _. subst trackGenres. apply score_empty.
Qed.

(** A run of the theorem: two profiles tied at zero on an empty genre
    list, the first one wins. *)
Lemma pickBestPlaylist_first_maximum_witness :
  tiedProfiles ≠ []
  ∧ nonNegativeWeights tiedProfiles
  ∧ pickBestPlaylist [] tiedProfiles = Some "A".
Proof.
  assert (Hpos : nonNegativeWeights tiedProfiles).
  { intros pid prof g w Hin Hg.
    unfold Object_entries, tiedProfiles in Hin.
    apply elem_of_cons in Hin as [Heq | Hin].
    - inversion Heq; subst.
      apply lookup_singleton_Some in Hg as [_ <-]. lia.
    - apply list_elem_of_singleton in Hin. inversion Hin; subst.
      apply lookup_singleton_Some in Hg as [_ <-]. lia. }
  split; [discriminate|]. split; [exact Hpos|].
  destruct (pickBestPlaylist_first_maximum [] tiedProfiles)
    as (i & pid & prof & Hi & Hres & _ & _ & Hempty);
    [discriminate | exact Hpos |].
  destruct (Hempty eq_refl) as [-> _].
  rewrite Hres. simpl in Hi. by inversion Hi.
Defined.

(** ** Running computations *)

Section Properties.
Context `{JsRuntime}.

Ltac io_unfold :=
  unfold mbind, IO_bind, mret, IO_ret, tell, gets, modify, throw in *.

(** [main] on a state file without a (truthy) watermark. *)
Lemma main_firstRun (w : World) :
  truthyOpt (lastProcessedAddedAt (loadedState (w_stateFile w))) = false →
  main w =
    {| res := Ok tt;
       world :=
         setStateFile
           (Json (initialState (w_stateFile w) (w_time w (w_tick w))))
           (setTick (S (w_tick w)) w);
       trace :=
         [EvReadState;
          EvWriteState
            (initialState (w_stateFile w) (w_time w (w_tick w)))] |}.
Proof.
  intros Hwm.
  unfold main, readState, firstRun, writeState, newDate, initialState,
    startState.
  destruct w as [env sf cf pls saved ag ti time tick fa]. simpl in *.
  io_unfold.
  destruct sf as [|raw|[wm rb]]; simpl in *.
  - reflexivity.
  - reflexivity.
  - destruct rb as [rb|]; simpl; rewrite Hwm; reflexivity.
Qed.

(** [main] on a state file with a watermark: one state read, then
    [incrementalRun], then, if that returned, one state write. *)
Lemma main_incremental (w : World) :
  truthyOpt (lastProcessedAddedAt (loadedState (w_stateFile w))) = true →
  main w =
    let o := incrementalRun (startState (w_stateFile w)) w in
    match res o with
    | Ok st =>
        {| res := Ok tt;
           world := setStateFile (Json st) (world o);
           trace := EvReadState :: trace o ++ [EvWriteState st] |}
    | Throw e =>
        {| res := Throw e; world := world o;
           trace := EvReadState :: trace o |}
    end.
Proof.
  intros Hwm. unfold main, readState, writeState, startState.
  generalize incrementalRun. intros run.
  destruct w as [env sf cf pls saved ag ti time tick fa]. simpl in *.
  io_unfold.
  destruct sf as [|raw|[wm rb]]; simpl in *; try discriminate.
  destruct rb as [rb|]; simpl; rewrite Hwm; simpl.
  - destruct (res (run _ _)); reflexivity.
  - destruct (res (run _ _)); reflexivity.
Qed.

Lemma bind_ok {A B} (m : IO A) (f : A → IO B) (w : World) (a : A) :
  res (m w) = Ok a →
  (m ≫= f) w =
    {| res := res (f a (world (m w)));
       world := world (f a (world (m w)));
       trace := trace (m w) ++ trace (f a (world (m w))) |}.
Proof. intros Hm. unfold mbind, IO_bind. by rewrite Hm. Qed.

Lemma bind_throw {A B} (m : IO A) (f : A → IO B) (w : World) (e : Error) :
  res (m w) = Throw e →
  (m ≫= f) w = {| res := Throw e; world := world (m w); trace := trace (m w) |}.
Proof. intros Hm. unfold mbind, IO_bind. by rewrite Hm. Qed.

(** ** Invariants of runs

    The rules below establish [maintains R T] for the whole program from
    what [R] and [T] say about the primitive steps. *)

Section Invariants.
Context (R : World → World → Prop) `{!PreOrder R} (T : Event → Prop).

Lemma maintains_ret {A} (Q : A → Prop) (a : A) :
  Q a → maintains R T Q (mret a).
Proof.
  intros Ha w. io_unfold. split; [|split]; simpl; [reflexivity | constructor |].
  by intros a' [= <-].
Qed.

Lemma maintains_throw {A} (Q : A → Prop) (e : Error) :
  maintains R T Q (throw e).
Proof.
  intros w. io_unfold.
  split; [|split]; simpl; [reflexivity | constructor | discriminate].
Qed.

Lemma maintains_gets {A} (f : World → A) :
  maintains R T (λ _, True) (gets f).
Proof.
  intros w. io_unfold.
  split; [|split]; simpl; [reflexivity | constructor | done].
Qed.

Lemma maintains_tell (ev : Event) :
  T ev → maintains R T (λ _, True) (tell ev).
Proof.
  intros Hev w. io_unfold. split; [|split]; simpl;
    [reflexivity | by repeat constructor | done].
Qed.

Lemma maintains_modify (f : World → World) :
  (∀ w, R w (f w)) → maintains R T (λ _, True) (modify f).
Proof.
  intros Hf w. io_unfold.
  split; [|split]; simpl; [apply Hf | constructor | done].
Qed.

Lemma maintains_bind {A B} (P : A → Prop) (Q : B → Prop)
  (m : IO A) (f : A → IO B) :
  maintains R T P m →
  (∀ a, P a → maintains R T Q (f a)) →
  maintains R T Q (m ≫= f).
Proof.
  intros Hm Hf w. destruct (Hm w) as (HR & HT & HP).
  destruct (res (m w)) as [a|e] eqn:Hres.
  - rewrite (bind_ok _ _ _ a Hres); simpl.
    destruct (Hf a (HP a eq_refl) (world (m w))) as (HR' & HT' & HQ).
    split; [by etrans|]. split; [by apply Forall_app|done].
  - rewrite (bind_throw _ _ _ e Hres); simpl.
    split; [done|]. split; [done | discriminate].
Qed.

Lemma maintains_seq {A B} (Q : B → Prop) (m : IO A) (f : A → IO B) :
  maintains R T (λ _, True) m →
  (∀ a, maintains R T Q (f a)) →
  maintains R T Q (m ≫= f).
Proof. intros Hm Hf. eapply maintains_bind; eauto. Qed.

Lemma maintains_weaken {A} (P Q : A → Prop) (m : IO A) :
  maintains R T P m → (∀ a, P a → Q a) → maintains R T Q m.
Proof.
  intros Hm HPQ w. destruct (Hm w) as (HR & HT & HP).
  split; [|split]; auto.
Qed.

Lemma maintains_forOf {A St} (I : St → Prop) (xs : list A)
  (body : A → St → IO St) :
  (∀ x s, I s → maintains R T I (body x s)) →
  ∀ s, I s → maintains R T I (forOf xs body s).
Proof.
  intros Hbody. induction xs as [|x xs IH]; intros s Hs; simpl.
  - by apply maintains_ret.
  - eapply maintains_bind; [by apply Hbody | apply IH].
Qed.

Lemma maintains_forOfBreak {A St} (xs : list A)
  (body : A → St → IO (LoopStep St)) :
  (∀ x s, maintains R T (λ _, True) (body x s)) →
  ∀ s, maintains R T (λ _, True) (forOfBreak xs body s).
Proof.
  intros Hbody. induction xs as [|x xs IH]; intros s; simpl.
  - by apply maintains_ret.
  - eapply maintains_seq; [apply Hbody|].
    intros [s'|s']; [apply IH | by apply maintains_ret].
Qed.

(** *** The primitive steps *)

Hypothesis R_tick : ∀ w n, R w (setTick n w).
Hypothesis R_cache : ∀ w f, R w (setCacheFile f w).
Hypothesis R_playlists : ∀ w p, R w (setPlaylists p w).
Hypothesis R_budget : ∀ w b, R w (setFailAfter b w).
Hypothesis T_read :
  ∀ ev,
    isWriteState ev = false → isAddTracks ev = false →
    (∀ item pid, ev ≠ EvRoute item pid) → T ev.
Hypothesis T_add : ∀ pid uris, T (EvAddTracks pid uris).

Ltac maintains_step :=
  match goal with
  | |- maintains _ _ _ (mret _) => by apply maintains_ret
  | |- maintains _ _ _ (throw _) => apply maintains_throw
  | |- maintains _ _ _ (gets _) => apply maintains_gets
  | |- maintains _ _ _ (tell _) => apply maintains_tell, T_read; done
  | |- maintains _ _ _ (modify _) => apply maintains_modify; by intros
  | |- maintains _ _ _ (_ ≫= _) => eapply maintains_seq; [|intros ?]
  | |- maintains _ _ _ (match ?x with _ => _ end) => destruct x
  end.

Lemma maintains_newDate : maintains R T (λ _, True) newDate.
Proof. unfold newDate. repeat maintains_step. Qed.

Lemma maintains_callWithRetry {A} (ev : Event) (fn : IO A) :
  T ev →
  maintains R T (λ _, True) fn →
  maintains R T (λ _, True) (callWithRetry ev fn).
Proof.
  intros Hev Hfn. unfold callWithRetry.
  eapply maintains_seq; [by apply maintains_tell|]. intros _.
  repeat maintains_step; done.
Qed.

Lemma maintains_getPlaylistSnapshot pid :
  maintains R T (λ _, True) (getPlaylistSnapshot pid).
Proof.
  apply maintains_callWithRetry; [by apply T_read|].
  unfold spotify_getPlaylist. repeat maintains_step.
Qed.

Lemma maintains_getPlaylistItemsPaginated pid limit offset :
  maintains R T (λ _, True) (getPlaylistItemsPaginated pid limit offset).
Proof.
  apply maintains_callWithRetry; [by apply T_read|].
  unfold spotify_getPlaylistTracks. repeat maintains_step.
Qed.

Lemma maintains_getSavedTracksPaginated limit offset :
  maintains R T (λ _, True) (getSavedTracksPaginated limit offset).
Proof.
  apply maintains_callWithRetry; [by apply T_read|].
  unfold spotify_getMySavedTracks. repeat maintains_step.
Qed.

Lemma maintains_getSeveralArtists ids :
  maintains R T (λ _, True) (getSeveralArtists ids).
Proof.
  apply maintains_callWithRetry; [by apply T_read|].
  unfold spotify_getArtists. repeat maintains_step.
Qed.

Lemma maintains_addTracks pid uris :
  maintains R T (λ _, True)
    (callWithRetry (EvAddTracks pid uris)
       (spotify_addTracksToPlaylist pid uris)).
Proof.
  apply maintains_callWithRetry; [apply T_add|].
  unfold spotify_addTracksToPlaylist.
  eapply maintains_seq; [apply maintains_gets|]. intros pls.
  destruct (pls !! pid); [|apply maintains_throw].
  destruct (mapM fromTrackUri uris); [|apply maintains_throw].
  repeat maintains_step.
Qed.

Lemma maintains_iteratePlaylistTracksFrom fuel pid offset :
  maintains R T (λ _, True) (iteratePlaylistTracksFrom fuel pid offset).
Proof.
  revert offset. induction fuel as [|fuel IH]; intros offset; simpl.
  - apply maintains_throw.
  - eapply maintains_seq; [apply maintains_getPlaylistItemsPaginated|].
    intros r. destruct (decide _); [by apply maintains_ret|].
    destruct (negb _); [by apply maintains_ret|].
    eapply maintains_seq; [apply IH|]. intros; by apply maintains_ret.
Qed.

Lemma maintains_iteratePlaylistTracks pid :
  maintains R T (λ _, True) (iteratePlaylistTracks pid).
Proof.
  unfold iteratePlaylistTracks.
  eapply maintains_seq; [apply maintains_gets|]. intros pls.
  apply maintains_iteratePlaylistTracksFrom.
Qed.

Lemma maintains_Cache_readFile : maintains R T (λ _, True) Cache_readFile.
Proof. unfold Cache_readFile. repeat maintains_step. Qed.

Lemma maintains_Cache_writeFile profiles :
  maintains R T (λ _, True) (Cache_writeFile profiles).
Proof. unfold Cache_writeFile. repeat maintains_step. Qed.

Lemma maintains_getCachedProfile pid snap :
  maintains R T (λ _, True) (getCachedProfile pid snap).
Proof.
  unfold getCachedProfile.
  eapply maintains_seq; [apply maintains_Cache_readFile|].
  intros; by apply maintains_ret.
Qed.

Lemma maintains_putCachedProfile entry :
  maintains R T (λ _, True) (putCachedProfile entry).
Proof.
  unfold putCachedProfile.
  eapply maintains_seq; [apply maintains_Cache_readFile|]. intros profiles.
  destruct (findIndex _ _); apply maintains_Cache_writeFile.
Qed.

Lemma maintains_readState : maintains R T (λ _, True) readState.
Proof. unfold readState. repeat maintains_step. Qed.

Lemma maintains_getPlaylistTrackIdsSet pid :
  maintains R T (λ _, True) (getPlaylistTrackIdsSet pid).
Proof.
  unfold getPlaylistTrackIdsSet.
  eapply maintains_seq; [apply maintains_iteratePlaylistTracks|].
  intros; by apply maintains_ret.
Qed.

Lemma maintains_addTracksToPlaylistIfMissing pid trackIds :
  maintains R T (λ _, True) (addTracksToPlaylistIfMissing pid trackIds).
Proof.
  unfold addTracksToPlaylistIfMissing.
  eapply maintains_seq; [apply maintains_getPlaylistTrackIdsSet|].
  intros existing. destruct (decide _); [by apply maintains_ret|].
  eapply maintains_seq; [|intros; by apply maintains_ret].
  apply (maintains_forOf (λ _, True)); [|done].
  intros slice [] _. apply maintains_addTracks.
Qed.

Lemma maintains_buildPlaylistGenreProfile pid :
  maintains R T (λ _, True) (buildPlaylistGenreProfile pid).
Proof.
  unfold buildPlaylistGenreProfile.
  eapply maintains_seq; [apply maintains_getPlaylistSnapshot|]. intros snap.
  eapply maintains_seq; [apply maintains_getCachedProfile|]. intros cached.
  destruct cached as [c|]; [by apply maintains_ret|].
  eapply maintains_seq; [apply maintains_iteratePlaylistTracks|].
  intros tracks.
  eapply maintains_seq.
  { apply (maintains_forOf (λ _, True)); [|done].
    intros batch counts _.
    eapply maintains_seq; [apply maintains_getSeveralArtists|].
    intros; by apply maintains_ret. }
  intros counts.
  eapply maintains_seq; [apply maintains_newDate|]. intros now.
  eapply maintains_seq; [apply maintains_putCachedProfile|].
  intros; by apply maintains_ret.
Qed.

Lemma maintains_shouldRebuildProfile last :
  maintains R T (λ _, True) (shouldRebuildProfile last).
Proof.
  unfold shouldRebuildProfile.
  destruct last as [l|]; [|by apply maintains_ret].
  destruct (truthy l); [|by apply maintains_ret].
  eapply maintains_seq; [apply maintains_newDate|]. intros now.
  eapply maintains_seq; [apply maintains_gets|].
  intros; by apply maintains_ret.
Qed.

Lemma maintains_buildProfiles state targets :
  maintains R T (λ _, True) (buildProfiles state targets).
Proof.
  unfold buildProfiles.
  apply (maintains_forOf (λ _, True)); [|done].
  intros pid [profiles updated] _.
  eapply maintains_seq; [apply maintains_shouldRebuildProfile|].
  intros [|].
  - eapply maintains_seq; [apply maintains_buildPlaylistGenreProfile|].
    intros prof.
    eapply maintains_seq; [apply maintains_newDate|].
    intros; by apply maintains_ret.
  - eapply maintains_seq; [apply maintains_buildPlaylistGenreProfile|].
    intros; by apply maintains_ret.
Qed.

Lemma maintains_trackGenresOf track :
  maintains R T (λ _, True) (trackGenresOf track).
Proof.
  unfold trackGenresOf.
  apply (maintains_forOf (λ _, True)); [|done].
  intros batch genres _.
  eapply maintains_seq; [apply maintains_getSeveralArtists|].
  intros; by apply maintains_ret.
Qed.

Lemma maintains_writePlaylists byPlaylist :
  maintains R T (λ _, True) (writePlaylists byPlaylist).
Proof.
  unfold writePlaylists.
  apply (maintains_forOf (λ _, True)); [|done].
  intros [pid ids] [] _.
  destruct (decide _); [by apply maintains_ret|].
  eapply maintains_seq; [apply maintains_addTracksToPlaylistIfMissing|].
  intros; by apply maintains_ret.
Qed.

(** The loop over the liked tracks: a track is routed only past the
    watermark test. *)
Lemma maintains_routeItem state targets profiles item acc :
  (∀ pid,
     truthyOpt (lastProcessedAddedAt state)
       && leOpt (added_at item) (lastProcessedAddedAt state) = false →
     T (EvRoute item pid)) →
  maintains R T (λ _, True) (routeItem state targets profiles item acc).
Proof.
  intros Hroute. unfold routeItem. destruct acc as [byPlaylist newest].
  destruct (truthyOpt (lastProcessedAddedAt state)
            && leOpt (added_at item) (lastProcessedAddedAt state)) eqn:Hcut.
  - by apply maintains_ret.
  - eapply maintains_seq; [apply maintains_trackGenresOf|]. intros gs.
    eapply maintains_seq; [apply maintains_tell, Hroute; done|].
    intros; by apply maintains_ret.
Qed.

Lemma maintains_forAwaitSavedTracksFrom {St} fuel offset
  (body : SavedTrackItem → St → IO (LoopStep St)) s :
  (∀ x s, maintains R T (λ _, True) (body x s)) →
  maintains R T (λ _, True) (forAwaitSavedTracksFrom fuel offset body s).
Proof.
  intros Hbody. revert offset s.
  induction fuel as [|fuel IH]; intros offset s; simpl.
  - apply maintains_throw.
  - eapply maintains_seq; [apply maintains_getSavedTracksPaginated|].
    intros r. destruct (decide _); [by apply maintains_ret|].
    eapply maintains_seq; [by apply maintains_forOfBreak|].
    intros [s'|s']; [|by apply maintains_ret].
    destruct (negb _); [by apply maintains_ret | apply IH].
Qed.

Lemma maintains_forAwaitSavedTracks {St}
  (body : SavedTrackItem → St → IO (LoopStep St)) s :
  (∀ x s, maintains R T (λ _, True) (body x s)) →
  maintains R T (λ _, True) (forAwaitSavedTracks body s).
Proof.
  intros Hbody. unfold forAwaitSavedTracks.
  eapply maintains_seq; [apply maintains_gets|]. intros saved.
  by apply maintains_forAwaitSavedTracksFrom.
Qed.

(** [incrementalRun]: besides the invariant, the watermark it returns is
    the one of [state] or a strictly greater one. *)
Lemma maintains_incrementalRun state :
  (∀ item pid,
     truthyOpt (lastProcessedAddedAt state)
       && leOpt (added_at item) (lastProcessedAddedAt state) = false →
     T (EvRoute item pid)) →
  maintains R T
    (λ st',
       lastProcessedAddedAt st' = lastProcessedAddedAt state
       ∨ ∃ n, lastProcessedAddedAt st' = Some n
              ∧ gtOpt n (lastProcessedAddedAt state) = true)
    (incrementalRun state).
Proof.
  intros Hroute. unfold incrementalRun.
  eapply maintains_seq; [apply maintains_gets|]. intros env.
  destruct (decide _); [apply maintains_throw|].
  eapply maintains_seq; [apply maintains_buildProfiles|].
  intros [profiles updated].
  eapply maintains_seq.
  { apply maintains_forAwaitSavedTracks. intros item acc.
    apply maintains_routeItem. intros pid. apply Hroute. }
  intros [byPlaylist newest].
  eapply maintains_seq; [apply maintains_writePlaylists|]. intros _.
  apply maintains_ret; simpl.
  destruct newest as [nw|]; [|by left].
  destruct (truthy nw && gtOpt nw (lastProcessedAddedAt state)) eqn:Hgt;
    [|by left].
  right. exists nw. split; [done|]. by apply andb_true_iff in Hgt as [_ ?].
Qed.

End Invariants.

(** ** The orchestrator *)

#[local] Instance sameStateFile_preorder : PreOrder sameStateFile.
Proof.
  split; [by intros w | intros w1 w2 w3; unfold sameStateFile; congruence].
Qed.

#[local] Instance anyWorld_preorder : PreOrder (λ _ _ : World, True).
Proof. by split. Qed.

(** C5. On a first-ever run (no watermark in the loaded state; an empty
    one is treated alike) the orchestrator sets the watermark to the
    current time, persists the state and stops: the run performs exactly
    one state read and one state write, routes no track, issues no
    catalog request and leaves every playlist as it was. *)
Theorem first_run_sets_watermark_and_stops (w : World) :
  truthyOpt (lastProcessedAddedAt (loadedState (w_stateFile w))) = false →
  let now := w_time w (w_tick w) in
  res (main w) = Ok tt
  ∧ w_stateFile (world (main w)) = Json (initialState (w_stateFile w) now)
  ∧ lastProcessedAddedAt (initialState (w_stateFile w) now)
    = Some (toISOString now)
  ∧ trace (main w)
    = [EvReadState; EvWriteState (initialState (w_stateFile w) now)]
  ∧ routedItems (trace (main w)) = []
  ∧ Forall (λ ev, isCatalogCall ev = false) (trace (main w))
  ∧ w_playlists (world (main w)) = w_playlists w.
Proof.
  intros Hwm now. rewrite (main_firstRun w Hwm). simpl.
  repeat split; auto.
Qed.

(** C10. [readState] never throws: it always returns a state, after one
    read and without changing anything; when the state file cannot be
    read or is not JSON it returns the empty default state, so that the
    watermark is lost without any error and [main] takes the first-run
    path. *)
Theorem readState_never_throws :
  (∀ w, ∃ s,
     readState w = {| res := Ok s; world := w; trace := [EvReadState] |})
  ∧ (∀ w,
       (w_stateFile w = NoFile ∨ ∃ raw, w_stateFile w = NotJson raw) →
       res (readState w) = Ok emptyState
       ∧ res (main w) = Ok tt
       ∧ trace (main w)
         = [EvReadState;
            EvWriteState
              {| lastProcessedAddedAt :=
                   Some (toISOString (w_time w (w_tick w)));
                 lastProfileRebuildTime := Some ∅ |}]).
Proof.
  split.
  - intros w. unfold readState. io_unfold. simpl.
    destruct (w_stateFile w); eauto.
  - intros w Hfile.
    assert (Hload : loadedState (w_stateFile w) = emptyState)
      by (destruct Hfile as [-> | [raw ->]]; reflexivity).
    split.
    + unfold readState. io_unfold. simpl.
      by destruct Hfile as [-> | [raw ->]].
    + rewrite main_firstRun by (by rewrite Hload). simpl.
      unfold initialState, startState. rewrite Hload. auto.
Qed.

(** C4, as the code has it.  When no target playlist is resolvable from
    the configuration: a run that finds a watermark fails with the
    configuration error after exactly one state read, before any catalog
    request, cache access or state write, and leaves the world as it was;
    a run that finds no watermark never consults the configuration and
    completes the first-run initialisation. *)
Theorem no_targets_error_follows_state_read (w : World) :
  getTargetPlaylistIds (w_env w) = [] →
  (truthyOpt (lastProcessedAddedAt (loadedState (w_stateFile w))) = true →
   main w = {| res := Throw ConfigurationError; world := w;
               trace := [EvReadState] |})
  ∧ (truthyOpt (lastProcessedAddedAt (loadedState (w_stateFile w))) = false →
     res (main w) = Ok tt
     ∧ trace (main w)
       = [EvReadState;
          EvWriteState (initialState (w_stateFile w) (w_time w (w_tick w)))]).
Proof.
  intros Hnone. split; intros Hwm.
  - rewrite (main_incremental w Hwm).
    unfold incrementalRun. io_unfold. simpl. rewrite Hnone. reflexivity.
  - rewrite (main_firstRun w Hwm). auto.
Qed.

(** C6. A run that aborts (with any failure: configuration, or a catalog
    request failing while profiles are rebuilt, likes are streamed and
    routed, or playlists are written) performs no state write and leaves
    the state file exactly as it was at the start of the run: neither the
    watermark nor a rebuild time has advanced. *)
Theorem aborted_run_leaves_state (w : World) (e : Error) :
  res (main w) = Throw e →
  w_stateFile (world (main w)) = w_stateFile w
  ∧ Forall (λ ev, isWriteState ev = false) (trace (main w)).
Proof.
  intros Hthrow.
  destruct (truthyOpt (lastProcessedAddedAt (loadedState (w_stateFile w))))
    eqn:Hwm.
  - rewrite (main_incremental w Hwm) in *. cbv zeta in *.
    destruct
      (maintains_incrementalRun sameStateFile (λ ev, isWriteState ev = false)
         ltac:(done) ltac:(done) ltac:(done) ltac:(done)
         ltac:(by intros) ltac:(done)
         (startState (w_stateFile w))
         ltac:(done) w) as (HR & HT & _).
    destruct (res (incrementalRun (startState (w_stateFile w)) w));
      simpl in *; [discriminate|].
    split; [done|]. by constructor.
  - rewrite (main_firstRun w Hwm) in Hthrow. discriminate.
Qed.

(** *** The watermark *)

Lemma string_le_empty (s : string) : ("" ≤ s)%string.
Proof. by destruct s. Qed.

Lemma string_ltb_le (a b : string) :
  String.ltb a b = true → (a ≤ b)%string.
Proof.
  unfold String.le, String.leb, String.ltb.
  by destruct (String.compare a b).
Qed.

Lemma string_leb_false (a b : string) :
  String.leb a b = false → ¬ (a ≤ b)%string.
Proof. unfold String.le. intros Hf Hle. by rewrite Hf in Hle. Qed.

Lemma falsy_watermark (f : FileContent State) :
  truthyOpt (lastProcessedAddedAt (loadedState f)) = false →
  watermarkOf f = "".
Proof.
  unfold watermarkOf. destruct (lastProcessedAddedAt _) as [s|]; simpl; [|done].
  unfold truthy. destruct (String.eqb_spec s ""); [done | discriminate].
Qed.

Lemma startState_watermark (f : FileContent State) :
  lastProcessedAddedAt (startState f) = lastProcessedAddedAt (loadedState f).
Proof.
  unfold startState. by destruct (lastProfileRebuildTime (loadedState f)).
Qed.

Lemma routedItems_app (t1 t2 : list Event) :
  routedItems (t1 ++ t2) = routedItems t1 ++ routedItems t2.
Proof. apply omap_app. Qed.

Lemma routedItems_Forall (P : SavedTrackItem → Prop) (t : list Event) :
  Forall (λ ev, ∀ item pid, ev = EvRoute item pid → P item) t →
  Forall P (routedItems t).
Proof.
  induction 1 as [|ev t Hev _ IH]; [constructor|].
  unfold routedItems in *. destruct ev; simpl; try done.
  constructor; [by eapply Hev | done].
Qed.

(** One successful run: the watermark stays or grows strictly, and every
    track the run routes was liked strictly after the watermark the run
    started from. *)
Lemma run_advances_watermark (w : World) :
  res (main w) = Ok tt →
  (watermarkOf (w_stateFile (world (main w))) = watermarkOf (w_stateFile w)
   ∨ String.ltb (watermarkOf (w_stateFile w))
       (watermarkOf (w_stateFile (world (main w)))) = true)
  ∧ Forall (λ item,
              String.leb (added_at item) (watermarkOf (w_stateFile w)) = false)
      (routedItems (trace (main w))).
Proof.
  intros Hok.
  destruct (truthyOpt (lastProcessedAddedAt (loadedState (w_stateFile w))))
    eqn:Hwm.
  - rewrite (main_incremental w Hwm) in *. cbv zeta in *.
    set (wm := watermarkOf (w_stateFile w)).
    assert (Hstart : lastProcessedAddedAt (startState (w_stateFile w))
                     = Some wm).
    { rewrite startState_watermark. unfold wm, watermarkOf.
      by destruct (lastProcessedAddedAt _). }
    destruct
      (maintains_incrementalRun (λ _ _, True)
         (λ ev, ∀ item pid, ev = EvRoute item pid →
                  String.leb (added_at item) wm = false)
         ltac:(done) ltac:(done) ltac:(done) ltac:(done)
         ltac:(by intros ev _ _ Hne item pid ->; destruct (Hne item pid))
         ltac:(done)
         (startState (w_stateFile w))) with (w := w) as (_ & HT & HQ).
    { intros item pid Hcut item' pid' [= <- <-].
      rewrite Hstart in Hcut. simpl in Hcut.
      rewrite startState_watermark in Hstart.
      rewrite Hstart in Hwm. simpl in Hwm. by rewrite Hwm in Hcut. }
    destruct (res (incrementalRun (startState (w_stateFile w)) w))
      as [st|e'] eqn:Hres; simpl in Hok |- *; [|discriminate].
    split.
    + specialize (HQ st eq_refl). rewrite Hstart in HQ.
      change (watermarkOf (Json st))
        with (default "" (lastProcessedAddedAt st)).
      destruct HQ as [-> | (n & -> & Hgt)]; [by left | by right].
    + rewrite routedItems_app. apply Forall_app. split.
      * by apply routedItems_Forall.
      * constructor.
  - rewrite (main_firstRun w Hwm). simpl. split; [|constructor].
    rewrite (falsy_watermark _ Hwm).
    unfold watermarkOf. simpl.
    destruct (toISOString _); [by left | by right].
Qed.

(** The state files along consecutive successful runs. *)
Lemma consecutiveRuns_step (envs : list World) :
  ∀ (f : FileContent State) (fs : list (FileContent State)),
    consecutiveRuns envs f = Some fs →
    ∀ k env a,
      envs !! k = Some env → (f :: fs) !! k = Some a →
      res (main (setStateFile a env)) = Ok tt
      ∧ (f :: fs) !! S k
        = Some (w_stateFile (world (main (setStateFile a env)))).
Proof.
  induction envs as [|env0 envs IH]; intros f fs Hruns k env a Henv Ha.
  - by destruct k.
  - simpl in Hruns.
    destruct (res (main (setStateFile f env0))) as [[]|e] eqn:Hres;
      [|discriminate].
    destruct (consecutiveRuns envs _) as [fs'|] eqn:Hrest; [|discriminate].
    simpl in Hruns. injection Hruns as <-.
    destruct k as [|k]; simpl in *.
    + injection Henv as <-. injection Ha as <-. by split.
    + by apply (IH _ _ Hrest k env a).
Qed.

Lemma consecutiveRuns_length (envs : list World) :
  ∀ (f : FileContent State) (fs : list (FileContent State)),
    consecutiveRuns envs f = Some fs → length fs = length envs.
Proof.
  induction envs as [|env0 envs IH]; intros f fs Hruns; simpl in Hruns.
  - by injection Hruns as <-.
  - destruct (res (main (setStateFile f env0))); [|discriminate].
    destruct (consecutiveRuns envs _) as [fs'|] eqn:Hrest; [|discriminate].
    simpl in Hruns. injection Hruns as <-. simpl. f_equal. by eapply IH.
Qed.

Lemma setStateFile_stateFile (f : FileContent State) (w : World) :
  w_stateFile (setStateFile f w) = f.
Proof. reflexivity. Qed.

Lemma consecutiveRuns_adjacent (envs : list World) f fs k a b :
  consecutiveRuns envs f = Some fs →
  (f :: fs) !! k = Some a → (f :: fs) !! S k = Some b →
  watermarkOf b = watermarkOf a
  ∨ String.ltb (watermarkOf a) (watermarkOf b) = true.
Proof.
  intros Hruns Ha Hb.
  assert (Hk : k < length envs).
  { apply lookup_lt_Some in Hb. simpl in Hb.
    rewrite (consecutiveRuns_length _ _ _ Hruns) in Hb. lia. }
  destruct (lookup_lt_is_Some_2 envs k Hk) as [env Henv].
  destruct (consecutiveRuns_step _ _ _ Hruns k env a Henv Ha) as [Hok Hnext].
  rewrite Hnext in Hb. injection Hb as <-.
  destruct (run_advances_watermark _ Hok) as [Hadv _].
  by rewrite setStateFile_stateFile in Hadv.
Qed.

Lemma consecutiveRuns_monotone (envs : list World) f fs :
  consecutiveRuns envs f = Some fs →
  ∀ j i a b,
    i ≤ j → (f :: fs) !! i = Some a → (f :: fs) !! j = Some b →
    (watermarkOf a ≤ watermarkOf b)%string.
Proof.
  intros Hruns. induction j as [|j IH]; intros i a b Hij Ha Hb.
  - assert (i = 0) as -> by lia. rewrite Ha in Hb. by injection Hb as <-.
  - destruct (decide (i = S j)) as [->|Hne].
    + rewrite Ha in Hb. by injection Hb as <-.
    + assert (Hj : is_Some ((f :: fs) !! j)).
      { apply lookup_lt_is_Some. apply lookup_lt_Some in Hb. lia. }
      destruct Hj as [c Hc].
      trans (watermarkOf c); [apply (IH i a c); [lia | done..]|].
      destruct (consecutiveRuns_adjacent _ _ _ _ _ _ Hruns Hc Hb) as [->|Hlt];
        [done | by apply string_ltb_le].
Qed.

(** ** Independence of the fault budget *)

Lemma bind_run {A B} (m : IO A) (f : A → IO B) (w w1 : World) (a : A)
  (t1 : list Event) :
  m w = {| res := Ok a; world := w1; trace := t1 |} →
  (m ≫= f) w = prefixed t1 (f a w1).
Proof. intros Hm. unfold mbind, IO_bind, prefixed. by rewrite Hm. Qed.

Lemma callWithRetry_run {A} (ev : Event) (fn : IO A) (w : World) :
  callWithRetry ev fn w =
    match w_failAfter w with
    | Some O => {| res := Throw CatalogError; world := w; trace := [ev] |}
    | Some (S n) => prefixed [ev] (fn (setFailAfter (Some n) w))
    | None => prefixed [ev] (fn w)
    end.
Proof.
  unfold callWithRetry, prefixed. io_unfold. simpl.
  destruct (w_failAfter w) as [[|n]|]; simpl; [done| |].
  - by destruct (res (fn _)).
  - by destruct (res (fn _)).
Qed.

Lemma robust_ret {A} (a : A) : robust (mret a).
Proof. intros w a' Hres. io_unfold. simpl in *. auto. Qed.

Lemma robust_throw {A} (e : Error) : robust (throw e : IO A).
Proof. intros w a Hres. discriminate. Qed.

Lemma robust_tell (ev : Event) : robust (tell ev).
Proof. intros w a Hres. io_unfold. simpl in *. auto. Qed.

Lemma robust_gets {A} (f : World → A) :
  (∀ w, f (reliable w) = f w) → robust (gets f).
Proof.
  intros Hf w a Hres. io_unfold. simpl in *. rewrite Hf. auto.
Qed.

Lemma robust_modify (f : World → World) :
  (∀ w, f (reliable w) = reliable (f w)) → robust (modify f).
Proof. intros Hf w a Hres. io_unfold. simpl in *. rewrite Hf. auto. Qed.

Lemma robust_bind {A B} (m : IO A) (f : A → IO B) :
  robust m → (∀ a, robust (f a)) → robust (m ≫= f).
Proof.
  intros Hm Hf w b Hres.
  destruct (res (m w)) as [a|e] eqn:Hmw.
  - rewrite (bind_ok _ _ _ a Hmw) in Hres |- *. simpl in Hres.
    destruct (Hm w a Hmw) as (Hr & Ht & Hw).
    rewrite (bind_ok _ _ _ a Hr). simpl. rewrite Hw, Ht.
    destruct (Hf a _ b Hres) as (Hr' & Ht' & Hw').
    by rewrite Hr', Ht', Hw'.
  - rewrite (bind_throw _ _ _ e Hmw) in Hres. discriminate.
Qed.

Lemma robust_callWithRetry {A} (ev : Event) (fn : IO A) :
  robust fn → robust (callWithRetry ev fn).
Proof.
  intros Hfn w a Hres.
  rewrite (callWithRetry_run ev fn w) in Hres |- *.
  rewrite (callWithRetry_run ev fn (reliable w)).
  change (w_failAfter (reliable w)) with (@None nat).
  destruct (w_failAfter w) as [[|n]|]; simpl in *; [discriminate| |].
  - destruct (Hfn _ a Hres) as (Hr & Ht & Hw).
    change (reliable (setFailAfter (Some n) w)) with (reliable w) in *.
    by rewrite Hr, Ht, Hw.
  - destruct (Hfn _ a Hres) as (Hr & Ht & Hw). by rewrite Hr, Ht, Hw.
Qed.

Lemma robust_forOf {A St} (xs : list A) (body : A → St → IO St) :
  (∀ x s, robust (body x s)) → ∀ s, robust (forOf xs body s).
Proof.
  intros Hbody. induction xs as [|x xs IH]; intros s; simpl.
  - apply robust_ret.
  - apply robust_bind; [apply Hbody | apply IH].
Qed.

Ltac robust_step :=
  match goal with
  | |- robust (mret _) => apply robust_ret
  | |- robust (throw _) => apply robust_throw
  | |- robust (gets _) => apply robust_gets; done
  | |- robust (tell _) => apply robust_tell
  | |- robust (modify _) => apply robust_modify; done
  | |- robust (callWithRetry _ _) => apply robust_callWithRetry
  | |- robust (_ ≫= _) => apply robust_bind; [|intros ?]
  | |- robust (match ?x with _ => _ end) => destruct x
  end.

Lemma robust_newDate : robust newDate.
Proof. unfold newDate. repeat robust_step. Qed.

Lemma robust_getPlaylistSnapshot pid : robust (getPlaylistSnapshot pid).
Proof.
  unfold getPlaylistSnapshot, spotify_getPlaylist. repeat robust_step.
Qed.

Lemma robust_getPlaylistItemsPaginated pid limit offset :
  robust (getPlaylistItemsPaginated pid limit offset).
Proof.
  unfold getPlaylistItemsPaginated, spotify_getPlaylistTracks.
  repeat robust_step.
Qed.

Lemma robust_getSeveralArtists ids : robust (getSeveralArtists ids).
Proof. unfold getSeveralArtists, spotify_getArtists. repeat robust_step. Qed.

Lemma robust_addTracks pid uris :
  robust (callWithRetry (EvAddTracks pid uris)
            (spotify_addTracksToPlaylist pid uris)).
Proof.
  unfold spotify_addTracksToPlaylist.
  apply robust_callWithRetry, robust_bind; [by apply robust_gets|].
  intros pls. destruct (pls !! pid); [|apply robust_throw].
  destruct (mapM fromTrackUri uris); [|apply robust_throw].
  repeat robust_step.
Qed.

Lemma robust_iteratePlaylistTracksFrom fuel pid offset :
  robust (iteratePlaylistTracksFrom fuel pid offset).
Proof.
  revert offset. induction fuel as [|fuel IH]; intros offset; simpl.
  - apply robust_throw.
  - apply robust_bind; [apply robust_getPlaylistItemsPaginated|].
    intros r. destruct (decide _); [apply robust_ret|].
    destruct (negb _); [apply robust_ret|].
    apply robust_bind; [apply IH | intros; apply robust_ret].
Qed.

Lemma robust_iteratePlaylistTracks pid : robust (iteratePlaylistTracks pid).
Proof.
  unfold iteratePlaylistTracks.
  apply robust_bind; [by apply robust_gets|]. intros pls.
  apply robust_iteratePlaylistTracksFrom.
Qed.

Lemma robust_Cache_readFile : robust Cache_readFile.
Proof. unfold Cache_readFile. repeat robust_step. Qed.

Lemma robust_Cache_writeFile profiles : robust (Cache_writeFile profiles).
Proof. unfold Cache_writeFile. repeat robust_step. Qed.

Lemma robust_getCachedProfile pid snap : robust (getCachedProfile pid snap).
Proof.
  unfold getCachedProfile.
  apply robust_bind; [apply robust_Cache_readFile | intros; apply robust_ret].
Qed.

Lemma robust_putCachedProfile entry : robust (putCachedProfile entry).
Proof.
  unfold putCachedProfile.
  apply robust_bind; [apply robust_Cache_readFile|]. intros profiles.
  destruct (findIndex _ _); apply robust_Cache_writeFile.
Qed.

Lemma robust_getPlaylistTrackIdsSet pid : robust (getPlaylistTrackIdsSet pid).
Proof.
  unfold getPlaylistTrackIdsSet.
  apply robust_bind; [apply robust_iteratePlaylistTracks|].
  intros; apply robust_ret.
Qed.

Lemma robust_addTracksToPlaylistIfMissing pid trackIds :
  robust (addTracksToPlaylistIfMissing pid trackIds).
Proof.
  unfold addTracksToPlaylistIfMissing.
  apply robust_bind; [apply robust_getPlaylistTrackIdsSet|].
  intros existing. destruct (decide _); [apply robust_ret|].
  apply robust_bind; [|intros; apply robust_ret].
  apply robust_forOf. intros slice []. apply robust_addTracks.
Qed.

Lemma robust_buildPlaylistGenreProfile pid :
  robust (buildPlaylistGenreProfile pid).
Proof.
  unfold buildPlaylistGenreProfile.
  apply robust_bind; [apply robust_getPlaylistSnapshot|]. intros snap.
  apply robust_bind; [apply robust_getCachedProfile|]. intros cached.
  destruct cached as [c|]; [apply robust_ret|].
  apply robust_bind; [apply robust_iteratePlaylistTracks|]. intros tracks.
  apply robust_bind.
  { apply robust_forOf. intros batch counts.
    apply robust_bind; [apply robust_getSeveralArtists|].
    intros; apply robust_ret. }
  intros counts.
  apply robust_bind; [apply robust_newDate|]. intros now.
  apply robust_bind; [apply robust_putCachedProfile|].
  intros; apply robust_ret.
Qed.

(** ** Runs against a catalog that never fails *)

Lemma callWithRetry_reliable {A} (ev : Event) (fn : IO A) (w : World) :
  w_failAfter w = None → callWithRetry ev fn w = prefixed [ev] (fn w).
Proof. intros Hw. by rewrite callWithRetry_run, Hw. Qed.

Lemma slicesFrom_concat {A} (size : nat) (xs : list A) :
  0 < size →
  ∀ fuel i,
    length xs - i ≤ fuel → concat (slicesFrom fuel size i xs) = drop i xs.
Proof.
  intros Hsize. induction fuel as [|fuel IH]; intros i Hfuel; simpl.
  - symmetry. apply drop_ge. lia.
  - destruct (decide (i < length xs)) as [Hlt|Hge]; simpl.
    + rewrite IH by lia.
      rewrite <- (take_drop size (drop i xs)) at 2.
      by rewrite drop_drop.
    + symmetry. apply drop_ge. lia.
Qed.

(** The slices of a [for] loop over an array cover it, in order. *)
Lemma slices_concat {A} (size : nat) (xs : list A) :
  0 < size → concat (slices size xs) = xs.
Proof.
  intros Hsize. unfold slices. rewrite slicesFrom_concat by lia. done.
Qed.

Lemma iteratePlaylistTracksFrom_reliable (w : World) (pid : string)
  (pl : Playlist) :
  w_failAfter w = None →
  w_playlists w !! pid = Some pl →
  ∀ fuel offset,
    length (playlist_items pl) - offset < fuel →
    iteratePlaylistTracksFrom fuel pid offset w =
      {| res := Ok (yieldedTracks (drop offset (playlist_items pl)));
         world := w;
         trace := map (EvGetPlaylistTracks pid)
                    (pageOffsets fuel offset (length (playlist_items pl))) |}.
Proof.
  intros Hrel Hpl. induction fuel as [|fuel IH]; intros offset Hfuel;
    [lia|].
  simpl iteratePlaylistTracksFrom.
  assert (Hpage :
    getPlaylistItemsPaginated pid 50 offset w =
      {| res := Ok (page 50 offset (playlist_items pl)); world := w;
         trace := [EvGetPlaylistTracks pid offset] |}).
  { unfold getPlaylistItemsPaginated.
    rewrite callWithRetry_reliable by done.
    unfold spotify_getPlaylistTracks, prefixed. io_unfold. simpl.
    by rewrite Hpl. }
  rewrite (bind_run _ _ _ _ _ _ Hpage). simpl.
  destruct (decide (length (take 50 (drop offset (playlist_items pl))) = 0))
    as [Hempty|Hnonempty].
  - rewrite length_take, length_drop in Hempty.
    destruct (decide (offset + 50 < length (playlist_items pl))); [lia|].
    rewrite drop_ge by lia. reflexivity.
  - destruct (decide (offset + 50 < length (playlist_items pl)))
      as [Hnext|Hlast].
    + rewrite bool_decide_true by done. simpl.
      assert (Hlen : length (take 50 (drop offset (playlist_items pl))) = 50)
        by (rewrite length_take, length_drop; lia).
      rewrite Hlen.
      rewrite (bind_run _ _ _ _ _ _ (IH (offset + 50) ltac:(lia))).
      unfold prefixed. io_unfold. simpl. rewrite app_nil_r.
      f_equal. f_equal.
      unfold yieldedTracks. rewrite <- omap_app. f_equal.
      rewrite <- drop_drop. apply take_drop.
    + rewrite bool_decide_false by done. simpl.
      unfold prefixed. io_unfold. simpl. f_equal. f_equal.
      rewrite take_ge; [done|]. rewrite length_drop. lia.
Qed.

Lemma iteratePlaylistTracks_reliable (w : World) (pid : string)
  (pl : Playlist) :
  w_failAfter w = None →
  w_playlists w !! pid = Some pl →
  iteratePlaylistTracks pid w =
    {| res := Ok (yieldedTracks (playlist_items pl)); world := w;
       trace := enumerationEvents pid pl |}.
Proof.
  intros Hrel Hpl. unfold iteratePlaylistTracks.
  rewrite (bind_run (gets w_playlists) _ w w (w_playlists w) []) by done.
  cbv beta. rewrite Hpl. unfold from_option.
  rewrite (iteratePlaylistTracksFrom_reliable w pid pl Hrel Hpl) by lia.
  reflexivity.
Qed.

Lemma getSeveralArtists_reliable (w : World) (ids : list string) :
  w_failAfter w = None →
  getSeveralArtists ids w =
    {| res := Ok (map (artistOf w) ids); world := w;
       trace := [EvGetArtists ids] |}.
Proof.
  intros Hrel. unfold getSeveralArtists.
  by rewrite callWithRetry_reliable.
Qed.

(** A loop that asks the catalog about each batch and folds the answers. *)
Lemma forOf_artists_reliable {St} (w : World)
  (step : list ArtistObjectFull → St → St) :
  w_failAfter w = None →
  ∀ (batches : list (list string)) (s : St),
    forOf batches
      (λ batch s, artists ← getSeveralArtists batch; mret (step artists s))
      s w =
      {| res := Ok (foldl (λ s batch, step (map (artistOf w) batch) s)
                      s batches);
         world := w;
         trace := map EvGetArtists batches |}.
Proof.
  intros Hrel. induction batches as [|batch batches IH]; intros s; simpl.
  - reflexivity.
  - erewrite bind_run; cycle 1.
    { erewrite bind_run by (by apply getSeveralArtists_reliable).
      reflexivity. }
    simpl. rewrite IH. reflexivity.
Qed.

(** ** The profile builder *)

Lemma getPlaylistSnapshot_run (w : World) (pid : string) (pl : Playlist) :
  w_playlists w !! pid = Some pl →
  getPlaylistSnapshot pid w =
    let snap := {| snap_snapshotId := snapshot_id pl;
                   snap_tracksTotal := Some (length (playlist_items pl)) |} in
    match w_failAfter w with
    | Some O =>
        {| res := Throw CatalogError; world := w;
           trace := [EvGetPlaylist pid] |}
    | Some (S n) =>
        {| res := Ok snap; world := setFailAfter (Some n) w;
           trace := [EvGetPlaylist pid] |}
    | None => {| res := Ok snap; world := w; trace := [EvGetPlaylist pid] |}
    end.
Proof.
  intros Hpl. unfold getPlaylistSnapshot. rewrite callWithRetry_run.
  unfold spotify_getPlaylist, prefixed. io_unfold. simpl.
  destruct (w_failAfter w) as [[|n]|]; simpl; by rewrite ?Hpl.
Qed.

Lemma Cache_readFile_run (w : World) :
  Cache_readFile w =
    {| res := Ok (cachedProfiles w); world := w; trace := [EvReadCache] |}.
Proof.
  unfold Cache_readFile, cachedProfiles. io_unfold. simpl.
  by destruct (w_cacheFile w).
Qed.

Lemma getCachedProfile_run (w : World) (pid snap : string) :
  getCachedProfile pid snap w =
    {| res := Ok (List.find (cacheKeyIs pid snap) (cachedProfiles w));
       world := w; trace := [EvReadCache] |}.
Proof.
  unfold getCachedProfile.
  by rewrite (bind_run _ _ _ _ _ _ (Cache_readFile_run w)).
Qed.

Lemma find_None_findIndex {A} (f : A → bool) (l : list A) :
  List.find f l = None → findIndex f l = None.
Proof.
  induction l as [|x l IH]; simpl; [done|].
  destruct (f x); [done|]. intros Hl. by rewrite IH.
Qed.

Lemma find_snoc_new {A} (f : A → bool) (l : list A) (x : A) :
  List.find f l = None → f x = true → List.find f (l ++ [x]) = Some x.
Proof.
  intros Hl Hx. induction l as [|y l IH]; simpl in *; [by rewrite Hx|].
  destruct (f y); [done | by apply IH].
Qed.

Lemma putCachedProfile_new (w : World) (entry : CachedProfile) :
  List.find (cacheKeyIs (playlistId entry) (snapshotId entry))
    (cachedProfiles w) = None →
  putCachedProfile entry w =
    {| res := Ok tt;
       world := setCacheFile (Json (cachedProfiles w ++ [entry])) w;
       trace := [EvReadCache; EvWriteCache (cachedProfiles w ++ [entry])] |}.
Proof.
  intros Hnew. unfold putCachedProfile.
  rewrite (bind_run _ _ _ _ _ _ (Cache_readFile_run w)).
  by rewrite (find_None_findIndex _ _ Hnew).
Qed.

(** The cache-hit path, under any fault budget. *)
Lemma buildPlaylistGenreProfile_hit (w : World) (pid : string)
  (pl : Playlist) (c : CachedProfile) :
  w_playlists w !! pid = Some pl →
  List.find (cacheKeyIs pid (snapshot_id pl)) (cachedProfiles w) = Some c →
  buildPlaylistGenreProfile pid w =
    match w_failAfter w with
    | Some O =>
        {| res := Throw CatalogError; world := w;
           trace := [EvGetPlaylist pid] |}
    | Some (S n) =>
        {| res := Ok (genres c); world := setFailAfter (Some n) w;
           trace := [EvGetPlaylist pid; EvReadCache] |}
    | None =>
        {| res := Ok (genres c); world := w;
           trace := [EvGetPlaylist pid; EvReadCache] |}
    end.
Proof.
  intros Hpl Hhit. unfold buildPlaylistGenreProfile.
  pose proof (getPlaylistSnapshot_run w pid pl Hpl) as Hsnap.
  cbv zeta in Hsnap.
  destruct (w_failAfter w) as [[|n]|] eqn:Hbudget.
  - rewrite (bind_throw _ _ _ CatalogError) by (by rewrite Hsnap).
    by rewrite Hsnap.
  - rewrite (bind_run _ _ _ _ _ _ Hsnap). simpl.
    rewrite (bind_run _ _ _ _ _ _ (getCachedProfile_run _ _ _)).
    change (cachedProfiles (setFailAfter (Some n) w))
      with (cachedProfiles w).
    by rewrite Hhit.
  - rewrite (bind_run _ _ _ _ _ _ Hsnap). simpl.
    rewrite (bind_run _ _ _ _ _ _ (getCachedProfile_run _ _ _)).
    by rewrite Hhit.
Qed.

Lemma newDate_run (w : World) :
  newDate w =
    {| res := Ok (w_time w (w_tick w)); world := setTick (S (w_tick w)) w;
       trace := [] |}.
Proof. reflexivity. Qed.

(** The cache-miss path against a catalog that never fails: one
    enumeration of the playlist, one artist request per batch of fifty
    ids, one cache write. *)
Lemma buildPlaylistGenreProfile_miss (w : World) (pid : string)
  (pl : Playlist) :
  w_failAfter w = None →
  w_playlists w !! pid = Some pl →
  List.find (cacheKeyIs pid (snapshot_id pl)) (cachedProfiles w) = None →
  buildPlaylistGenreProfile pid w =
    {| res := Ok (genres (rebuiltEntry w pid pl));
       world :=
         setCacheFile (Json (cachedProfiles w ++ [rebuiltEntry w pid pl]))
           (setTick (S (w_tick w)) w);
       trace :=
         [EvGetPlaylist pid; EvReadCache]
         ++ enumerationEvents pid pl
         ++ map EvGetArtists (slices 50 (profiledArtistIds pl))
         ++ [EvReadCache;
             EvWriteCache (cachedProfiles w ++ [rebuiltEntry w pid pl])] |}.
Proof.
  intros Hrel Hpl Hmiss. unfold buildPlaylistGenreProfile.
  pose proof (getPlaylistSnapshot_run w pid pl Hpl) as Hsnap.
  rewrite Hrel in Hsnap. cbv zeta in Hsnap.
  rewrite (bind_run _ _ _ _ _ _ Hsnap). simpl.
  rewrite (bind_run _ _ _ _ _ _ (getCachedProfile_run _ _ _)).
  rewrite Hmiss.
  rewrite (bind_run _ _ _ _ _ _ (iteratePlaylistTracks_reliable _ _ _ Hrel Hpl)).
  rewrite (bind_run _ _ _ _ _ _
             (forOf_artists_reliable w countGenres Hrel _ _)).
  rewrite (bind_run _ _ _ _ _ _ (newDate_run w)).
  assert (Hfold :
    foldl (λ s batch, countGenres (map (artistOf w) batch) s) ∅
      (slices 50
         (List.filter truthy
            (collectArtistIds (yieldedTracks (playlist_items pl)))))
    = genres (rebuiltEntry w pid pl)).
  { unfold rebuiltEntry, profiledArtistIds. simpl.
    rewrite <- (slices_concat 50 (List.filter truthy _)) at 2 by lia.
    generalize (slices 50
      (List.filter truthy
         (collectArtistIds (yieldedTracks (playlist_items pl))))).
    generalize (∅ : GenreProfile).
    intros counts batches. revert counts.
    induction batches as [|b batches IH]; intros counts; simpl; [done|].
    rewrite IH. unfold countGenres. by rewrite map_app, foldl_app. }
  rewrite Hfold.
  erewrite bind_run; cycle 1.
  { apply putCachedProfile_new. exact Hmiss. }
  unfold prefixed. simpl. reflexivity.
Qed.

(** *** Counting genres *)

Lemma weightOf_insert (counts : GenreProfile) (t g : string) (v : Z) :
  weightOf (<[t := v]> counts) g = if decide (t = g) then v else weightOf counts g.
Proof.
  unfold weightOf. rewrite lookup_insert. by destruct (decide (t = g)).
Qed.

Lemma countTags_weight (tags : list string) (g : string) :
  ∀ counts : GenreProfile,
    weightOf (foldl (λ c t, <[t := (weightOf c t + 1)%Z]> c) counts tags) g
    = (weightOf counts g + Z.of_nat (length (filter (λ t, t = g) tags)))%Z.
Proof.
  induction tags as [|t tags IH]; intros counts; simpl; [lia|].
  rewrite IH, weightOf_insert, filter_cons.
  destruct (decide (t = g)) as [->|]; simpl; lia.
Qed.

(** The weight of [g] after [countGenres]: one more for every occurrence
    of [g] in the tag lists of the artists. *)
Lemma countGenres_weight (artists : list ArtistObjectFull) (g : string) :
  ∀ counts : GenreProfile,
    weightOf (countGenres artists counts) g
    = (weightOf counts g
       + Z.of_nat
           (length
              (filter (λ t, t = g)
                 (flat_map (λ a, default [] (artist_genres a)) artists))))%Z.
Proof.
  unfold countGenres.
  induction artists as [|a artists IH]; intros counts; simpl; [lia|].
  rewrite IH, countTags_weight, filter_app, length_app. lia.
Qed.

Lemma occurrences_NoDup (tags : list string) (g : string) :
  NoDup tags →
  length (filter (λ t, t = g) tags) = if decide (g ∈ tags) then 1 else 0.
Proof.
  induction 1 as [|t tags Hnotin Hnodup IH]; [done|].
  rewrite filter_cons.
  destruct (decide (t = g)) as [->|Hne]; simpl.
  - rewrite IH. rewrite decide_False by done.
    rewrite decide_True by left. done.
  - rewrite IH. destruct (decide (g ∈ tags)) as [Hin|Hout].
    + rewrite decide_True by (by right). done.
    + rewrite decide_False; [done|]. intros [->|?]%elem_of_cons; done.
Qed.

Lemma tag_carriers_count (w : World) (ids : list string) (g : string) :
  (∀ a, NoDup (tagsOf w a)) →
  length
    (filter (λ t, t = g)
       (flat_map (λ a, default [] (artist_genres a)) (map (artistOf w) ids)))
  = length (filter (λ a, g ∈ tagsOf w a) ids).
Proof.
  intros Hnodup. induction ids as [|a ids IH]; simpl; [done|].
  rewrite filter_app, length_app, IH, filter_cons.
  change (default [] (w_artistGenres w a)) with (tagsOf w a).
  rewrite (occurrences_NoDup _ _ (Hnodup a)).
  by destruct (decide (g ∈ tagsOf w a)).
Qed.

(** A profile built by [countGenres] keeps the invariant of the data
    model: its weights are non-negative (and those it touched positive). *)
Lemma countGenres_nonneg (artists : list ArtistObjectFull) :
  ∀ counts : GenreProfile,
    (∀ g v, counts !! g = Some v → (0 ≤ v)%Z) →
    ∀ g v, countGenres artists counts !! g = Some v → (0 ≤ v)%Z.
Proof.
  assert (Htags : ∀ (tags : list string) (counts : GenreProfile),
    (∀ g v, counts !! g = Some v → (0 ≤ v)%Z) →
    ∀ g v,
      foldl (λ c t, <[t := (weightOf c t + 1)%Z]> c) counts tags !! g
      = Some v → (0 ≤ v)%Z).
  { induction tags as [|t tags IH]; intros counts Hpos; simpl; [done|].
    apply IH. intros g v [[<- <-]|[_ Hg]]%lookup_insert_Some; [|by eapply Hpos].
    unfold weightOf. destruct (counts !! t) as [v0|] eqn:Ht; simpl; [|lia].
    apply Hpos in Ht. lia. }
  unfold countGenres.
  induction artists as [|a artists IH]; intros counts Hpos; simpl; [done|].
  apply IH. by apply Htags.
Qed.

(** *** The set of artists of a playlist *)

Lemma Set_add_NoDup (x : string) (s : list string) :
  NoDup s → NoDup (Set_add x s).
Proof.
  intros Hs. unfold Set_add. destruct (decide (x ∈ s)); [done|].
  apply NoDup_app. split; [done|]. split; [|apply NoDup_singleton].
  intros y Hy ->%list_elem_of_singleton. done.
Qed.

Lemma elem_of_Set_add (x y : string) (s : list string) :
  y ∈ Set_add x s ↔ y = x ∨ y ∈ s.
Proof.
  unfold Set_add. destruct (decide (x ∈ s)).
  - split; [by right | by intros [->|?]].
  - rewrite elem_of_app, list_elem_of_singleton. tauto.
Qed.

Lemma Set_addAll_NoDup (xs : list string) :
  ∀ s, NoDup s → NoDup (Set_addAll xs s).
Proof.
  unfold Set_addAll. induction xs as [|x xs IH]; intros s Hs; simpl; [done|].
  by apply IH, Set_add_NoDup.
Qed.

Lemma elem_of_Set_addAll (xs : list string) (y : string) :
  ∀ s, y ∈ Set_addAll xs s ↔ y ∈ xs ∨ y ∈ s.
Proof.
  unfold Set_addAll. induction xs as [|x xs IH]; intros s; simpl.
  - rewrite elem_of_nil. tauto.
  - rewrite IH, elem_of_Set_add, elem_of_cons. tauto.
Qed.

Lemma collect_NoDup (tracks : list TrackObjectFull) :
  ∀ acc,
    NoDup acc →
    NoDup (foldl (λ artistIds track,
                    Set_addAll (map artist_id (track_artists track)) artistIds)
             acc tracks).
Proof.
  induction tracks as [|t tracks IH]; intros acc Hacc; simpl; [done|].
  by apply IH, Set_addAll_NoDup.
Qed.

Lemma elem_of_collect (tracks : list TrackObjectFull) (y : string) :
  ∀ acc,
    y ∈ foldl (λ artistIds track,
                 Set_addAll (map artist_id (track_artists track)) artistIds)
          acc tracks
    ↔ y ∈ flat_map (λ t, map artist_id (track_artists t)) tracks ∨ y ∈ acc.
Proof.
  induction tracks as [|t tracks IH]; intros acc; simpl.
  - rewrite elem_of_nil. tauto.
  - rewrite IH, elem_of_Set_addAll, elem_of_app. tauto.
Qed.

Lemma truthy_true (s : string) : truthy s = true ↔ s ≠ "".
Proof.
  unfold truthy. destruct (String.eqb_spec s ""); simpl; split; congruence.
Qed.

Lemma elem_of_List_filter {A} (f : A → bool) (l : list A) (x : A) :
  x ∈ List.filter f l ↔ x ∈ l ∧ f x = true.
Proof. by rewrite !list_elem_of_In, List.filter_In. Qed.

Lemma List_filter_NoDup {A} (f : A → bool) (l : list A) :
  NoDup l → NoDup (List.filter f l).
Proof.
  induction 1 as [|x l Hx Hl IH]; simpl; [constructor|].
  destruct (f x); [|done]. constructor; [|done].
  rewrite elem_of_List_filter. tauto.
Qed.

Lemma profiledArtistIds_NoDup (pl : Playlist) : NoDup (profiledArtistIds pl).
Proof.
  unfold profiledArtistIds. apply List_filter_NoDup.
  apply collect_NoDup. constructor.
Qed.

Lemma elem_of_profiledArtistIds (pl : Playlist) (a : string) :
  a ∈ profiledArtistIds pl ↔ a ∈ playlistArtists pl ∧ a ≠ "".
Proof.
  unfold profiledArtistIds, collectArtistIds, playlistArtists.
  rewrite elem_of_List_filter, elem_of_collect, elem_of_nil, truthy_true.
  tauto.
Qed.

Lemma flat_map_artistOf (w : World) (ids : list string) :
  flat_map (λ a, default [] (artist_genres a)) (map (artistOf w) ids)
  = flat_map (tagsOf w) ids.
Proof. induction ids as [|a ids IH]; simpl; [done | by rewrite IH]. Qed.

(** The weights of a rebuilt profile, without any assumption on the
    catalog: the weight of [g] is the number of occurrences of [g] in the
    tag lists of the distinct artists (with an id) of the playlist. *)
Lemma rebuilt_weight_occurrences (w : World) (pid : string) (pl : Playlist)
  (g : string) :
  weightOf (genres (rebuiltEntry w pid pl)) g
  = Z.of_nat
      (length
         (filter (λ t, t = g) (flat_map (tagsOf w) (profiledArtistIds pl)))).
Proof.
  unfold rebuiltEntry. simpl. rewrite countGenres_weight.
  unfold weightOf at 1. rewrite lookup_empty. simpl.
  by rewrite flat_map_artistOf.
Qed.

Lemma rebuilt_weight_distinct (w : World) (pid : string) (pl : Playlist)
  (g : string) :
  tagsOf w "" = [] →
  (∀ a, NoDup (tagsOf w a)) →
  weightOf (genres (rebuiltEntry w pid pl)) g
  = Z.of_nat (distinctArtistsCarrying w pl g).
Proof.
  intros Hnoid Hnodup. unfold rebuiltEntry. simpl.
  rewrite countGenres_weight.
  unfold weightOf at 1. rewrite lookup_empty. simpl. f_equal.
  rewrite (tag_carriers_count w _ g Hnodup).
  unfold distinctArtistsCarrying.
  assert (Hset :
    filter (λ a, g ∈ tagsOf w a)
      (list_to_set (playlistArtists pl) : gset string)
    = list_to_set (filter (λ a, g ∈ tagsOf w a) (profiledArtistIds pl))).
  { apply set_eq. intros a.
    rewrite elem_of_filter, !elem_of_list_to_set, list_elem_of_filter.
    rewrite elem_of_profiledArtistIds.
    split; [|tauto]. intros [Hg Ha]. repeat split; try done.
    intros ->. rewrite Hnoid in Hg. by apply elem_of_nil in Hg. }
  rewrite Hset, size_list_to_set; [done|].
  apply NoDup_filter, profiledArtistIds_NoDup.
Qed.

(** C1, amended.  On the cache-miss path of [buildPlaylistGenreProfile]
    the weight of every genre [g] in the profile built is the number of
    times [g] is listed by the distinct artists, with an id, that appear
    on the tracks of the playlist: an artist is counted once however many
    tracks it appears on, and an artist without tags adds nothing.  For a
    catalog that lists no tag twice for an artist (and holds no tags under
    the empty id, which the code never asks about) this is the number of
    distinct artists that carry tag [g].  The build does return a profile
    when the catalog does not fail. *)
Theorem rebuilt_profile_counts_listed_tags
  (w : World) (pid : string) (pl : Playlist) :
  w_playlists w !! pid = Some pl →
  List.find (cacheKeyIs pid (snapshot_id pl)) (cachedProfiles w) = None →
  (∀ counts,
     res (buildPlaylistGenreProfile pid w) = Ok counts →
     ∀ g,
       weightOf counts g = Z.of_nat (tagListings w pl g)
       ∧ (tagsOf w "" = [] → (∀ a, NoDup (tagsOf w a)) →
          weightOf counts g = Z.of_nat (distinctArtistsCarrying w pl g)))
  ∧ (w_failAfter w = None →
     ∃ counts, res (buildPlaylistGenreProfile pid w) = Ok counts).
Proof.
  intros Hpl Hmiss. split.
  - intros counts Hres g.
    destruct (robust_buildPlaylistGenreProfile pid w counts Hres)
      as (Hrel & _ & _).
    rewrite (buildPlaylistGenreProfile_miss (reliable w) pid pl) in Hrel
      by done.
    simpl in Hrel. injection Hrel as <-. split.
    + apply (rebuilt_weight_occurrences (reliable w) pid pl g).
    + intros Hnoid Hnodup.
      by apply (rebuilt_weight_distinct (reliable w) pid pl g).
  - intros Hrel. eexists.
    by rewrite (buildPlaylistGenreProfile_miss w pid pl).
Qed.

(** *** The cache *)

Lemma cacheKeyIs_true (pid snap : string) (c : CachedProfile) :
  cacheKeyIs pid snap c = true ↔ playlistId c = pid ∧ snapshotId c = snap.
Proof.
  unfold cacheKeyIs. rewrite andb_true_iff, !String.eqb_eq. tauto.
Qed.

(** A version that differs from every cached version of the playlist
    misses the cache. *)
Lemma changed_version_misses (pid snap : string) (l : list CachedProfile) :
  (∀ c, c ∈ l → playlistId c = pid → snapshotId c ≠ snap) →
  List.find (cacheKeyIs pid snap) l = None.
Proof.
  induction l as [|c l IH]; intros Hchanged; simpl; [done|].
  destruct (cacheKeyIs pid snap c) eqn:Hkey.
  - apply cacheKeyIs_true in Hkey as [Hp Hs].
    destruct (Hchanged c ltac:(left) Hp Hs).
  - apply IH. intros c' Hc'. apply Hchanged. by right.
Qed.

(** After a build that returned, the cache holds the profile returned
    under the current version of the playlist, and the playlist is as it
    was. *)
Lemma build_leaves_profile_cached (w : World) (pid : string) (pl : Playlist)
  (prof : GenreProfile) :
  w_playlists w !! pid = Some pl →
  res (buildPlaylistGenreProfile pid w) = Ok prof →
  w_playlists (world (buildPlaylistGenreProfile pid w)) !! pid = Some pl
  ∧ ∃ c,
      List.find (cacheKeyIs pid (snapshot_id pl))
        (cachedProfiles (world (buildPlaylistGenreProfile pid w))) = Some c
      ∧ genres c = prof.
Proof.
  intros Hpl Hres.
  destruct (List.find (cacheKeyIs pid (snapshot_id pl)) (cachedProfiles w))
    as [c|] eqn:Hfind.
  - rewrite (buildPlaylistGenreProfile_hit w pid pl c Hpl Hfind) in Hres |- *.
    destruct (w_failAfter w) as [[|n]|]; simpl in *; [discriminate| |].
    + injection Hres as <-. split; [done|]. by exists c.
    + injection Hres as <-. split; [done|]. by exists c.
  - destruct (robust_buildPlaylistGenreProfile pid w prof Hres)
      as (Hrel & _ & Hworld).
    rewrite (buildPlaylistGenreProfile_miss (reliable w) pid pl) in Hrel, Hworld
      by done.
    simpl in Hrel, Hworld. injection Hrel as Hprof.
    split.
    + change (w_playlists (world (buildPlaylistGenreProfile pid w)))
        with (w_playlists
                (reliable (world (buildPlaylistGenreProfile pid w)))).
      by rewrite <- Hworld.
    + exists (rebuiltEntry (reliable w) pid pl). split; [|done].
      change (cachedProfiles (world (buildPlaylistGenreProfile pid w)))
        with (cachedProfiles
                (reliable (world (buildPlaylistGenreProfile pid w)))).
      rewrite <- Hworld.
      change (cachedProfiles (setCacheFile (Json ?l) _)) with l.
      apply find_snoc_new; [done|].
      by apply cacheKeyIs_true.
Qed.

(** C3. (1) When the cache holds an entry for the playlist under its
    current content version, [buildPlaylistGenreProfile] takes the
    cache-hit path: it returns the genre profile of that entry as it is,
    and requests neither the membership of the playlist nor any artist
    metadata (its only I/O is the version request and the cache read).
    (2) When the content version differs from every cached version of the
    playlist, a build that returns has performed exactly one rebuild: one
    enumeration of the membership, the artist requests, and one cache
    write, which adds the entry of the new version.  (3) After any build
    that returned, a second build of the same playlist is a cache hit: it
    returns the same profile without any membership or artist request. *)
Theorem cache_hit_skips_rebuild_changed_version_rebuilds_once :
  (∀ w pid pl c,
     w_playlists w !! pid = Some pl →
     List.find (cacheKeyIs pid (snapshot_id pl)) (cachedProfiles w) = Some c →
     Forall (λ ev, ev = EvGetPlaylist pid ∨ ev = EvReadCache)
       (trace (buildPlaylistGenreProfile pid w))
     ∧ w_cacheFile (world (buildPlaylistGenreProfile pid w)) = w_cacheFile w
     ∧ (∀ prof,
          res (buildPlaylistGenreProfile pid w) = Ok prof → prof = genres c)
     ∧ (w_failAfter w ≠ Some 0 →
        res (buildPlaylistGenreProfile pid w) = Ok (genres c)))
  ∧ (∀ w pid pl,
       w_playlists w !! pid = Some pl →
       (∀ c, c ∈ cachedProfiles w →
             playlistId c = pid → snapshotId c ≠ snapshot_id pl) →
       (∀ prof,
          res (buildPlaylistGenreProfile pid w) = Ok prof →
          trace (buildPlaylistGenreProfile pid w)
          = [EvGetPlaylist pid; EvReadCache]
            ++ enumerationEvents pid pl
            ++ map EvGetArtists (slices 50 (profiledArtistIds pl))
            ++ [EvReadCache;
                EvWriteCache (cachedProfiles w ++ [rebuiltEntry w pid pl])]
          ∧ cachedProfiles (world (buildPlaylistGenreProfile pid w))
            = cachedProfiles w ++ [rebuiltEntry w pid pl]
          ∧ prof = genres (rebuiltEntry w pid pl))
       ∧ (w_failAfter w = None →
          ∃ prof, res (buildPlaylistGenreProfile pid w) = Ok prof))
  ∧ (∀ w pid pl prof,
       w_playlists w !! pid = Some pl →
       res (buildPlaylistGenreProfile pid w) = Ok prof →
       let w' := world (buildPlaylistGenreProfile pid w) in
       w_playlists w' !! pid = Some pl
       ∧ Forall (λ ev, isMembershipOrArtistFetch ev = false)
           (trace (buildPlaylistGenreProfile pid w'))
       ∧ (∀ prof',
            res (buildPlaylistGenreProfile pid w') = Ok prof' → prof' = prof)
       ∧ (w_failAfter w' ≠ Some 0 →
          res (buildPlaylistGenreProfile pid w') = Ok prof)).
Proof.
  split; [|split].
  - intros w pid pl c Hpl Hhit.
    rewrite (buildPlaylistGenreProfile_hit w pid pl c Hpl Hhit).
    destruct (w_failAfter w) as [[|n]|]; simpl.
    + repeat split; [by repeat constructor | discriminate | done].
    + repeat split; [by repeat constructor | by intros ? [= <-]].
    + repeat split; [by repeat constructor | by intros ? [= <-]].
  - intros w pid pl Hpl Hchanged.
    pose proof (changed_version_misses _ _ _ Hchanged) as Hmiss.
    split.
    + intros prof Hres.
      destruct (robust_buildPlaylistGenreProfile pid w prof Hres)
        as (Hrel & Htrace & Hworld).
      rewrite (buildPlaylistGenreProfile_miss (reliable w) pid pl)
        in Hrel, Htrace, Hworld by done.
      simpl in Hrel, Htrace, Hworld. injection Hrel as Hprof.
      split; [by rewrite <- Htrace|]. split; [|done].
      change (cachedProfiles (world (buildPlaylistGenreProfile pid w)))
        with (cachedProfiles
                (reliable (world (buildPlaylistGenreProfile pid w)))).
      by rewrite <- Hworld.
    + intros Hrel. eexists.
      by rewrite (buildPlaylistGenreProfile_miss w pid pl).
  - intros w pid pl prof Hpl Hres w'.
    destruct (build_leaves_profile_cached w pid pl prof Hpl Hres)
      as (Hpl' & c & Hhit & <-).
    fold w' in Hpl', Hhit.
    rewrite (buildPlaylistGenreProfile_hit w' pid pl c Hpl' Hhit).
    split; [done|].
    destruct (w_failAfter w') as [[|n]|]; simpl.
    + repeat split; [by repeat constructor | discriminate | done].
    + repeat split; [by repeat constructor | by intros ? [= <-]].
    + repeat split; [by repeat constructor | by intros ? [= <-]].
Qed.

(** ** Insertion of tracks *)

Lemma fromTrackUri_toTrackUri (id : string) :
  fromTrackUri (toTrackUri id) = if truthy id then Some id else None.
Proof. destruct id; reflexivity. Qed.

Lemma mapM_fromTrackUri (ids : list string) :
  mapM fromTrackUri (map toTrackUri ids)
  = if forallb truthy ids then Some ids else None.
Proof.
  induction ids as [|id ids IH]; simpl; [done|].
  rewrite fromTrackUri_toTrackUri, IH.
  destruct (truthy id); simpl; [|done]. by destruct (forallb truthy ids).
Qed.

(** One insertion request against a catalog that never fails: the catalog
    appends the tracks, or rejects the request when an id is empty. *)
Lemma addTracks_call_reliable (w : World) (pid : string) (pl : Playlist)
  (slice : list string) :
  w_failAfter w = None →
  w_playlists w !! pid = Some pl →
  callWithRetry (EvAddTracks pid (map toTrackUri slice))
    (spotify_addTracksToPlaylist pid (map toTrackUri slice)) w =
    if forallb truthy slice
    then {| res := Ok tt;
            world :=
              setPlaylists
                (<[pid := grownPlaylist (w_trackInfo w) pl slice]>
                   (w_playlists w)) w;
            trace := [EvAddTracks pid (map toTrackUri slice)] |}
    else {| res := Throw CatalogError; world := w;
            trace := [EvAddTracks pid (map toTrackUri slice)] |}.
Proof.
  intros Hrel Hpl. rewrite callWithRetry_reliable by done.
  unfold spotify_addTracksToPlaylist, prefixed. io_unfold. simpl.
  rewrite Hpl, mapM_fromTrackUri. by destruct (forallb truthy slice).
Qed.

Lemma addLoop_reliable (pid : string) (batches : list (list string)) :
  ∀ (w : World) (pl : Playlist),
    w_failAfter w = None →
    w_playlists w !! pid = Some pl →
    let o :=
      forOf batches
        (λ slice (_ : unit),
           callWithRetry (EvAddTracks pid (map toTrackUri slice))
             (spotify_addTracksToPlaylist pid (map toTrackUri slice)))
        tt w in
    res o = Ok tt →
    Forall (λ b, forallb truthy b = true) batches
    ∧ trace o = map (λ b, EvAddTracks pid (map toTrackUri b)) batches
    ∧ w_failAfter (world o) = None
    ∧ w_trackInfo (world o) = w_trackInfo w
    ∧ ∃ pl',
        w_playlists (world o) !! pid = Some pl'
        ∧ playlist_items pl'
          = playlist_items pl
            ++ map (catalogTrack (w_trackInfo w)) (concat batches).
Proof.
  induction batches as [|b batches IH]; intros w pl Hrel Hpl o Hres.
  - subst o. simpl. repeat split; [constructor | done..|].
    exists pl. split; [done|]. by rewrite app_nil_r.
  - subst o. simpl in Hres |- *.
    pose proof (addTracks_call_reliable w pid pl b Hrel Hpl) as Hcall.
    destruct (forallb truthy b) eqn:Hb.
    + rewrite (bind_run _ _ _ _ _ _ Hcall) in Hres |- *.
      unfold prefixed in Hres |- *. simpl in Hres |- *.
      destruct (IH (setPlaylists
                      (<[pid := grownPlaylist (w_trackInfo w) pl b]>
                         (w_playlists w)) w)
                  (grownPlaylist (w_trackInfo w) pl b))
        as (Hall & Htrace & Hrel' & Hinfo & pl' & Hpl' & Hitems);
        [done | apply lookup_insert_eq | exact Hres |].
      repeat split; [by constructor | by rewrite Htrace | done | done |].
      exists pl'. split; [done|].
      rewrite Hitems. simpl. by rewrite map_app, app_assoc.
    + rewrite (bind_throw _ _ _ CatalogError) in Hres by (by rewrite Hcall).
      discriminate.
Qed.

Lemma elem_of_existing_fold (tracks : list TrackObjectFull) (y : string) :
  ∀ acc,
    y ∈ foldl (λ ids track,
                 if truthy (track_id track)
                 then Set_add (track_id track) ids else ids)
          acc tracks
    ↔ y ∈ acc ∨ (y ≠ "" ∧ y ∈ map track_id tracks).
Proof.
  induction tracks as [|t tracks IH]; intros acc; simpl.
  - rewrite elem_of_nil. tauto.
  - rewrite IH, elem_of_cons. destruct (truthy (track_id t)) eqn:Ht.
    + apply truthy_true in Ht. rewrite elem_of_Set_add.
      split; [|tauto]. intros [[->|?]|?]; tauto.
    + assert (track_id t = "").
      { destruct (decide (track_id t = "")) as [|Hne]; [done|].
        apply truthy_true in Hne. congruence. }
      split; [tauto|]. intros [?|[? [?|?]]]; try tauto. congruence.
Qed.

Lemma elem_of_existingIds (pl : Playlist) (y : string) :
  y ∈ existingIds pl
  ↔ y ≠ "" ∧ y ∈ map track_id (yieldedTracks (playlist_items pl)).
Proof.
  unfold existingIds. rewrite elem_of_existing_fold, elem_of_nil. tauto.
Qed.

Lemma getPlaylistTrackIdsSet_reliable (w : World) (pid : string)
  (pl : Playlist) :
  w_failAfter w = None →
  w_playlists w !! pid = Some pl →
  getPlaylistTrackIdsSet pid w =
    {| res := Ok (existingIds pl); world := w;
       trace := enumerationEvents pid pl |}.
Proof.
  intros Hrel Hpl. unfold getPlaylistTrackIdsSet.
  rewrite (bind_run _ _ _ _ _ _ (iteratePlaylistTracks_reliable _ _ _ Hrel Hpl)).
  unfold prefixed. io_unfold. simpl. by rewrite app_nil_r.
Qed.

Lemma getPlaylistTrackIdsSet_unknown (w : World) (pid : string)
  (ids : list string) :
  w_failAfter w = None →
  w_playlists w !! pid = None →
  res (getPlaylistTrackIdsSet pid w) ≠ Ok ids.
Proof.
  intros Hrel Hpl. unfold getPlaylistTrackIdsSet, iteratePlaylistTracks.
  rewrite (bind_throw _ _ _ CatalogError); [done|].
  rewrite (bind_run (gets w_playlists) _ w w (w_playlists w) []) by done.
  cbv beta. rewrite Hpl. simpl.
  rewrite (bind_throw _ _ _ CatalogError); [done|].
  unfold getPlaylistItemsPaginated. rewrite callWithRetry_reliable by done.
  unfold spotify_getPlaylistTracks, prefixed. io_unfold. simpl.
  by rewrite Hpl.
Qed.

Lemma addedUris_app (t1 t2 : list Event) :
  addedUris (t1 ++ t2) = addedUris t1 ++ addedUris t2.
Proof. apply omap_app. Qed.

Lemma addedUris_enumeration (pid : string) (pl : Playlist) :
  addedUris (enumerationEvents pid pl) = [].
Proof.
  unfold enumerationEvents.
  induction (pageOffsets _ _ _) as [|off offs IH]; [done | exact IH].
Qed.

Lemma addedUris_requests (pid : string) (batches : list (list string)) :
  concat (addedUris (map (λ b, EvAddTracks pid (map toTrackUri b)) batches))
  = map toTrackUri (concat batches).
Proof.
  induction batches as [|b batches IH]; [done|].
  simpl. unfold addedUris in *. simpl. by rewrite IH, map_app.
Qed.

Lemma trackIds_after_append
  (info : string → string * list ArtistObjectSimplified)
  (its : list PlaylistTrackObject) (ids : list string) :
  map track_id (yieldedTracks (its ++ map (catalogTrack info) ids))
  = map track_id (yieldedTracks its) ++ ids.
Proof.
  unfold yieldedTracks. rewrite omap_app, map_app. f_equal.
  induction ids as [|id ids IH]; [done|]. simpl. f_equal. exact IH.
Qed.

Lemma filter_ext_in {A} (P Q : A → Prop)
  `{!∀ x, Decision (P x)} `{!∀ x, Decision (Q x)} (l : list A) :
  (∀ x, x ∈ l → (P x ↔ Q x)) → filter P l = filter Q l.
Proof.
  induction l as [|x l IH]; intros Hext; [done|].
  rewrite !filter_cons.
  rewrite IH by (intros y Hy; apply Hext; by right).
  destruct (decide (P x)) as [HP|HP], (decide (Q x)) as [HQ|HQ]; try done.
  - destruct HQ. by apply (Hext x ltac:(left)).
  - destruct HP. by apply (Hext x ltac:(left)).
Qed.

(** The first call, against a catalog that never fails. *)
Lemma addTracksToPlaylistIfMissing_reliable (w : World) (pid : string)
  (pl : Playlist) (trackIds : list string) (r : AddResult) :
  w_failAfter w = None →
  w_playlists w !! pid = Some pl →
  res (addTracksToPlaylistIfMissing pid trackIds w) = Ok r →
  let toAdd := filter (λ id, id ∉ existingIds pl) trackIds in
  let o := addTracksToPlaylistIfMissing pid trackIds w in
  Forall (λ id, truthy id = true) toAdd
  ∧ r = {| added := length toAdd;
           skipped := length trackIds - length toAdd |}
  ∧ concat (addedUris (trace o)) = map toTrackUri toAdd
  ∧ ∃ pl',
      w_playlists (world o) !! pid = Some pl'
      ∧ playlist_items pl'
        = playlist_items pl ++ map (catalogTrack (w_trackInfo w)) toAdd.
Proof.
  intros Hrel Hpl Hres toAdd o. subst o.
  unfold addTracksToPlaylistIfMissing in Hres |- *.
  rewrite (bind_run _ _ _ _ _ _
             (getPlaylistTrackIdsSet_reliable _ _ _ Hrel Hpl)) in Hres |- *.
  fold toAdd in Hres |- *.
  destruct (decide (length toAdd = 0)) as [Hnone|Hsome].
  - apply length_zero_iff_nil in Hnone. rewrite Hnone in *.
    unfold prefixed in *. io_unfold. cbn in *. injection Hres as <-.
    split; [constructor|]. split; [f_equal; lia|]. split.
    + by rewrite app_nil_r, addedUris_enumeration.
    + exists pl. split; [done|]. by rewrite app_nil_r.
  - unfold prefixed in Hres |- *. cbn in Hres |- *.
    match type of Hres with
    | res ((?m ≫= _) w) = _ => destruct (res (m w)) as [[]|e] eqn:Hloop
    end.
    + rewrite (bind_ok _ _ _ tt Hloop) in Hres |- *.
      cbn in Hres |- *. injection Hres as <-.
      destruct (addLoop_reliable pid (slices 100 toAdd) w pl Hrel Hpl Hloop)
        as (Hall & Htrace & _ & _ & pl' & Hpl' & Hitems).
      rewrite slices_concat in Hitems by lia.
      split; [|split; [done|split]].
      * rewrite <- (slices_concat 100 toAdd) by lia.
        apply Forall_concat. eapply Forall_impl; [exact Hall|].
        intros b Hb. simpl in Hb. rewrite Forall_forall. intros x Hx.
        rewrite forallb_forall in Hb. apply Hb. by apply list_elem_of_In.
      * rewrite app_nil_r, addedUris_app, addedUris_enumeration, Htrace.
        cbn. rewrite addedUris_requests. by rewrite slices_concat by lia.
      * by exists pl'.
    + rewrite (bind_throw _ _ _ e Hloop) in Hres. discriminate.
Qed.

#[local] Instance samePlaylists_preorder : PreOrder samePlaylists.
Proof.
  split; [by intros w | intros w1 w2 w3; unfold samePlaylists; congruence].
Qed.

Lemma filter_none {A} (P : A → Prop) `{!∀ x, Decision (P x)} (l : list A) :
  (∀ x, x ∈ l → ¬ P x) → filter P l = [].
Proof.
  intros Hnone. destruct (filter P l) as [|x xs] eqn:Hf; [done|].
  assert (Hx : x ∈ filter P l) by (rewrite Hf; left).
  apply list_elem_of_filter in Hx as [HP Hin]. by destruct (Hnone x Hin).
Qed.

(** A call on ids that are all in the playlist already, under any fault
    budget: no insertion request, and nothing to add if it returns. *)
Lemma addTracksToPlaylistIfMissing_all_present (w : World) (pid : string)
  (pl : Playlist) (trackIds : list string) :
  w_playlists w !! pid = Some pl →
  (∀ id, id ∈ trackIds → id ∈ existingIds pl) →
  let o := addTracksToPlaylistIfMissing pid trackIds w in
  Forall (λ ev, isAddTracks ev = false) (trace o)
  ∧ w_playlists (world o) = w_playlists w
  ∧ (∀ r, res o = Ok r → r = {| added := 0; skipped := length trackIds |})
  ∧ (w_failAfter w = None →
     res o = Ok {| added := 0; skipped := length trackIds |}).
Proof.
  intros Hpl Hall o. subst o.
  destruct (maintains_getPlaylistTrackIdsSet samePlaylists
              (λ ev, isAddTracks ev = false)
              ltac:(done) ltac:(by intros) pid w) as (HR & HT & _).
  assert (Hnone : filter (λ id, id ∉ existingIds pl) trackIds = []).
  { apply filter_none. intros id Hid Hnot. by apply Hnot, Hall. }
  unfold addTracksToPlaylistIfMissing.
  destruct (res (getPlaylistTrackIdsSet pid w)) as [existing|e] eqn:Hres.
  - destruct (robust_getPlaylistTrackIdsSet pid w existing Hres)
      as (Hrel & _ & _).
    rewrite (getPlaylistTrackIdsSet_reliable (reliable w) pid pl) in Hrel
      by done.
    cbn in Hrel. injection Hrel as <-.
    rewrite (bind_ok _ _ _ _ Hres). rewrite Hnone. cbn.
    rewrite app_nil_r. split; [done|]. split; [done|].
    split; [by intros r [= <-] | done].
  - rewrite (bind_throw _ _ _ e Hres). cbn.
    split; [done|]. split; [done|]. split; [discriminate|].
    intros Hrel.
    rewrite (getPlaylistTrackIdsSet_reliable w pid pl Hrel Hpl) in Hres.
    discriminate.
Qed.

(** C9. [addTracksToPlaylistIfMissing] is idempotent.  Whenever a call
    returns: the uris it asked the catalog to insert are exactly those of
    the listed ids that were not in the playlist, in order; it reports
    their number as [added] and the rest as [skipped]; and afterwards
    every listed id is in the playlist.  A second call with the same list,
    made in the world the first call left, issues no insertion request and
    leaves the playlists as they are; if it returns, it reports
    [added: 0] and every id as skipped, and it does return when the
    catalog does not fail. *)
Theorem addTracksToPlaylistIfMissing_idempotent
  (w : World) (pid : string) (trackIds : list string) (r1 : AddResult) :
  res (addTracksToPlaylistIfMissing pid trackIds w) = Ok r1 →
  let w1 := world (addTracksToPlaylistIfMissing pid trackIds w) in
  let toAdd := filter (λ id, id ∉ playlistTrackIds w pid) trackIds in
  concat (addedUris (trace (addTracksToPlaylistIfMissing pid trackIds w)))
  = map toTrackUri toAdd
  ∧ r1 = {| added := length toAdd;
            skipped := length trackIds - length toAdd |}
  ∧ (∀ id, id ∈ trackIds → id ∈ playlistTrackIds w1 pid)
  ∧ Forall (λ ev, isAddTracks ev = false)
      (trace (addTracksToPlaylistIfMissing pid trackIds w1))
  ∧ w_playlists (world (addTracksToPlaylistIfMissing pid trackIds w1))
    = w_playlists w1
  ∧ (∀ r2,
       res (addTracksToPlaylistIfMissing pid trackIds w1) = Ok r2 →
       r2 = {| added := 0; skipped := length trackIds |})
  ∧ (w_failAfter w1 = None →
     res (addTracksToPlaylistIfMissing pid trackIds w1)
     = Ok {| added := 0; skipped := length trackIds |}).
Proof.
  intros Hres w1 toAdd.
  destruct (robust_addTracksToPlaylistIfMissing pid trackIds w r1 Hres)
    as (Hrel & Htrace & Hworld).
  destruct (w_playlists w !! pid) as [pl|] eqn:Hpl; cycle 1.
  { exfalso. unfold addTracksToPlaylistIfMissing in Hrel.
    destruct (res (getPlaylistTrackIdsSet pid (reliable w)))
      as [existing|e] eqn:Hex.
    - by apply (getPlaylistTrackIdsSet_unknown (reliable w) pid existing).
    - by rewrite (bind_throw _ _ _ e Hex) in Hrel. }
  destruct (addTracksToPlaylistIfMissing_reliable (reliable w) pid pl
              trackIds r1 eq_refl Hpl Hrel)
    as (Htruthy & Hr1 & Huris & pl' & Hpl' & Hitems).
  rewrite Htrace in Huris. rewrite Hworld in Hpl'.
  change (w_playlists (reliable ?x)) with (w_playlists x) in Hpl'.
  change (w_trackInfo (reliable w)) with (w_trackInfo w) in Hitems.
  fold w1 in Hpl'.
  (* no listed id is empty, so the two readings of "missing" agree *)
  assert (Hids : ∀ id, id ∈ trackIds → id ≠ "").
  { intros id Hid ->. rewrite Forall_forall in Htruthy.
    assert (Hin : "" ∈ filter (λ id, id ∉ existingIds pl) trackIds).
    { apply list_elem_of_filter. split; [|done].
      rewrite elem_of_existingIds. by intros [? _]. }
    by apply Htruthy in Hin. }
  assert (Hsame : filter (λ id, id ∉ existingIds pl) trackIds = toAdd).
  { apply filter_ext_in. intros id Hid.
    unfold playlistTrackIds. rewrite Hpl, elem_of_existingIds.
    specialize (Hids id Hid). tauto. }
  rewrite Hsame in *.
  assert (Hpresent : ∀ id, id ∈ trackIds → id ∈ playlistTrackIds w1 pid).
  { intros id Hid. unfold playlistTrackIds. rewrite Hpl', Hitems.
    rewrite trackIds_after_append, elem_of_app.
    destruct (decide (id ∈ map track_id (yieldedTracks (playlist_items pl))))
      as [Hold|Hnew]; [by left|].
    right. apply list_elem_of_filter. split; [|done].
    unfold playlistTrackIds. by rewrite Hpl. }
  split; [done|]. split; [done|]. split; [done|].
  apply (addTracksToPlaylistIfMissing_all_present w1 pid pl' trackIds Hpl').
  intros id Hid. apply elem_of_existingIds. split; [by apply Hids|].
  specialize (Hpresent id Hid). unfold playlistTrackIds in Hpresent.
  by rewrite Hpl' in Hpresent.
Qed.

(** ** Streaming stops at the watermark *)

Lemma robust_forOfBreak {A St} (xs : list A)
  (body : A → St → IO (LoopStep St)) :
  (∀ x s, robust (body x s)) → ∀ s, robust (forOfBreak xs body s).
Proof.
  intros Hbody. induction xs as [|x xs IH]; intros s; simpl.
  - apply robust_ret.
  - apply robust_bind; [apply Hbody|].
    intros [s'|s']; [apply IH | apply robust_ret].
Qed.

Lemma robust_getSavedTracksPaginated limit offset :
  robust (getSavedTracksPaginated limit offset).
Proof.
  unfold getSavedTracksPaginated, spotify_getMySavedTracks.
  repeat robust_step.
Qed.

Lemma robust_forAwaitSavedTracksFrom {St} fuel offset
  (body : SavedTrackItem → St → IO (LoopStep St)) s :
  (∀ x s, robust (body x s)) →
  robust (forAwaitSavedTracksFrom fuel offset body s).
Proof.
  intros Hbody. revert offset s.
  induction fuel as [|fuel IH]; intros offset s; simpl.
  - apply robust_throw.
  - apply robust_bind; [apply robust_getSavedTracksPaginated|].
    intros r. destruct (decide _); [apply robust_ret|].
    apply robust_bind; [by apply robust_forOfBreak|].
    intros [s'|s']; [|apply robust_ret].
    destruct (negb _); [apply robust_ret | apply IH].
Qed.

Lemma robust_forAwaitSavedTracks {St}
  (body : SavedTrackItem → St → IO (LoopStep St)) s :
  (∀ x s, robust (body x s)) → robust (forAwaitSavedTracks body s).
Proof.
  intros Hbody. unfold forAwaitSavedTracks.
  apply robust_bind; [by apply robust_gets|]. intros saved.
  by apply robust_forAwaitSavedTracksFrom.
Qed.

Lemma robust_shouldRebuildProfile last : robust (shouldRebuildProfile last).
Proof.
  unfold shouldRebuildProfile.
  destruct last as [l|]; [|apply robust_ret].
  destruct (truthy l); [|apply robust_ret].
  apply robust_bind; [apply robust_newDate|]. intros now.
  apply robust_bind; [by apply robust_gets|]. intros; apply robust_ret.
Qed.

Lemma robust_buildProfiles state targets :
  robust (buildProfiles state targets).
Proof.
  unfold buildProfiles. apply robust_forOf.
  intros pid [profiles updated].
  apply robust_bind; [apply robust_shouldRebuildProfile|].
  intros [|].
  - apply robust_bind; [apply robust_buildPlaylistGenreProfile|].
    intros prof.
    apply robust_bind; [apply robust_newDate | intros; apply robust_ret].
  - apply robust_bind; [apply robust_buildPlaylistGenreProfile|].
    intros; apply robust_ret.
Qed.

Lemma robust_trackGenresOf track : robust (trackGenresOf track).
Proof.
  unfold trackGenresOf. apply robust_forOf. intros batch gs.
  apply robust_bind; [apply robust_getSeveralArtists|].
  intros; apply robust_ret.
Qed.

Lemma robust_routeItem state targets profiles item acc :
  robust (routeItem state targets profiles item acc).
Proof.
  unfold routeItem. destruct acc as [byPlaylist newest].
  destruct (_ && _); [apply robust_ret|].
  apply robust_bind; [apply robust_trackGenresOf|]. intros gs.
  apply robust_bind; [apply robust_tell | intros; apply robust_ret].
Qed.

Lemma robust_writePlaylists byPlaylist : robust (writePlaylists byPlaylist).
Proof.
  unfold writePlaylists. apply robust_forOf. intros [pid ids] [].
  destruct (decide _); [apply robust_ret|].
  apply robust_bind; [apply robust_addTracksToPlaylistIfMissing|].
  intros; apply robust_ret.
Qed.

Lemma robust_incrementalRun state : robust (incrementalRun state).
Proof.
  unfold incrementalRun.
  apply robust_bind; [by apply robust_gets|]. intros env.
  destruct (decide _); [apply robust_throw|].
  apply robust_bind; [apply robust_buildProfiles|].
  intros [profiles updated].
  apply robust_bind.
  { apply robust_forAwaitSavedTracks. intros; apply robust_routeItem. }
  intros [byPlaylist newest].
  apply robust_bind; [apply robust_writePlaylists|].
  intros; apply robust_ret.
Qed.

Lemma reliable_id (w : World) : w_failAfter w = None → reliable w = w.
Proof. destruct w. simpl. by intros ->. Qed.

(** A computation that returned against a catalog that never fails leaves
    a world whose catalog never fails. *)
Lemma robust_stays_reliable {A} (m : IO A) (w : World) (a : A) :
  robust m → w_failAfter w = None → res (m w) = Ok a →
  w_failAfter (world (m w)) = None.
Proof.
  intros Hm Hrel Hres. destruct (Hm w a Hres) as (_ & _ & Hworld).
  rewrite (reliable_id w Hrel) in Hworld. by rewrite Hworld.
Qed.

Lemma getSavedTracksPaginated_reliable (w : World) (offset : nat) :
  w_failAfter w = None →
  getSavedTracksPaginated 50 offset w =
    {| res := Ok (page 50 offset (w_saved w)); world := w;
       trace := [EvGetSavedTracks offset] |}.
Proof.
  intros Hrel. unfold getSavedTracksPaginated.
  by rewrite callWithRetry_reliable.
Qed.

Section Streaming.
Context (state : State) (targets : list string)
  (profiles : Record GenreProfile) (wm : string).
Hypothesis state_watermark : lastProcessedAddedAt state = Some wm.
Hypothesis watermark_truthy : truthy wm = true.

(** One liked track, against a catalog that never fails: a track liked at
    or before the watermark stops the loop at once; any other track is
    routed and the loop goes on. *)
Lemma routeItem_reliable (w : World) (item : SavedTrackItem)
  (acc : Record (list string) * option string) :
  w_failAfter w = None →
  ∃ st t,
    routeItem state targets profiles item acc w
    = {| res := Ok st; world := w; trace := t |}
    ∧ if String.leb (added_at item) wm
      then (∃ acc', st = Break acc') ∧ t = []
      else (∃ acc', st = Continue acc') ∧ routedItems t = [item].
Proof.
  intros Hrel. unfold routeItem. destruct acc as [byPlaylist newest].
  rewrite state_watermark. simpl. rewrite watermark_truthy. simpl.
  destruct (String.leb (added_at item) wm) eqn:Hcut.
  - eexists _, _. split; [reflexivity|]. split; [by eexists | done].
  - unfold trackGenresOf.
    rewrite (bind_run _ _ _ _ _ _
               (forOf_artists_reliable w _ Hrel _ _)).
    eexists _, _. split; [reflexivity|]. split; [by eexists|].
    cbn. rewrite routedItems_app.
    assert (Hnone : ∀ batches, routedItems (map EvGetArtists batches) = []).
    { intros batches. induction batches as [|b bs IH]; [done | exact IH]. }
    by rewrite Hnone.
Qed.

Lemma forOfBreak_routeItem_reliable (w : World) (items : list SavedTrackItem) :
  w_failAfter w = None →
  ∀ acc,
    ∃ st t,
      forOfBreak items (routeItem state targets profiles) acc w
      = {| res := Ok st; world := w; trace := t |}
      ∧ routedItems t = newerPrefix wm items
      ∧ match st with
        | Break _ => newerPrefix wm items ≠ items
        | Continue _ => newerPrefix wm items = items
        end.
Proof.
  intros Hrel. induction items as [|item items IH]; intros acc.
  - eexists _, _. split; [reflexivity|]. by split.
  - destruct (routeItem_reliable w item acc Hrel) as (st & t & Hrun & Hst).
    simpl forOfBreak. rewrite (bind_run _ _ _ _ _ _ Hrun). simpl newerPrefix.
    destruct (String.leb (added_at item) wm).
    + destruct Hst as [[acc' ->] ->].
      eexists _, _. split; [reflexivity|]. by split.
    + destruct Hst as [[acc' ->] Hrouted].
      destruct (IH acc') as (st' & t' & Hrun' & Hrouted' & Hst').
      rewrite Hrun'. eexists _, _. split; [reflexivity|]. cbn. split.
      * by rewrite routedItems_app, Hrouted, Hrouted'.
      * destruct st'; [by rewrite Hst' | congruence].
Qed.

Lemma newerPrefix_app_all (l1 l2 : list SavedTrackItem) :
  newerPrefix wm l1 = l1 →
  newerPrefix wm (l1 ++ l2) = l1 ++ newerPrefix wm l2.
Proof.
  induction l1 as [|x l1 IH]; simpl; [done|].
  destruct (String.leb (added_at x) wm); [done|].
  intros [= Heq]. by rewrite IH.
Qed.

Lemma newerPrefix_app_cut (l1 l2 : list SavedTrackItem) :
  newerPrefix wm l1 ≠ l1 →
  newerPrefix wm (l1 ++ l2) = newerPrefix wm l1.
Proof.
  induction l1 as [|x l1 IH]; simpl; [done|].
  destruct (String.leb (added_at x) wm); [done|].
  intros Hne. rewrite IH; [done|]. congruence.
Qed.

Lemma newerPrefix_take_all (n : nat) (l : list SavedTrackItem) :
  newerPrefix wm (take n l) = take n l →
  newerPrefix wm l = take n l ++ newerPrefix wm (drop n l).
Proof.
  intros Hall. rewrite <- (take_drop n l) at 1.
  by apply newerPrefix_app_all.
Qed.

Lemma newerPrefix_take_cut (n : nat) (l : list SavedTrackItem) :
  newerPrefix wm (take n l) ≠ take n l →
  newerPrefix wm l = newerPrefix wm (take n l).
Proof.
  intros Hcut. rewrite <- (take_drop n l) at 1.
  by apply newerPrefix_app_cut.
Qed.

Lemma routedItems_singleton_other (ev : Event) :
  (∀ item pid, ev ≠ EvRoute item pid) → routedItems [ev] = [].
Proof. intros Hev. destruct ev; try done. by destruct (Hev item pid). Qed.

(** The whole loop over the liked tracks, against a catalog that never
    fails: it returns, and it has routed exactly the tracks that come
    before the first one liked at or before the watermark. *)
Lemma forAwaitSavedTracksFrom_reliable (w : World) :
  w_failAfter w = None →
  ∀ fuel offset acc,
    length (w_saved w) - offset < fuel →
    ∃ acc' t,
      forAwaitSavedTracksFrom fuel offset
        (routeItem state targets profiles) acc w
      = {| res := Ok acc'; world := w; trace := t |}
      ∧ routedItems t = newerPrefix wm (drop offset (w_saved w)).
Proof.
  intros Hrel. induction fuel as [|fuel IH]; intros offset acc Hfuel; [lia|].
  simpl forAwaitSavedTracksFrom.
  rewrite (bind_run _ _ _ _ _ _ (getSavedTracksPaginated_reliable w offset Hrel)).
  unfold page. cbn [items next].
  destruct (decide (length (take 50 (drop offset (w_saved w))) = 0))
    as [Hempty|Hnonempty].
  - exists acc, ([EvGetSavedTracks offset] ++ []). split; [done|].
    rewrite length_take, length_drop in Hempty.
    rewrite drop_ge by lia. done.
  - destruct (forOfBreak_routeItem_reliable w
                (take 50 (drop offset (w_saved w))) Hrel acc)
      as (st & t & Hrun & Hrouted & Hst).
    rewrite (bind_run _ _ _ _ _ _ Hrun).
    destruct st as [acc'|acc'].
    + rewrite (newerPrefix_take_all 50 (drop offset (w_saved w))) by done.
      destruct (decide (offset + 50 < length (w_saved w))) as [Hnext|Hlast].
      * rewrite bool_decide_true by done. cbn [negb].
        assert (Hlen : length (take 50 (drop offset (w_saved w))) = 50)
          by (rewrite length_take, length_drop; lia).
        rewrite Hlen.
        destruct (IH (offset + 50) acc' ltac:(lia))
          as (acc'' & t' & Hrun' & Hrouted').
        exists acc'', ([EvGetSavedTracks offset] ++ t ++ t').
        split; [by rewrite Hrun'|].
        rewrite !routedItems_app, Hrouted, Hrouted', Hst, drop_drop.
        by rewrite routedItems_singleton_other.
      * rewrite bool_decide_false by done. cbn [negb].
        exists acc', ([EvGetSavedTracks offset] ++ t ++ []).
        split; [done|].
        rewrite app_nil_r, routedItems_app, Hrouted, Hst.
        rewrite routedItems_singleton_other by done.
        rewrite (drop_ge (drop offset (w_saved w)))
          by (rewrite length_drop; lia).
        simpl. by rewrite app_nil_r.
    + rewrite (newerPrefix_take_cut 50 (drop offset (w_saved w))) by done.
      exists acc', ([EvGetSavedTracks offset] ++ t ++ []).
      split; [done|].
      rewrite app_nil_r, routedItems_app, Hrouted.
      by rewrite routedItems_singleton_other.
Qed.

End Streaming.

#[local] Instance sameSaved_preorder : PreOrder sameSaved.
Proof.
  split; [by intros w | intros w1 w2 w3; unfold sameSaved; congruence].
Qed.

Lemma routedItems_none (t : list Event) :
  Forall (λ ev, ∀ item pid, ev ≠ EvRoute item pid) t → routedItems t = [].
Proof.
  induction 1 as [|ev t Hev _ IH]; [done|].
  change (ev :: t) with ([ev] ++ t).
  by rewrite routedItems_app, routedItems_singleton_other, IH.
Qed.

(** A run of [incrementalRun] that returns has routed exactly the liked
    tracks that come before the first one liked at or before the
    watermark. *)
Lemma incrementalRun_routes_newer_prefix (state : State) (wm : string)
  (w : World) (st : State) :
  lastProcessedAddedAt state = Some wm →
  truthy wm = true →
  res (incrementalRun state w) = Ok st →
  routedItems (trace (incrementalRun state w)) = newerPrefix wm (w_saved w).
Proof.
  intros Hwm Htruthy Hres.
  destruct (robust_incrementalRun state w st Hres) as (Hrel & <- & _).
  clear Hres. revert Hrel.
  change (w_saved w) with (w_saved (reliable w)).
  assert (Hw : w_failAfter (reliable w) = None) by done.
  generalize dependent (reliable w). clear w. intros w Hw Hres.
  unfold incrementalRun in Hres |- *.
  rewrite (bind_run (gets w_env) _ w w (w_env w) []) in Hres |- * by done.
  cbv beta in Hres |- *.
  destruct (decide (length (getTargetPlaylistIds (w_env w)) = 0));
    [discriminate|].
  set (targets := getTargetPlaylistIds (w_env w)) in *.
  destruct (res (buildProfiles state targets w)) as [[profiles updated]|e]
    eqn:Hbuild; cycle 1.
  { unfold prefixed in Hres. cbn in Hres.
    by rewrite (bind_throw _ _ _ e Hbuild) in Hres. }
  pose proof (robust_stays_reliable _ w _
                (robust_buildProfiles state targets) Hw Hbuild) as Hw1.
  destruct (maintains_buildProfiles sameSaved
              (λ ev, ∀ item pid, ev ≠ EvRoute item pid)
              ltac:(done) ltac:(done) ltac:(done)
              ltac:(by intros) state targets w) as (Hsaved & Htrace1 & _).
  unfold prefixed in Hres |- *. cbn in Hres |- *.
  rewrite (bind_ok _ _ _ _ Hbuild) in Hres |- *. cbn in Hres |- *.
  set (w1 := world (buildProfiles state targets w)) in *.
  destruct (forAwaitSavedTracksFrom_reliable state targets profiles wm
              Hwm Htruthy w1 Hw1 (S (length (w_saved w1))) 0
              ([], lastProcessedAddedAt state) ltac:(lia))
    as ([byPlaylist newest] & t2 & Hloop & Hrouted).
  assert (Hloop' :
    forAwaitSavedTracks (routeItem state targets profiles)
      ([], lastProcessedAddedAt state) w1
    = {| res := Ok (byPlaylist, newest); world := w1; trace := t2 |}).
  { unfold forAwaitSavedTracks.
    rewrite (bind_run (gets w_saved) _ w1 w1 (w_saved w1) []) by done.
    cbv beta. rewrite Hloop. unfold prefixed. by cbn. }
  rewrite (bind_run _ _ _ _ _ _ Hloop') in Hres |- *.
  unfold prefixed in Hres |- *. cbn in Hres |- *.
  destruct (maintains_writePlaylists (λ _ _, True)
              (λ ev, ∀ item pid, ev ≠ EvRoute item pid)
              ltac:(done) ltac:(done) ltac:(by intros) ltac:(done)
              byPlaylist w1) as (_ & Htrace3 & _).
  destruct (res (writePlaylists byPlaylist w1)) as [[]|e] eqn:Hwrite; cycle 1.
  { by rewrite (bind_throw _ _ _ e Hwrite) in Hres. }
  rewrite (bind_ok _ _ _ _ Hwrite). cbn.
  rewrite app_nil_r, !routedItems_app.
  rewrite (routedItems_none _ Htrace1), (routedItems_none _ Htrace3).
  rewrite Hrouted, app_nil_r. simpl. by rewrite Hsaved.
Qed.

(** A successful run of [main] on a state file with a watermark routes
    exactly the liked tracks that come before the first one liked at or
    before the watermark; a first-ever run routes none. *)
Lemma main_routes_newer_prefix (w : World) :
  res (main w) = Ok tt →
  routedItems (trace (main w))
  = if truthy (watermarkOf (w_stateFile w))
    then newerPrefix (watermarkOf (w_stateFile w)) (w_saved w)
    else [].
Proof.
  intros Hok.
  destruct (truthyOpt (lastProcessedAddedAt (loadedState (w_stateFile w))))
    eqn:Hwm.
  - assert (Hstart : lastProcessedAddedAt (startState (w_stateFile w))
                     = Some (watermarkOf (w_stateFile w))).
    { rewrite startState_watermark. unfold watermarkOf.
      by destruct (lastProcessedAddedAt _). }
    assert (Htruthy : truthy (watermarkOf (w_stateFile w)) = true).
    { unfold watermarkOf.
      by destruct (lastProcessedAddedAt (loadedState (w_stateFile w))). }
    rewrite Htruthy.
    rewrite (main_incremental w Hwm) in Hok |- *. cbv zeta in Hok |- *.
    destruct (res (incrementalRun (startState (w_stateFile w)) w))
      as [st|e] eqn:Hres; [|discriminate].
    cbn. change (EvReadState :: ?t) with ([EvReadState] ++ t).
    rewrite !routedItems_app. cbn. rewrite app_nil_r.
    by apply (incrementalRun_routes_newer_prefix _ _ w st).
  - rewrite (main_firstRun w Hwm). cbn.
    by rewrite (falsy_watermark _ Hwm).
Qed.

(** X28.  Along every sequence of successful runs of [main], each
    started on the state file the previous one left, and with timestamps
    ordered as the code orders them, as strings: the persisted watermark
    never decreases; a run either keeps it or replaces it by a strictly
    greater timestamp; a track routed by a run has a like time strictly
    above the watermark at the start of that run and of every earlier run,
    so no track with a like time at or below a watermark the runs started
    from is ever routed; and streaming stops at the first track with a
    like time at or below the watermark: a run routes exactly the liked
    tracks that precede it (and a first-ever run routes none). *)
Theorem watermark_monotone_no_rerouting
  (envs : list World) (f : FileContent State)
  (fs : list (FileContent State)) :
  consecutiveRuns envs f = Some fs →
  (∀ i j a b,
     i ≤ j → (f :: fs) !! i = Some a → (f :: fs) !! j = Some b →
     (watermarkOf a ≤ watermarkOf b)%string)
  ∧ (∀ k a b,
       (f :: fs) !! k = Some a → (f :: fs) !! S k = Some b →
       watermarkOf b = watermarkOf a
       ∨ String.ltb (watermarkOf a) (watermarkOf b) = true)
  ∧ (∀ i j a b env item,
       i ≤ j → (f :: fs) !! i = Some a → (f :: fs) !! j = Some b →
       envs !! j = Some env →
       item ∈ routedItems (trace (main (setStateFile b env))) →
       ¬ (added_at item ≤ watermarkOf a)%string)
  ∧ (∀ k a env,
       (f :: fs) !! k = Some a → envs !! k = Some env →
       routedItems (trace (main (setStateFile a env)))
       = if truthy (watermarkOf a)
         then newerPrefix (watermarkOf a) (w_saved env)
         else []).
Proof.
  intros Hruns. split; [|split; [|split]].
  - intros i j a b. by apply (consecutiveRuns_monotone envs f fs Hruns j i).
  - intros k a b. by apply (consecutiveRuns_adjacent envs f fs).
  - intros i j a b env item Hij Ha Hb Henv Hitem Hle.
    destruct (consecutiveRuns_step _ _ _ Hruns j env b Henv Hb) as [Hok _].
    destruct (run_advances_watermark _ Hok) as [_ Hrouted].
    rewrite setStateFile_stateFile in Hrouted.
    rewrite Forall_forall in Hrouted.
    apply (string_leb_false _ _ (Hrouted item Hitem)).
    trans (watermarkOf a); [done|].
    by apply (consecutiveRuns_monotone envs f fs Hruns j i).
  - intros k a env Ha Henv.
    destruct (consecutiveRuns_step _ _ _ Hruns k env a Henv Ha) as [Hok _].
    by rewrite (main_routes_newer_prefix _ Hok).
Qed.


(** ** The pagination loops end

    The fuel of the two pagination loops is never exhausted: no run of
    [main] ends in [Diverged], whatever the world and the fault budget. *)

Lemma bind_not_diverged {A B} (m : IO A) (f : A → IO B) (w : World) :
  res (m w) ≠ Throw Diverged →
  (∀ a, res (m w) = Ok a → res (f a (world (m w))) ≠ Throw Diverged) →
  res ((m ≫= f) w) ≠ Throw Diverged.
Proof.
  intros Hm Hf. destruct (res (m w)) as [a|e] eqn:Hres.
  - rewrite (bind_ok _ _ _ a Hres). by apply Hf.
  - rewrite (bind_throw _ _ _ e Hres). simpl. congruence.
Qed.

Lemma converges_ret {A} (a : A) : converges (mret a).
Proof. by intros w. Qed.

Lemma converges_throw {A} (e : Error) :
  e ≠ Diverged → converges (throw e : IO A).
Proof. intros He w. io_unfold. simpl. congruence. Qed.

Lemma converges_bind {A B} (m : IO A) (f : A → IO B) :
  converges m → (∀ a, converges (f a)) → converges (m ≫= f).
Proof.
  intros Hm Hf w. apply bind_not_diverged; [apply Hm|].
  intros a _. apply Hf.
Qed.

Lemma converges_callWithRetry {A} (ev : Event) (fn : IO A) :
  converges fn → converges (callWithRetry ev fn).
Proof.
  intros Hfn w. rewrite callWithRetry_run.
  destruct (w_failAfter w) as [[|n]|]; simpl; [done | apply Hfn..].
Qed.

Lemma converges_forOf {A St} (xs : list A) (body : A → St → IO St) :
  (∀ x s, converges (body x s)) → ∀ s, converges (forOf xs body s).
Proof.
  intros Hbody. induction xs as [|x xs IH]; intros s; simpl.
  - apply converges_ret.
  - apply converges_bind; [apply Hbody | apply IH].
Qed.

Ltac converges_step :=
  match goal with
  | |- converges (mret _) => apply converges_ret
  | |- converges (throw _) => by apply converges_throw
  | |- converges (gets _) => by intros ?
  | |- converges (tell _) => by intros ?
  | |- converges (modify _) => by intros ?
  | |- converges (callWithRetry _ _) => apply converges_callWithRetry
  | |- converges (forOf _ _ _) => apply converges_forOf; intros
  | |- converges (_ ≫= _) => apply converges_bind; [|intros ?]
  | |- converges (match ?x with _ => _ end) => destruct x
  end.

(** A page request is rejected, or answered with a page of the listing;
    it changes nothing but the fault budget. *)
Lemma getPlaylistItemsPaginated_cases (w : World) (pid : string)
  (offset : nat) :
  (∃ e, e ≠ Diverged
        ∧ res (getPlaylistItemsPaginated pid 50 offset w) = Throw e)
  ∨ (∃ pl,
       w_playlists w !! pid = Some pl
       ∧ res (getPlaylistItemsPaginated pid 50 offset w)
         = Ok (page 50 offset (playlist_items pl))
       ∧ w_playlists (world (getPlaylistItemsPaginated pid 50 offset w))
         = w_playlists w).
Proof.
  unfold getPlaylistItemsPaginated. rewrite callWithRetry_run.
  unfold spotify_getPlaylistTracks, prefixed. io_unfold.
  destruct (w_failAfter w) as [[|n]|]; simpl.
  - left. by exists CatalogError.
  - destruct (w_playlists w !! pid) as [pl|]; simpl.
    + right. by exists pl.
    + left. by exists CatalogError.
  - destruct (w_playlists w !! pid) as [pl|]; simpl.
    + right. by exists pl.
    + left. by exists CatalogError.
Qed.

Lemma getSavedTracksPaginated_cases (w : World) (offset : nat) :
  (res (getSavedTracksPaginated 50 offset w) = Throw CatalogError)
  ∨ (res (getSavedTracksPaginated 50 offset w)
     = Ok (page 50 offset (w_saved w))
     ∧ w_saved (world (getSavedTracksPaginated 50 offset w)) = w_saved w).
Proof.
  unfold getSavedTracksPaginated. rewrite callWithRetry_run.
  unfold spotify_getMySavedTracks, prefixed. io_unfold.
  destruct (w_failAfter w) as [[|n]|]; simpl; auto.
Qed.

(** The enumeration of a playlist: a round that goes on has received a
    full page, so the listing is over before the fuel is. *)
Lemma iteratePlaylistTracksFrom_not_diverged (pid : string) :
  ∀ fuel offset w,
    from_option (λ pl, length (playlist_items pl)) 0 (w_playlists w !! pid)
      - offset < fuel →
    res (iteratePlaylistTracksFrom fuel pid offset w) ≠ Throw Diverged.
Proof.
  induction fuel as [|fuel IH]; intros offset w Hfuel; [lia|].
  simpl iteratePlaylistTracksFrom.
  destruct (getPlaylistItemsPaginated_cases w pid offset)
    as [(e & He & Hthrow) | (pl & Hpl & Hpage & Hsame)].
  - rewrite (bind_throw _ _ _ e Hthrow). simpl. congruence.
  - rewrite (bind_ok _ _ _ _ Hpage).
    set (w1 := world (getPlaylistItemsPaginated pid 50 offset w)) in *.
    cbn [res]. unfold page. cbn [items next].
    destruct (decide _) as [|Hnonempty]; [done|].
    destruct (decide (offset + 50 < length (playlist_items pl)))
      as [Hnext|Hlast].
    + rewrite bool_decide_true by done. cbn [negb].
      apply bind_not_diverged; [|done].
      apply IH. rewrite Hsame, Hpl. simpl.
      rewrite length_take, length_drop. rewrite Hpl in Hfuel. simpl in Hfuel.
      lia.
    + rewrite bool_decide_false by done. done.
Qed.

Lemma converges_iteratePlaylistTracks pid :
  converges (iteratePlaylistTracks pid).
Proof.
  intros w. unfold iteratePlaylistTracks.
  rewrite (bind_run (gets w_playlists) _ w w (w_playlists w) []) by done.
  unfold prefixed. cbn [res]. cbv beta.
  apply iteratePlaylistTracksFrom_not_diverged. lia.
Qed.

(** The loop over the liked tracks, for a body that ends and leaves the
    liked tracks as they are. *)
Lemma forOfBreak_not_diverged {St} (items : list SavedTrackItem)
  (body : SavedTrackItem → St → IO (LoopStep St)) :
  (∀ x s, converges (body x s)) →
  (∀ x s w, w_saved (world (body x s w)) = w_saved w) →
  ∀ s w,
    res (forOfBreak items body s w) ≠ Throw Diverged
    ∧ w_saved (world (forOfBreak items body s w)) = w_saved w.
Proof.
  intros Hconv Hsaved. induction items as [|x items IH]; intros s w.
  - by split.
  - simpl forOfBreak. destruct (res (body x s w)) as [st|e] eqn:Hres.
    + rewrite (bind_ok _ _ _ st Hres). simpl.
      destruct st as [s'|s'].
      * destruct (IH s' (world (body x s w))) as [Hnd Hsv].
        split; [done|]. by rewrite Hsv.
      * split; [done|]. apply Hsaved.
    + rewrite (bind_throw _ _ _ e Hres). simpl. split; [|apply Hsaved].
      intros [= ->]. by apply (Hconv x s w).
Qed.

Lemma forAwaitSavedTracksFrom_not_diverged {St}
  (body : SavedTrackItem → St → IO (LoopStep St)) :
  (∀ x s, converges (body x s)) →
  (∀ x s w, w_saved (world (body x s w)) = w_saved w) →
  ∀ fuel offset s w,
    length (w_saved w) - offset < fuel →
    res (forAwaitSavedTracksFrom fuel offset body s w) ≠ Throw Diverged.
Proof.
  intros Hconv Hsaved.
  induction fuel as [|fuel IH]; intros offset s w Hfuel; [lia|].
  simpl forAwaitSavedTracksFrom.
  destruct (getSavedTracksPaginated_cases w offset)
    as [Hthrow | [Hpage Hsame]].
  - by rewrite (bind_throw _ _ _ _ Hthrow).
  - rewrite (bind_ok _ _ _ _ Hpage).
    set (w1 := world (getSavedTracksPaginated 50 offset w)) in *.
    cbn [res]. unfold page. cbn [items next].
    destruct (decide _) as [|Hnonempty]; [done|].
    destruct (forOfBreak_not_diverged (take 50 (drop offset (w_saved w)))
                body Hconv Hsaved s w1) as [Hnd Hsv].
    apply bind_not_diverged; [done|].
    intros [s'|s'] Hst; [|done].
    destruct (decide (offset + 50 < length (w_saved w))) as [Hnext|Hlast].
    + rewrite bool_decide_true by done. cbn [negb].
      apply IH. rewrite Hsv, Hsame.
      rewrite length_take, length_drop. lia.
    + rewrite bool_decide_false by done. done.
Qed.

Lemma converges_newDate : converges newDate.
Proof. by intros w. Qed.

Lemma converges_getSeveralArtists ids : converges (getSeveralArtists ids).
Proof.
  unfold getSeveralArtists, spotify_getArtists. repeat converges_step.
Qed.

Lemma converges_getPlaylistSnapshot pid : converges (getPlaylistSnapshot pid).
Proof.
  unfold getPlaylistSnapshot, spotify_getPlaylist. repeat converges_step.
Qed.

Lemma converges_Cache_readFile : converges Cache_readFile.
Proof. unfold Cache_readFile. repeat converges_step. Qed.

Lemma converges_putCachedProfile entry : converges (putCachedProfile entry).
Proof.
  unfold putCachedProfile.
  apply converges_bind; [apply converges_Cache_readFile|]. intros profiles.
  unfold Cache_writeFile. repeat converges_step.
Qed.

Lemma converges_buildPlaylistGenreProfile pid :
  converges (buildPlaylistGenreProfile pid).
Proof.
  unfold buildPlaylistGenreProfile.
  apply converges_bind; [apply converges_getPlaylistSnapshot|]. intros snap.
  apply converges_bind.
  { unfold getCachedProfile.
    apply converges_bind; [apply converges_Cache_readFile|].
    intros; apply converges_ret. }
  intros [c|]; [apply converges_ret|].
  apply converges_bind; [apply converges_iteratePlaylistTracks|].
  intros tracks.
  apply converges_bind.
  { apply converges_forOf. intros batch counts.
    apply converges_bind; [apply converges_getSeveralArtists|].
    intros; apply converges_ret. }
  intros counts.
  apply converges_bind; [apply converges_newDate|]. intros now.
  apply converges_bind; [apply converges_putCachedProfile|].
  intros; apply converges_ret.
Qed.

Lemma converges_buildProfiles state targets :
  converges (buildProfiles state targets).
Proof.
  unfold buildProfiles. apply converges_forOf.
  intros pid [profiles updated].
  apply converges_bind.
  { unfold shouldRebuildProfile.
    destruct (default ∅ (lastProfileRebuildTime state) !! pid) as [l|];
      [|apply converges_ret].
    destruct (truthy l); [|apply converges_ret].
    apply converges_bind; [apply converges_newDate|]. intros now.
    apply converges_bind; [by intros ?|]. intros; apply converges_ret. }
  intros [|].
  - apply converges_bind; [apply converges_buildPlaylistGenreProfile|].
    intros prof.
    apply converges_bind; [apply converges_newDate|].
    intros; apply converges_ret.
  - apply converges_bind; [apply converges_buildPlaylistGenreProfile|].
    intros; apply converges_ret.
Qed.

Lemma converges_routeItem state targets profiles item acc :
  converges (routeItem state targets profiles item acc).
Proof.
  unfold routeItem. destruct acc as [byPlaylist newest].
  destruct (_ && _); [apply converges_ret|].
  apply converges_bind.
  { unfold trackGenresOf. apply converges_forOf. intros batch gs.
    apply converges_bind; [apply converges_getSeveralArtists|].
    intros; apply converges_ret. }
  intros gs.
  apply converges_bind; [by intros ?|]. intros; apply converges_ret.
Qed.

Lemma converges_writePlaylists byPlaylist :
  converges (writePlaylists byPlaylist).
Proof.
  unfold writePlaylists. apply converges_forOf. intros [pid ids] [].
  destruct (decide _); [apply converges_ret|].
  apply converges_bind; [|intros; apply converges_ret].
  unfold addTracksToPlaylistIfMissing.
  apply converges_bind.
  { unfold getPlaylistTrackIdsSet.
    apply converges_bind; [apply converges_iteratePlaylistTracks|].
    intros; apply converges_ret. }
  intros existing. destruct (decide _); [apply converges_ret|].
  apply converges_bind; [|intros; apply converges_ret].
  apply converges_forOf. intros slice [].
  apply converges_callWithRetry.
  unfold spotify_addTracksToPlaylist.
  apply converges_bind; [by intros ?|]. intros pls.
  destruct (pls !! pid); [|by apply converges_throw].
  destruct (mapM fromTrackUri _); [|by apply converges_throw].
  repeat converges_step.
Qed.

(** No run of [main] exhausts the fuel of a pagination loop: its failures
    are the configuration error and the catalog errors only. *)
Lemma main_converges : converges main.
Proof.
  unfold main.
  apply converges_bind; [unfold readState; repeat converges_step|].
  intros loaded. destruct (negb _).
  - unfold firstRun, writeState.
    apply converges_bind; [apply converges_newDate|]. intros now.
    repeat converges_step.
  - apply converges_bind; [|intros; unfold writeState; repeat converges_step].
    unfold incrementalRun.
    apply converges_bind; [by intros ?|]. intros env.
    destruct (decide _); [by apply converges_throw|].
    apply converges_bind; [apply converges_buildProfiles|].
    intros [profiles updated].
    apply converges_bind.
    { intros w. unfold forAwaitSavedTracks.
      rewrite (bind_run (gets w_saved) _ w w (w_saved w) []) by done.
      unfold prefixed. cbn [res]. cbv beta.
      apply forAwaitSavedTracksFrom_not_diverged; [| |lia].
      - intros; apply converges_routeItem.
      - intros item acc w'.
        match goal with
        | |- w_saved (world (routeItem ?st ?tg ?pr _ _ _)) = _ =>
            by destruct (maintains_routeItem sameSaved (λ _, True)
                           ltac:(done) ltac:(done) st tg pr item acc
                           ltac:(done) w') as (Hsaved & _)
        end. }
    intros [byPlaylist newest].
    apply converges_bind; [apply converges_writePlaylists|].
    intros; apply converges_ret.
Qed.


End Properties.

(** * The properties on the sample inputs *)

Lemma sampleWorld_tags_NoDup : ∀ a, NoDup (tagsOf sampleWorld a).
Proof.
  intros a. unfold tagsOf, sampleWorld, sampleGenres. simpl.
  repeat (destruct (String.eqb a _); simpl;
          [apply (bool_decide_unpack _); vm_compute; exact I|]).
  constructor.
Qed.

(** In the rock playlist the artist [a1] is on both tracks and [a2] on
    one; the catalog lists "rock" twice for [a1]: "rock" weighs 3 and
    "pop" 1. *)
Lemma rebuilt_profile_counts_listed_tags_witness :
  ∃ counts,
    res (@buildPlaylistGenreProfile sampleRuntime "rockpl" repeatedTagWorld)
    = Ok counts
    ∧ weightOf counts "rock" = 3%Z
    ∧ weightOf counts "pop" = 1%Z
    ∧ weightOf counts "jazz" = 0%Z.
Proof.
  destruct (@rebuilt_profile_counts_listed_tags sampleRuntime
              repeatedTagWorld "rockpl" rockPlaylist eq_refl eq_refl)
    as [Hweights Hreturns].
  destruct (Hreturns eq_refl) as [counts Hcounts].
  exists counts. split; [exact Hcounts|].
  pose proof (Hweights counts Hcounts) as Hg.
  rewrite (proj1 (Hg "rock")), (proj1 (Hg "pop")), (proj1 (Hg "jazz")).
  vm_compute. auto.
Defined.

(** C1, the claim as stated fails: when the catalog lists "rock" twice
    for the artist [a1], the rock playlist, whose tracks are by [a1] and
    [a2], gets the weight 3 for "rock", a tag that two distinct artists
    carry. *)
Lemma listed_twice_weighs_twice :
  w_playlists repeatedTagWorld !! "rockpl" = Some rockPlaylist
  ∧ List.find (cacheKeyIs "rockpl" (snapshot_id rockPlaylist))
      (cachedProfiles repeatedTagWorld) = None
  ∧ ∃ counts,
      res (@buildPlaylistGenreProfile sampleRuntime "rockpl" repeatedTagWorld)
      = Ok counts
      ∧ weightOf counts "rock" = 3%Z
      ∧ distinctArtistsCarrying repeatedTagWorld rockPlaylist "rock" = 2
      ∧ weightOf counts "rock"
        ≠ Z.of_nat (distinctArtistsCarrying repeatedTagWorld rockPlaylist "rock").
Proof.
  split; [reflexivity|]. split; [reflexivity|].
  eexists. split; [vm_compute; reflexivity|].
  split; [vm_compute; reflexivity|].
  assert (Hn : distinctArtistsCarrying repeatedTagWorld rockPlaylist "rock" = 2)
    by (vm_compute; reflexivity).
  split; [exact Hn|]. rewrite Hn. vm_compute. discriminate.
Qed.

(** Two runs on the sample world: the first routes the two new likes and
    moves the watermark to the newest, the second routes nothing. *)
Lemma watermark_monotone_no_rerouting_witness :
  ∃ fs,
    @consecutiveRuns sampleRuntime [sampleWorld; sampleWorld]
      (Json sampleState) = Some fs
    ∧ map watermarkOf (Json sampleState :: fs)
      = ["2025-02-01T00:00:00Z"; "2025-03-01T00:00:00Z";
         "2025-03-01T00:00:00Z"]
    ∧ (∀ i j a b,
         i ≤ j →
         (Json sampleState :: fs) !! i = Some a →
         (Json sampleState :: fs) !! j = Some b →
         (watermarkOf a ≤ watermarkOf b)%string).
Proof.
  eexists. split; [vm_compute; reflexivity|].
  split; [vm_compute; reflexivity|].
  apply (@watermark_monotone_no_rerouting sampleRuntime
           [sampleWorld; sampleWorld] (Json sampleState)).
  vm_compute. reflexivity.
Defined.

(** C2, a pair of runs on which the claim fails.  The first-ever run, at
    2025-03-01T00:00:00.500Z, stores its time as the watermark; the newest
    like was made half a second before, at 2025-03-01T00:00:00Z.  The next
    run compares the two as strings, and [Z] comes after [.]: the like is
    routed although it was made before the watermark, and the watermark is
    set back to the time of the like. *)
Lemma like_before_first_run_is_routed :
  ∃ f1 f2 env item,
    @consecutiveRuns isoRuntime sameSecondRuns NoFile = Some [f1; f2]
    ∧ sameSecondRuns !! 1 = Some env
    ∧ watermarkOf f1 = "2025-03-01T00:00:00.500Z"
    ∧ item ∈ routedItems (trace (@main isoRuntime (setStateFile f1 env)))
    ∧ added_at item = "2025-03-01T00:00:00Z"
    ∧ @instantBefore isoRuntime (added_at item) (watermarkOf f1)
    ∧ watermarkOf f2 = "2025-03-01T00:00:00Z"
    ∧ @instantBefore isoRuntime (watermarkOf f2) (watermarkOf f1).
Proof.
  eexists _, _, _, _.
  split; [vm_compute; reflexivity|].
  split; [reflexivity|].
  split; [vm_compute; reflexivity|].
  split; [apply list_elem_of_In; vm_compute; left; reflexivity|].
  split; [reflexivity|].
  split; [vm_compute; reflexivity|].
  split; [vm_compute; reflexivity|].
  vm_compute. reflexivity.
Qed.

(** Building the rock profile twice: the first build misses the empty
    cache and rebuilds, the second is served from the cache. *)
Lemma cache_hit_skips_rebuild_changed_version_rebuilds_once_witness :
  ∃ prof,
    res (@buildPlaylistGenreProfile sampleRuntime "rockpl" sampleWorld)
    = Ok prof
    ∧ res (@buildPlaylistGenreProfile sampleRuntime "rockpl"
             (world (@buildPlaylistGenreProfile sampleRuntime "rockpl"
                       sampleWorld)))
      = Ok prof
    ∧ Forall (λ ev, isMembershipOrArtistFetch ev = false)
        (trace (@buildPlaylistGenreProfile sampleRuntime "rockpl"
                  (world (@buildPlaylistGenreProfile sampleRuntime "rockpl"
                            sampleWorld)))).
Proof.
  destruct (@cache_hit_skips_rebuild_changed_version_rebuilds_once
              sampleRuntime) as (_ & Hmiss & Hagain).
  destruct (Hmiss sampleWorld "rockpl" rockPlaylist eq_refl) as [_ Hreturns].
  { intros c Hc. vm_compute in Hc. by apply elem_of_nil in Hc. }
  destruct (Hreturns eq_refl) as [prof Hprof].
  exists prof. split; [exact Hprof|].
  destruct (Hagain sampleWorld "rockpl" rockPlaylist prof eq_refl Hprof)
    as (_ & Hquiet & _ & Hsame).
  split; [|exact Hquiet].
  apply Hsame. vm_compute. discriminate.
Defined.

(** C4, the claim as stated fails: with no target playlist configured and
    a watermark in the state file, the configuration error comes after a
    state read. *)
Lemma config_error_follows_state_read :
  getTargetPlaylistIds (w_env noTargetsWorld) = []
  ∧ @main sampleRuntime noTargetsWorld
    = {| res := Throw ConfigurationError; world := noTargetsWorld;
         trace := [EvReadState] |}
  ∧ ¬ Forall (λ ev, isStateIO ev = false)
        (trace (@main sampleRuntime noTargetsWorld)).
Proof.
  split; [reflexivity|]. split; [vm_compute; reflexivity|].
  intros Hnone. vm_compute in Hnone.
  apply Forall_cons in Hnone as [Hread _]. discriminate.
Qed.

Lemma no_targets_error_follows_state_read_witness :
  getTargetPlaylistIds (w_env noTargetsWorld) = []
  ∧ @main sampleRuntime noTargetsWorld
    = {| res := Throw ConfigurationError; world := noTargetsWorld;
         trace := [EvReadState] |}.
Proof.
  split; [reflexivity|].
  apply (@no_targets_error_follows_state_read sampleRuntime noTargetsWorld);
    reflexivity.
Defined.

Lemma first_run_sets_watermark_and_stops_witness :
  res (@main sampleRuntime freshWorld) = Ok tt
  ∧ w_stateFile (world (@main sampleRuntime freshWorld))
    = Json {| lastProcessedAddedAt := Some "2025-05-01T00:00:00.000Z";
              lastProfileRebuildTime := Some ∅ |}
  ∧ routedItems (trace (@main sampleRuntime freshWorld)) = [].
Proof.
  destruct (@first_run_sets_watermark_and_stops sampleRuntime freshWorld
              eq_refl)
    as (Hres & Hfile & _ & _ & Hrouted & _).
  split; [exact Hres|]. split; [|exact Hrouted].
  rewrite Hfile. reflexivity.
Defined.

(** A run whose catalog gives up during routing. *)
Lemma aborted_run_leaves_state_witness :
  res (@main sampleRuntime failingWorld) = Throw CatalogError
  ∧ w_stateFile (world (@main sampleRuntime failingWorld))
    = Json sampleState.
Proof.
  assert (Hres : res (@main sampleRuntime failingWorld) = Throw CatalogError)
    by (vm_compute; reflexivity).
  split; [exact Hres|].
  apply (@aborted_run_leaves_state sampleRuntime failingWorld CatalogError
           Hres).
Defined.

(** Adding a track that is in the rock playlist and one that is not. *)
Lemma addTracksToPlaylistIfMissing_idempotent_witness :
  res (addTracksToPlaylistIfMissing "rockpl" ["t1"; "n9"] sampleWorld)
  = Ok {| added := 1; skipped := 1 |}
  ∧ res (addTracksToPlaylistIfMissing "rockpl" ["t1"; "n9"]
           (world (addTracksToPlaylistIfMissing "rockpl" ["t1"; "n9"]
                     sampleWorld)))
    = Ok {| added := 0; skipped := 2 |}.
Proof.
  assert (Hres :
    res (addTracksToPlaylistIfMissing "rockpl" ["t1"; "n9"] sampleWorld)
    = Ok {| added := 1; skipped := 1 |}) by (vm_compute; reflexivity).
  split; [exact Hres|].
  destruct (addTracksToPlaylistIfMissing_idempotent sampleWorld "rockpl"
              ["t1"; "n9"] _ Hres)
    as (_ & _ & _ & _ & _ & _ & Hsecond).
  apply Hsecond. vm_compute. reflexivity.
Defined.

(** A state file that is not JSON: the watermark is dropped silently and
    the run is a first run. *)
Lemma readState_never_throws_witness :
  res (readState corruptStateWorld) = Ok emptyState
  ∧ res (@main sampleRuntime corruptStateWorld) = Ok tt
  ∧ watermarkOf (w_stateFile (world (@main sampleRuntime corruptStateWorld)))
    = "2025-05-01T00:00:00.000Z".
Proof.
  destruct (@readState_never_throws sampleRuntime) as [_ Hcorrupt].
  destruct (Hcorrupt corruptStateWorld) as (Hread & Hmain & _).
  { right. eexists. reflexivity. }
  split; [exact Hread|]. split; [exact Hmain|].
  vm_compute. reflexivity.
Defined.

(** * Further properties of the code *)

Lemma eqb_eq' (a b : string) : String.eqb a b = true ↔ a = b.
Proof. apply String.eqb_eq. Qed.

Lemma takeAlnum_idem (s : string) : takeAlnum (takeAlnum s) = takeAlnum s.
Proof.
  induction s as [|c s IH]; simpl; [done|].
  destruct (isAlnum c) eqn:Hc; simpl; [|done]. by rewrite Hc, IH.
Qed.

Lemma allAlnum_spec (s : string) :
  allAlnum s = true ↔ s ≠ "" ∧ takeAlnum s = s.
Proof.
  unfold allAlnum. rewrite andb_true_iff, String.eqb_eq.
  unfold truthy. rewrite negb_true_iff, String.eqb_neq. done.
Qed.

Lemma matchUrl_wellformed (s id : string) :
  matchUrl s = Some id → allAlnum id = true.
Proof.
  induction s as [|c s IH].
  - simpl. discriminate.
  - cbn [matchUrl].
    destruct (String.prefix "open.spotify.com/playlist/" (String c s)).
    + destruct (truthy (takeAlnum _)) eqn:Ht.
      * intros [= <-]. apply allAlnum_spec. split.
        -- unfold truthy in Ht. by apply negb_true_iff, String.eqb_neq in Ht.
        -- apply takeAlnum_idem.
      * apply IH.
    + apply IH.
Qed.

Lemma extractPlaylistId_alnum (raw id : string) :
  extractPlaylistId raw = Some id → allAlnum id = true.
Proof.
  unfold extractPlaylistId.
  destruct (matchColon (trim raw)) as [i|] eqn:Hc.
  - intros [= <-]. unfold matchColon in Hc.
    destruct (String.prefix _ _); [|done].
    destruct (allAlnum _) eqn:Ha; [|done]. by injection Hc as <-.
  - destruct (matchUrl (trim raw)) as [i|] eqn:Hu.
    + intros [= <-]. by eapply matchUrl_wellformed.
    + destruct (allAlnum _) eqn:Ha; [|done]. by intros [= <-].
Qed.

(** *** Strings *)

Lemma str_app_cons (c : Ascii.ascii) (s t : string) :
  String c s +:+ t = String c (s +:+ t).
Proof. reflexivity. Qed.

Lemma str_app_nil_l (t : string) : "" +:+ t = t.
Proof. reflexivity. Qed.

Lemma str_app_nil_r (s : string) : s +:+ "" = s.
Proof. induction s as [|c s IH]; [done|]. by rewrite str_app_cons, IH. Qed.

Lemma str_app_assoc (s t u : string) : (s +:+ t) +:+ u = s +:+ (t +:+ u).
Proof. induction s as [|c s IH]; [done|]. by rewrite !str_app_cons, IH. Qed.

Lemma rev_app_spec (s acc : string) :
  String.rev_app s acc = String.rev s +:+ acc.
Proof.
  unfold String.rev. revert acc.
  induction s as [|c s IH]; intros acc; simpl; [done|].
  rewrite (IH (String c acc)), (IH (String c "")).
  by rewrite str_app_assoc.
Qed.

Lemma str_rev_cons (c : Ascii.ascii) (s : string) :
  String.rev (String c s) = String.rev s +:+ String c "".
Proof. unfold String.rev at 1. simpl. apply rev_app_spec. Qed.

Lemma str_rev_app_distr (s t : string) :
  String.rev (s +:+ t) = String.rev t +:+ String.rev s.
Proof.
  induction s as [|c s IH].
  - by rewrite str_app_nil_l, str_app_nil_r.
  - by rewrite str_app_cons, !str_rev_cons, IH, str_app_assoc.
Qed.

Lemma str_rev_involutive (s : string) : String.rev (String.rev s) = s.
Proof.
  induction s as [|c s IH]; [done|].
  by rewrite str_rev_cons, str_rev_app_distr, IH.
Qed.

(** [trimStart] leaves a suffix, and all of a text that follows a
    character that is not white space. *)
Lemma trimStart_app (a : string) (c : Ascii.ascii) (b : string) :
  Ascii.is_space c = false →
  ∃ pre a', a = pre +:+ a' ∧ trimStart (a +:+ String c b) = a' +:+ String c b.
Proof.
  intros Hc. induction a as [|x a IH].
  - exists "", "". split; [done|]. rewrite str_app_nil_l. simpl. by rewrite Hc.
  - rewrite str_app_cons. simpl. destruct (Ascii.is_space x) eqn:Hx.
    + destruct IH as (pre & a' & -> & ->).
      by exists (String x pre), a'.
    + by exists "", (String x a).
Qed.

(** Trimming a text that begins with [p], itself free of white space at
    both ends, keeps [p] and shortens what follows. *)
Lemma trim_keeps (p q : string) :
  (∃ c p', p = String c p' ∧ Ascii.is_space c = false) →
  (∃ p0 l, p = p0 +:+ String l "" ∧ Ascii.is_space l = false) →
  ∃ q' r, q = q' +:+ r ∧ trim (p +:+ q) = p +:+ q'.
Proof.
  intros (c & p' & Hp & Hc) (p0 & l & Hp0 & Hl). unfold trim.
  assert (Hstart : trimStart (p +:+ q) = p +:+ q).
  { rewrite Hp, str_app_cons. simpl. by rewrite Hc. }
  rewrite Hstart, str_rev_app_distr.
  assert (Hz : String.rev p = String l (String.rev p0)).
  { by rewrite Hp0, str_rev_app_distr. }
  rewrite Hz.
  destruct (trimStart_app (String.rev q) l (String.rev p0) Hl)
    as (pre & a' & Hq & ->).
  exists (String.rev a'), (String.rev pre). split.
  - by rewrite <- str_rev_app_distr, <- Hq, str_rev_involutive.
  - by rewrite str_rev_app_distr, <- Hz, str_rev_involutive.
Qed.

Lemma trim_id (p : string) :
  (∃ c p', p = String c p' ∧ Ascii.is_space c = false) →
  (∃ p0 l, p = p0 +:+ String l "" ∧ Ascii.is_space l = false) →
  trim p = p.
Proof.
  intros H1 H2. destruct (trim_keeps p "" H1 H2) as (q' & r & Hq & Ht).
  rewrite str_app_nil_r in Ht. rewrite Ht.
  destruct q'; [apply str_app_nil_r | done].
Qed.

Lemma isAlnum_not_space (c : Ascii.ascii) :
  isAlnum c = true → Ascii.is_space c = false.
Proof. destruct c as [[][][][][][][][]]; vm_compute; congruence. Qed.

Lemma takeAlnum_cons (c : Ascii.ascii) (s : string) :
  takeAlnum (String c s) = String c s →
  isAlnum c = true ∧ takeAlnum s = s.
Proof.
  simpl. destruct (isAlnum c); [|done]. intros [= ?]. done.
Qed.

Lemma takeAlnum_last (s : string) :
  s ≠ "" → takeAlnum s = s →
  ∃ p0 l, s = p0 +:+ String l "" ∧ isAlnum l = true.
Proof.
  induction s as [|c s IH]; [done|]. intros _ Hs.
  apply takeAlnum_cons in Hs as [Hc Hs].
  destruct s as [|c' s'].
  - by exists "", c.
  - destruct (IH ltac:(done) Hs) as (p0 & l & -> & Hl).
    by exists (String c p0), l.
Qed.

Lemma takeAlnum_app_stop (id : string) (c : Ascii.ascii) (r : string) :
  takeAlnum id = id → isAlnum c = false →
  takeAlnum (id +:+ String c r) = id.
Proof.
  intros Hid Hc. induction id as [|x id IH].
  - rewrite str_app_nil_l. simpl. by rewrite Hc.
  - apply takeAlnum_cons in Hid as [Hx Hid].
    rewrite str_app_cons. simpl. rewrite Hx. by rewrite IH.
Qed.

Lemma alnum_first (id : string) :
  allAlnum id = true →
  ∃ c p', id = String c p' ∧ isAlnum c = true.
Proof.
  intros [Hne Hid]%allAlnum_spec. destruct id as [|c p']; [done|].
  apply takeAlnum_cons in Hid as [Hc _]. by exists c, p'.
Qed.

Lemma alnum_last (id : string) :
  allAlnum id = true →
  ∃ p0 l, id = p0 +:+ String l "" ∧ isAlnum l = true.
Proof. intros [Hne Hid]%allAlnum_spec. by apply takeAlnum_last. Qed.

Lemma str_prefix_app (p s : string) :
  String.prefix p s = true ↔ ∃ r, s = p +:+ r.
Proof.
  revert s. induction p as [|c p IH]; intros s.
  - split; [intros _; by exists s | by destruct s].
  - destruct s as [|c' s]; simpl.
    + split; [done | by intros [r ?]].
    + destruct (Ascii.ascii_dec c c') as [->|Hne].
      * rewrite IH. split; intros [r Hr]; exists r.
        -- by rewrite str_app_cons, Hr.
        -- rewrite str_app_cons in Hr. by injection Hr.
      * split; [done|]. intros [r Hr]. rewrite str_app_cons in Hr.
        by injection Hr.
Qed.

Lemma occursIn_app (n : N) (s t : string) :
  occursIn n (s +:+ t) = occursIn n s || occursIn n t.
Proof.
  induction s as [|c s IH]; [done|].
  rewrite str_app_cons. simpl. by rewrite IH, orb_assoc.
Qed.

Lemma isAlnum_occurs (n : N) (s : string) :
  takeAlnum s = s →
  (∀ c, Ascii.N_of_ascii c = n → isAlnum c = false) →
  occursIn n s = false.
Proof.
  intros Hs Hn. induction s as [|c s IH]; [done|].
  apply takeAlnum_cons in Hs as [Hc Hs]. simpl. rewrite (IH Hs), orb_false_r.
  apply N.eqb_neq. intros Heq. apply Hn in Heq. congruence.
Qed.

Lemma matchUrl_cons (c : Ascii.ascii) (s : string) :
  matchUrl (String c s) =
    if String.prefix "open.spotify.com/playlist/" (String c s)
    then
      let id :=
        takeAlnum
          (dropChars (String.length "open.spotify.com/playlist/") (String c s))
      in if truthy id then Some id else matchUrl s
    else matchUrl s.
Proof.
  cbn [matchUrl].
  destruct (String.prefix _ _); [|done]. cbv zeta. by destruct (truthy _).
Qed.

Lemma matchUrl_no_dot (s : string) :
  occursIn 46 s = false → matchUrl s = None.
Proof.
  induction s as [|c s IH]; intros Hs; [done|].
  rewrite matchUrl_cons.
  destruct (String.prefix _ _) eqn:Hp.
  - apply str_prefix_app in Hp as [r Hr]. rewrite Hr in Hs.
    rewrite occursIn_app in Hs. vm_compute in Hs. done.
  - apply IH. simpl in Hs. by apply orb_false_iff in Hs as [_ ?].
Qed.

Lemma matchColon_no_colon (s : string) :
  occursIn 58 s = false → matchColon s = None.
Proof.
  intros Hs. unfold matchColon.
  destruct (String.prefix _ _) eqn:Hp; [|done].
  apply str_prefix_app in Hp as [r Hr]. rewrite Hr, occursIn_app in Hs.
  vm_compute in Hs. done.
Qed.

Lemma splitOn_no_sep (n : N) (s : string) :
  occursIn n s = false → splitOn n s = [s].
Proof.
  induction s as [|c s IH]; intros Hs; [done|]. simpl in *.
  apply orb_false_iff in Hs as [Hc Hs]. rewrite Hc, (IH Hs). done.
Qed.

Lemma splitOn_head (n : N) (s : string) (c : Ascii.ascii) (r : string) :
  occursIn n s = false → Ascii.N_of_ascii c = n →
  head (splitOn n (s +:+ String c r)) = Some s.
Proof.
  intros Hs Hc. induction s as [|x s IH].
  - rewrite str_app_nil_l. simpl. rewrite Hc, N.eqb_refl. done.
  - rewrite str_app_cons. simpl in *.
    apply orb_false_iff in Hs as [Hx Hs]. rewrite Hx.
    specialize (IH Hs). destruct (splitOn n (s +:+ String c r)); [done|].
    simpl in *. by injection IH as ->.
Qed.

Lemma alnum_no (n : N) (id : string) :
  allAlnum id = true →
  (∀ c, Ascii.N_of_ascii c = n → isAlnum c = false) →
  occursIn n id = false.
Proof. intros [_ Hid]%allAlnum_spec. by apply isAlnum_occurs. Qed.

Lemma not_alnum_code (n : N) :
  ((48 <=? n) && (n <=? 57) || (65 <=? n) && (n <=? 90)
   || (97 <=? n) && (n <=? 122))%N = false →
  ∀ c, Ascii.N_of_ascii c = n → isAlnum c = false.
Proof. intros Hn c <-. exact Hn. Qed.

Lemma matchColon_other_start (c : Ascii.ascii) (t : string) :
  Ascii.N_of_ascii c ≠ 115%N → matchColon (String c t) = None.
Proof.
  intros Hc. unfold matchColon.
  destruct (String.prefix _ _) eqn:Hp; [|done].
  apply str_prefix_app in Hp as [r Hr]. rewrite str_app_cons in Hr.
  injection Hr as -> _. by destruct Hc.
Qed.

Lemma matchUrl_https (t : string) :
  truthy (takeAlnum t) = true →
  matchUrl ("https://open.spotify.com/playlist/" +:+ t) = Some (takeAlnum t).
Proof.
  intros Ht.
  assert (Hp : String.prefix "open.spotify.com/playlist/"
                 ("open.spotify.com/playlist/" +:+ t) = true)
    by (apply str_prefix_app; eauto).
  assert (Hd : dropChars (String.length "open.spotify.com/playlist/")
                 ("open.spotify.com/playlist/" +:+ t) = t) by reflexivity.
  change ("https://open.spotify.com/playlist/" +:+ t)
    with ("https://" +:+ "open.spotify.com/playlist/" +:+ t).
  revert Hp Hd.
  generalize ("open.spotify.com/playlist/" +:+ t). intros u Hu Hd.
  rewrite !str_app_cons, str_app_nil_l.
  do 8 (rewrite matchUrl_cons; simpl String.prefix; cbv iota).
  destruct u as [|c u]; [done|].
  rewrite matchUrl_cons, Hu. cbv zeta. rewrite Hd, Ht. done.
Qed.

Lemma occursIn_prefix (n : N) (s t : string) :
  occursIn n (s +:+ t) = false → occursIn n s = false.
Proof. rewrite occursIn_app. by intros [? _]%orb_false_iff. Qed.

Lemma extractPlaylistId_forms (id q : string) :
  allAlnum id = true →
  extractPlaylistId id = Some id
  ∧ extractPlaylistId ("spotify:playlist:" +:+ id) = Some id
  ∧ extractPlaylistId ("https://open.spotify.com/playlist/" +:+ id) = Some id
  ∧ extractPlaylistId
      ("https://open.spotify.com/playlist/" +:+ id +:+ "?" +:+ q) = Some id
  ∧ (occursIn 46 q = false →
     extractPlaylistId (id +:+ "?" +:+ q) = Some id).
Proof.
  intros Hid.
  destruct (alnum_first id Hid) as (c & p' & Hfirst & Hc).
  destruct (alnum_last id Hid) as (p0 & l & Hlast & Hl).
  pose proof (isAlnum_not_space c Hc) as Hcs.
  pose proof (isAlnum_not_space l Hl) as Hls.
  pose proof (alnum_no 58 id Hid (not_alnum_code 58 eq_refl)) as Hcolon.
  pose proof (alnum_no 46 id Hid (not_alnum_code 46 eq_refl)) as Hdot.
  pose proof (alnum_no 63 id Hid (not_alnum_code 63 eq_refl)) as Hquest.
  pose proof (proj1 (allAlnum_spec id) Hid) as [Hne Htake].
  assert (Htruthy : truthy id = true).
  { unfold truthy. by apply negb_true_iff, String.eqb_neq. }
  split; [|split; [|split; [|split]]].
  - unfold extractPlaylistId.
    rewrite (trim_id id) by eauto.
    rewrite (matchColon_no_colon id Hcolon), (matchUrl_no_dot id Hdot).
    rewrite (splitOn_no_sep 63 id Hquest). simpl. by rewrite Hid.
  - unfold extractPlaylistId.
    rewrite (trim_id ("spotify:playlist:" +:+ id)).
    + unfold matchColon.
      assert (Hp : String.prefix "spotify:playlist:" ("spotify:playlist:" +:+ id)
                   = true) by (apply str_prefix_app; eauto).
      rewrite Hp.
      change (dropChars _ ("spotify:playlist:" +:+ id)) with id.
      by rewrite Hid.
    + by eexists _, _.
    + exists ("spotify:playlist:" +:+ p0), l. split; [|done].
      by rewrite Hlast, str_app_assoc.
  - unfold extractPlaylistId.
    rewrite (trim_id ("https://open.spotify.com/playlist/" +:+ id)).
    + rewrite str_app_cons at 1. rewrite matchColon_other_start by done.
      rewrite matchUrl_https; rewrite Htake; done.
    + by eexists _, _.
    + exists ("https://open.spotify.com/playlist/" +:+ p0), l. split; [|done].
      by rewrite Hlast, str_app_assoc.
  - unfold extractPlaylistId.
    destruct (trim_keeps ("https://open.spotify.com/playlist/" +:+ id +:+ "?") q)
      as (q' & r & Hq & Htrim).
    { by eexists _, _. }
    { eexists ("https://open.spotify.com/playlist/" +:+ id), _.
      split; [by rewrite str_app_assoc|done]. }
    rewrite !str_app_assoc in Htrim. rewrite Htrim.
    rewrite str_app_cons at 1. rewrite matchColon_other_start by done.
    assert (Ht : takeAlnum (id +:+ "?" +:+ q') = id)
      by (by apply takeAlnum_app_stop).
    rewrite matchUrl_https; rewrite Ht; done.
  - intros Hq. unfold extractPlaylistId.
    destruct (trim_keeps (id +:+ "?") q) as (q' & r & Hqr & Htrim).
    { exists c, (p' +:+ "?"). split; [|done]. by rewrite Hfirst. }
    { by eexists id, _. }
    rewrite !str_app_assoc in Htrim. rewrite Htrim.
    rewrite Hqr in Hq. apply occursIn_prefix in Hq.
    assert (Ht : takeAlnum (id +:+ "?" +:+ q') = id)
      by (by apply takeAlnum_app_stop).
    assert (Hcol : matchColon (id +:+ "?" +:+ q') = None).
    { unfold matchColon. destruct (String.prefix _ _) eqn:Hp; [|done].
      apply str_prefix_app in Hp as [u Hu]. rewrite Hu in Ht.
      vm_compute in Ht. rewrite <- Ht in Hu. vm_compute in Hu. discriminate. }
    rewrite Hcol, matchUrl_no_dot.
    2:{ rewrite !occursIn_app, Hdot, Hq. done. }
    rewrite (str_app_cons _ "" q'), str_app_nil_l.
    rewrite (splitOn_head 63 id _ q' Hquest) by done. simpl. by rewrite Hid.
Qed.

(** X1.  [extractPlaylistId] accepts the three spellings of a playlist
    reference: for every non-empty id of letters and digits, the bare id,
    the URI [spotify:playlist:<id>] and the web address
    [https://open.spotify.com/playlist/<id>] all yield the id; so does the
    web address followed by any query, and the bare id followed by a query
    without a dot. *)
Theorem extractPlaylistId_accepts (id q : string) :
  allAlnum id = true →
  extractPlaylistId id = Some id
  ∧ extractPlaylistId ("spotify:playlist:" +:+ id) = Some id
  ∧ extractPlaylistId ("https://open.spotify.com/playlist/" +:+ id) = Some id
  ∧ extractPlaylistId
      ("https://open.spotify.com/playlist/" +:+ id +:+ "?" +:+ q) = Some id
  ∧ (occursIn 46 q = false →
     extractPlaylistId (id +:+ "?" +:+ q) = Some id).
Proof. apply extractPlaylistId_forms. Qed.

(** X2.  Whatever [extractPlaylistId] returns is a non-empty string of
    letters and digits, and extracting from it again returns it
    unchanged. *)
Theorem extractPlaylistId_normalises (raw id : string) :
  extractPlaylistId raw = Some id →
  allAlnum id = true ∧ id ≠ "" ∧ extractPlaylistId id = Some id.
Proof.
  intros Hraw. pose proof (extractPlaylistId_alnum raw id Hraw) as Hid.
  split; [done|]. split.
  - by apply allAlnum_spec in Hid as [? _].
  - by apply (extractPlaylistId_forms id "").
Qed.

Lemma pushTarget_app (v : string) (out : list string) :
  pushTarget (Some v) out = out ++ omap extractPlaylistId [v].
Proof.
  unfold pushTarget. simpl. destruct (truthy v) eqn:Hv.
  - destruct (extractPlaylistId v); [done | by rewrite app_nil_r].
  - unfold truthy in Hv. apply negb_false_iff, String.eqb_eq in Hv as ->.
    vm_compute extractPlaylistId. by rewrite app_nil_r.
Qed.

Lemma foldl_pushTarget (parts : list string) :
  ∀ out,
    foldl (λ out part, pushTarget (Some part) out) out parts
    = out ++ omap extractPlaylistId parts.
Proof.
  induction parts as [|p parts IH]; intros out; cbn [foldl omap list_omap].
  - by rewrite app_nil_r.
  - rewrite IH, pushTarget_app. cbn [omap list_omap].
    destruct (extractPlaylistId p); simpl; by rewrite <- ?app_assoc, ?app_nil_r.
Qed.

Lemma foldl_numbered (env : list (string * string)) :
  ∀ out,
    foldl (λ out '(k, v),
             if String.prefix "TARGET_PLAYLIST_ID_" k
             then pushTarget (Some v) out else out)
      out env
    = out ++ omap extractPlaylistId (numberedTargets env).
Proof.
  unfold numberedTargets.
  induction env as [|[k v] env IH]; intros out; cbn [foldl List.filter map].
  - by rewrite app_nil_r.
  - rewrite IH. cbn [fst]. destruct (String.prefix _ k); [|done].
    rewrite pushTarget_app. cbn [omap list_omap map snd].
    destruct (extractPlaylistId v); simpl; by rewrite <- ?app_assoc, ?app_nil_r.
Qed.

Lemma elem_of_omap_extract (l : list string) (id : string) :
  id ∈ omap extractPlaylistId l → allAlnum id = true.
Proof.
  rewrite list_elem_of_omap. intros (raw & _ & Hraw).
  by eapply extractPlaylistId_alnum.
Qed.

(** X3.  [getTargetPlaylistIds] is the list of the ids recognised in the
    parts of [TARGET_PLAYLIST_IDS], then in the values of the variables
    [TARGET_PLAYLIST_ID_*] in the order of the environment, each id kept
    at its first occurrence: the result has no duplicates, every id in it
    is well formed and comes from one of these values, and the values that
    are empty or not a playlist reference are skipped. *)
Theorem getTargetPlaylistIds_listed_then_numbered
  (env : list (string * string)) :
  getTargetPlaylistIds env
  = Set_addAll
      (omap extractPlaylistId (listedTargets env ++ numberedTargets env)) []
  ∧ NoDup (getTargetPlaylistIds env)
  ∧ (∀ id, id ∈ getTargetPlaylistIds env →
       allAlnum id = true
       ∧ ∃ raw, raw ∈ listedTargets env ++ numberedTargets env
                ∧ extractPlaylistId raw = Some id).
Proof.
  assert (Heq : getTargetPlaylistIds env
    = Set_addAll
        (omap extractPlaylistId (listedTargets env ++ numberedTargets env)) []).
  { unfold getTargetPlaylistIds, listedTargets.
    rewrite foldl_numbered, omap_app. f_equal. f_equal.
    destruct (envLookup _ env) as [ids|]; [|done].
    destruct (truthy ids) eqn:Hids.
    - by rewrite foldl_pushTarget.
    - unfold truthy in Hids. by apply negb_false_iff, String.eqb_eq in Hids as ->. }
  split; [done|]. rewrite Heq. split.
  - apply Set_addAll_NoDup. constructor.
  - intros id [Hin | Hin%elem_of_nil]%elem_of_Set_addAll; [|done].
    split; [by eapply elem_of_omap_extract|].
    by apply list_elem_of_omap in Hin.
Qed.

(** ** Scores and rankings *)

Lemma score_app (gs1 gs2 : list string) (profile : GenreProfile) :
  scoreTrackAgainstProfile (gs1 ++ gs2) profile
  = (scoreTrackAgainstProfile gs1 profile
     + scoreTrackAgainstProfile gs2 profile)%Z.
Proof.
  unfold scoreTrackAgainstProfile. rewrite foldl_app.
  rewrite (foldl_score_acc profile gs2 (foldl _ _ _)).
  rewrite (foldl_score_acc profile gs2 0). lia.
Qed.

Lemma score_cons (g : string) (gs : list string) (profile : GenreProfile) :
  scoreTrackAgainstProfile (g :: gs) profile
  = (weightOf profile g + scoreTrackAgainstProfile gs profile)%Z.
Proof. by rewrite (score_app [g] gs). Qed.

(** X4.  The score is additive over the genre list (a genre listed twice
    counts twice), does not depend on the order of the genres, and is not
    changed by the genres the profile does not have. *)
Theorem scoreTrackAgainstProfile_additive (profile : GenreProfile) :
  (∀ gs1 gs2,
     scoreTrackAgainstProfile (gs1 ++ gs2) profile
     = (scoreTrackAgainstProfile gs1 profile
        + scoreTrackAgainstProfile gs2 profile)%Z)
  ∧ (∀ gs1 gs2,
       gs1 ≡ₚ gs2 →
       scoreTrackAgainstProfile gs1 profile
       = scoreTrackAgainstProfile gs2 profile)
  ∧ (∀ gs,
       scoreTrackAgainstProfile
         (List.filter (λ g, bool_decide (is_Some (profile !! g))) gs) profile
       = scoreTrackAgainstProfile gs profile).
Proof.
  split; [|split].
  - intros. apply score_app.
  - intros gs1 gs2 Hp. induction Hp as [|g l1 l2 _ IH|g1 g2 l|l1 l2 l3 _ IH1 _ IH2].
    + done.
    + by rewrite !score_cons, IH.
    + rewrite !score_cons. lia.
    + congruence.
  - intros gs. induction gs as [|g gs IH]; [done|].
    cbn [List.filter]. rewrite score_cons.
    destruct (profile !! g) as [v|] eqn:Hg; simpl.
    + rewrite score_cons, IH. done.
    + rewrite IH. unfold weightOf. rewrite Hg. simpl. lia.
Qed.

(** X5.  [pickBestPlaylist] returns [null] exactly when every profile
    scores below zero (in particular for an empty mapping); an id it
    returns is a key of the mapping, with a score of at least zero. *)
Theorem pickBestPlaylist_null_iff_all_negative
  (trackGenres : list string) (profiles : Record GenreProfile) :
  (pickBestPlaylist trackGenres profiles = None
   ↔ Forall (λ q, (scoreTrackAgainstProfile trackGenres q.2 < 0)%Z)
       (Object_entries profiles))
  ∧ (∀ pid,
       pickBestPlaylist trackGenres profiles = Some pid →
       ∃ prof, (pid, prof) ∈ Object_entries profiles
               ∧ (0 ≤ scoreTrackAgainstProfile trackGenres prof)%Z).
Proof.
  unfold pickBestPlaylist, Object_entries.
  destruct (pickBestLoop_first_max trackGenres profiles None (-1)%Z)
    as [[Hall Hres] | (i & pid & prof & Hi & Hres & Hbeat & Hmax & _)].
  - rewrite Hres. split; [|done]. split; [|done]. intros _.
    eapply Forall_impl; [exact Hall|]. simpl. intros; lia.
  - rewrite Hres. split.
    + split; [done|]. intros Hall. rewrite Forall_lookup in Hall.
      specialize (Hall i _ Hi). simpl in Hall. lia.
    + intros pid' [= <-]. exists prof. split; [|lia].
      by eapply list_elem_of_lookup_2.
Qed.

Lemma insertByScore_head (x : string * Z) (l : list (string * Z)) :
  head (insertByScore x l)
  = match head l with
    | Some y => if (y.2 <=? x.2)%Z then Some x else Some y
    | None => Some x
    end.
Proof. destruct l as [|y l]; simpl; [done|]. by destruct (_ <=? _)%Z. Qed.

(** The head of the stable descending sort is the first maximum. *)
Lemma sortScores_head (l : list (string * Z)) :
  match head (sortScores l) with
  | None => l = []
  | Some x =>
      ∃ i, l !! i = Some x
           ∧ (∀ j y, l !! j = Some y → (y.2 ≤ x.2)%Z)
           ∧ (∀ j y, j < i → l !! j = Some y → (y.2 < x.2)%Z)
  end.
Proof.
  induction l as [|a l IH]; [done|].
  cbn [sortScores foldr]. rewrite insertByScore_head.
  fold (sortScores l). destruct (head (sortScores l)) as [y|].
  - destruct IH as (i & Hi & Hmax & Hfirst).
    destruct (Z.leb_spec y.2 a.2) as [Hle|Hgt].
    + exists 0. split; [done|]. split.
      * intros [|j] z Hz; simpl in Hz.
        -- injection Hz as <-. lia.
        -- specialize (Hmax j z Hz). lia.
      * intros; lia.
    + exists (S i). split; [done|]. split.
      * intros [|j] z Hz; simpl in Hz.
        -- injection Hz as <-. lia.
        -- by apply (Hmax j).
      * intros [|j] z Hj Hz; simpl in Hz.
        -- injection Hz as <-. lia.
        -- apply (Hfirst j); [lia | done].
  - subst l. exists 0. split; [done|]. split.
    + intros [|j] z Hz; simpl in Hz; [|done]. injection Hz as <-. lia.
    + intros; lia.
Qed.

Lemma ranking_first_maximum
  (trackGenres : list string) (profiles : Record GenreProfile) :
  match head (ranking trackGenres profiles) with
  | None =>
      profiles = [] ∧ pickBestPlaylist trackGenres profiles = None
  | Some (pid, s) =>
      (∃ i prof,
         Object_entries profiles !! i = Some (pid, prof)
         ∧ s = scoreTrackAgainstProfile trackGenres prof
         ∧ (∀ j q, Object_entries profiles !! j = Some q →
              (scoreTrackAgainstProfile trackGenres q.2 ≤ s)%Z)
         ∧ (∀ j q, j < i → Object_entries profiles !! j = Some q →
              (scoreTrackAgainstProfile trackGenres q.2 < s)%Z))
      ∧ pickBestPlaylist trackGenres profiles
        = if (0 <=? s)%Z then Some pid else None
  end.
Proof.
  unfold ranking, Object_entries.
  set (sc := λ '(pid, prof), (pid, scoreTrackAgainstProfile trackGenres prof)).
  pose proof (sortScores_head (map sc profiles)) as Hhead.
  destruct (head (sortScores (map sc profiles))) as [[pid s]|].
  - destruct Hhead as (i & Hi & Hmax & Hfirst).
    apply list_lookup_fmap_Some_1 in Hi as ([pid' prof] & Hx & Hpi).
    simpl in Hx. injection Hx as -> ->.
    assert (Hmax' : ∀ j q, profiles !! j = Some q →
              (scoreTrackAgainstProfile trackGenres q.2
               ≤ scoreTrackAgainstProfile trackGenres prof)%Z).
    { intros j [qp qf] Hq. apply (Hmax j (sc (qp, qf))).
      apply list_lookup_fmap_Some. by exists (qp, qf). }
    assert (Hfirst' : ∀ j q, j < i → profiles !! j = Some q →
              (scoreTrackAgainstProfile trackGenres q.2
               < scoreTrackAgainstProfile trackGenres prof)%Z).
    { intros j [qp qf] Hj Hq. apply (Hfirst j (sc (qp, qf)) Hj).
      apply list_lookup_fmap_Some. by exists (qp, qf). }
    split; [by exists i, prof|].
    unfold pickBestPlaylist, Object_entries.
    destruct (pickBestLoop_first_max trackGenres profiles None (-1)%Z)
      as [[Hall ->] | (k & pid2 & prof2 & Hk & -> & Hbeat & Hkmax & Hkfirst)].
    + rewrite Forall_lookup in Hall. specialize (Hall i _ Hpi). simpl in Hall.
      destruct (Z.leb_spec 0 (scoreTrackAgainstProfile trackGenres prof));
        [lia | done].
    + assert (k = i) as ->.
      { destruct (Nat.lt_trichotomy k i) as [Hlt | [-> | Hlt]]; [|done|].
        - specialize (Hfirst' k _ Hlt Hk). specialize (Hkmax i _ Hpi).
          simpl in *. lia.
        - specialize (Hkfirst i _ Hlt Hpi). specialize (Hmax' k _ Hk).
          simpl in *. lia. }
      rewrite Hpi in Hk. injection Hk as <- <-.
      destruct (Z.leb_spec 0 (scoreTrackAgainstProfile trackGenres prof));
        [done | lia].
  - apply fmap_nil_inv in Hhead. by subst profiles.
Qed.

(** ** The profile cache *)

Lemma putCachedProfile_run (w : World) (entry : CachedProfile) :
  putCachedProfile entry w =
    {| res := Ok tt;
       world :=
         setCacheFile (Json (storedProfiles entry (cachedProfiles w))) w;
       trace :=
         [EvReadCache;
          EvWriteCache (storedProfiles entry (cachedProfiles w))] |}.
Proof.
  unfold putCachedProfile, storedProfiles.
  rewrite (bind_run _ _ _ _ _ _ (Cache_readFile_run w)).
  by destruct (findIndex _ _).
Qed.

Lemma cacheKeyIs_key (pid snap : string) (c : CachedProfile) :
  cacheKeyIs pid snap c = true ↔ cacheKey c = (pid, snap).
Proof.
  unfold cacheKeyIs, cacheKey.
  rewrite andb_true_iff, !String.eqb_eq. split; [by intros [-> ->] | by intros [= -> ->]].
Qed.

Lemma cacheKeyIs_own (c : CachedProfile) :
  cacheKeyIs (playlistId c) (snapshotId c) c = true.
Proof. by apply cacheKeyIs_key. Qed.

(** [findIndex] finds the first element that satisfies the test. *)
Lemma findIndex_Some {A} (f : A → bool) (l : list A) (i : nat) :
  findIndex f l = Some i →
  ∃ x, l !! i = Some x ∧ f x = true
       ∧ ∀ j y, j < i → l !! j = Some y → f y = false.
Proof.
  revert i. induction l as [|a l IH]; intros i; simpl; [done|].
  destruct (f a) eqn:Ha.
  - intros [= <-]. exists a. split; [done|]. split; [done|]. intros; lia.
  - destruct (findIndex f l) as [k|]; simpl; [|done]. intros [= <-].
    destruct (IH k eq_refl) as (x & Hx & Hfx & Hfirst).
    exists x. split; [done|]. split; [done|].
    intros [|j] y Hj Hy; simpl in Hy; [by injection Hy as <- |].
    apply (Hfirst j); [lia | done].
Qed.

Lemma findIndex_None {A} (f : A → bool) (l : list A) :
  findIndex f l = None → Forall (λ x, f x = false) l.
Proof.
  induction l as [|a l IH]; simpl; [constructor|].
  destruct (f a) eqn:Ha; [done|].
  destruct (findIndex f l); [done|]. intros _. constructor; auto.
Qed.

Lemma find_insert_first {A} (f : A → bool) (l : list A) (i : nat) (x : A) :
  i < length l → f x = true →
  (∀ j y, j < i → l !! j = Some y → f y = false) →
  List.find f (<[i := x]> l) = Some x.
Proof.
  revert i. induction l as [|a l IH]; intros i Hi Hx Hfirst; simpl in *; [lia|].
  destruct i as [|i]; simpl.
  - by rewrite Hx.
  - rewrite (Hfirst 0 a) by (done || lia).
    apply IH; [lia | done |]. intros j y Hj Hy. apply (Hfirst (S j)); [lia | done].
Qed.

Lemma find_insert_other {A} (f : A → bool) (l : list A) (i : nat) (x y : A) :
  l !! i = Some y → f x = false → f y = false →
  List.find f (<[i := x]> l) = List.find f l.
Proof.
  revert i. induction l as [|a l IH]; intros i Hi Hx Hy; [done|].
  destruct i as [|i]; simpl in *.
  - injection Hi as ->. by rewrite Hx, Hy.
  - destruct (f a); [done|]. by apply IH.
Qed.

Lemma find_app_other {A} (f : A → bool) (l : list A) (x : A) :
  f x = false → List.find f (l ++ [x]) = List.find f l.
Proof.
  intros Hx. induction l as [|a l IH]; simpl; [by rewrite Hx|].
  by destruct (f a).
Qed.

Lemma find_stored_own (entry : CachedProfile) (l : list CachedProfile) :
  List.find (cacheKeyIs (playlistId entry) (snapshotId entry))
    (storedProfiles entry l) = Some entry.
Proof.
  unfold storedProfiles.
  destruct (findIndex _ l) as [i|] eqn:Hidx.
  - apply findIndex_Some in Hidx as (x & Hx & _ & Hfirst).
    apply find_insert_first; [by eapply lookup_lt_Some | | done].
    apply cacheKeyIs_own.
  - apply find_snoc_new; [|apply cacheKeyIs_own].
    apply findIndex_None in Hidx.
    induction Hidx as [|a l Ha _ IH]; simpl; [done|]. by rewrite Ha.
Qed.

Lemma find_stored_other (entry : CachedProfile) (l : list CachedProfile)
  (pid snap : string) :
  (pid, snap) ≠ cacheKey entry →
  List.find (cacheKeyIs pid snap) (storedProfiles entry l)
  = List.find (cacheKeyIs pid snap) l.
Proof.
  intros Hne. unfold storedProfiles.
  assert (Hentry : cacheKeyIs pid snap entry = false).
  { apply not_true_iff_false. by intros ?%cacheKeyIs_key. }
  destruct (findIndex _ l) as [i|] eqn:Hidx.
  - apply findIndex_Some in Hidx as (x & Hx & Hfx & _).
    apply (find_insert_other _ _ _ _ x); [done..|].
    apply not_true_iff_false. intros Hk%cacheKeyIs_key.
    apply cacheKeyIs_key in Hfx. unfold cacheKey in *. congruence.
  - by apply find_app_other.
Qed.

(** X6.  [putCachedProfile] then [getCachedProfile]: whether the cache
    file was missing, was not JSON or held profiles, with or without the
    key, the put returns (writing the file is taken to succeed), a lookup
    of the entry's own key then returns the entry, and a lookup of any
    other key returns what it returned before. *)
Theorem putCachedProfile_then_getCachedProfile
  (w : World) (entry : CachedProfile) :
  let w' := world (putCachedProfile entry w) in
  res (putCachedProfile entry w) = Ok tt
  ∧ res (getCachedProfile (playlistId entry) (snapshotId entry) w')
    = Ok (Some entry)
  ∧ (∀ pid snap,
       (pid, snap) ≠ cacheKey entry →
       res (getCachedProfile pid snap w') = res (getCachedProfile pid snap w)).
Proof.
  intros w'. subst w'. rewrite putCachedProfile_run. cbn [world res].
  split; [done|]. rewrite !getCachedProfile_run. cbn [res].
  split.
  - f_equal. apply find_stored_own.
  - intros pid snap Hne. rewrite !getCachedProfile_run. cbn [res]. f_equal.
    by apply find_stored_other.
Qed.

Lemma stored_keys (entry : CachedProfile) (l : list CachedProfile) :
  map cacheKey (storedProfiles entry l)
  = if decide (cacheKey entry ∈ map cacheKey l)
    then map cacheKey l
    else map cacheKey l ++ [cacheKey entry].
Proof.
  unfold storedProfiles.
  destruct (findIndex _ l) as [i|] eqn:Hidx.
  - apply findIndex_Some in Hidx as (x & Hx & Hfx%cacheKeyIs_key & _).
    change (playlistId entry, snapshotId entry) with (cacheKey entry) in Hfx.
    rewrite decide_True.
    + change (map cacheKey (<[i:=entry]> l))
        with (cacheKey <$> <[i:=entry]> l).
      rewrite list_fmap_insert. apply list_insert_id.
      by rewrite list_lookup_fmap, Hx, <- Hfx.
    + rewrite <- Hfx. apply list_elem_of_fmap. exists x. split; [done|].
      by eapply list_elem_of_lookup_2.
  - apply findIndex_None in Hidx. rewrite decide_False.
    + by rewrite map_app.
    + intros (x & Hk & Hx)%list_elem_of_fmap.
      rewrite Forall_forall in Hidx. specialize (Hidx x Hx).
      apply not_true_iff_false in Hidx. apply Hidx, cacheKeyIs_key. done.
Qed.

Lemma stored_keeps (entry c : CachedProfile) (l : list CachedProfile) :
  c ∈ l → cacheKey c ≠ cacheKey entry → c ∈ storedProfiles entry l.
Proof.
  intros Hc Hne. unfold storedProfiles.
  destruct (findIndex _ l) as [i|] eqn:Hidx.
  - apply findIndex_Some in Hidx as (x & Hx & Hfx%cacheKeyIs_key & _).
    apply list_elem_of_lookup in Hc as [j Hj].
    apply list_elem_of_lookup. exists j.
    rewrite list_lookup_insert_ne; [done|]. intros ->.
    rewrite Hx in Hj. injection Hj as ->. done.
  - apply elem_of_app. by left.
Qed.

Lemma elem_of_stored (entry c : CachedProfile) (l : list CachedProfile) :
  NoDup (map cacheKey l) →
  c ∈ storedProfiles entry l
  ↔ c = entry ∨ (c ∈ l ∧ cacheKey c ≠ cacheKey entry).
Proof.
  intros Hnd. split.
  - unfold storedProfiles.
    destruct (findIndex _ l) as [i|] eqn:Hidx.
    + apply findIndex_Some in Hidx as (x & Hx & Hfx%cacheKeyIs_key & _).
      change (playlistId entry, snapshotId entry) with (cacheKey entry) in Hfx.
      intros [j Hj]%list_elem_of_lookup.
      destruct (decide (i = j)) as [<-|Hne].
      * rewrite list_lookup_insert_eq in Hj by (by eapply lookup_lt_Some).
        left. congruence.
      * rewrite list_lookup_insert_ne in Hj by done.
        right. split; [by eapply list_elem_of_lookup_2|].
        intros Hk. apply Hne.
        apply (NoDup_lookup (map cacheKey l) i j (cacheKey entry));
          [done | |].
        -- change (map cacheKey l) with (cacheKey <$> l).
           by rewrite list_lookup_fmap, Hx, <- Hfx.
        -- change (map cacheKey l) with (cacheKey <$> l).
           by rewrite list_lookup_fmap, Hj, <- Hk.
    + apply findIndex_None in Hidx. rewrite Forall_forall in Hidx.
      intros [Hc | ->%list_elem_of_singleton]%elem_of_app; [|by left].
      right. split; [done|]. intros Hk.
      specialize (Hidx c Hc). apply not_true_iff_false in Hidx.
      apply Hidx, cacheKeyIs_key. done.
  - intros [-> | [Hc Hne]]; [|by apply stored_keeps].
    apply list_elem_of_In.
    apply (List.find_some (cacheKeyIs (playlistId entry) (snapshotId entry))).
    apply find_stored_own.
Qed.

(** X7.  [putCachedProfile] on a cache with at most one profile per
    (playlist, version): afterwards the cache holds the entry, and besides
    it exactly the profiles it held under other keys, so again at most one
    profile per key; the entry has taken the place of the profile with its
    key, or has been appended when the key is new (the keys are the same
    list as before, or that list followed by the new key). *)
Theorem putCachedProfile_keeps_keys_unique
  (w : World) (entry : CachedProfile) :
  NoDup (map cacheKey (cachedProfiles w)) →
  let w' := world (putCachedProfile entry w) in
  NoDup (map cacheKey (cachedProfiles w'))
  ∧ (∀ c, c ∈ cachedProfiles w'
          ↔ c = entry
            ∨ (c ∈ cachedProfiles w ∧ cacheKey c ≠ cacheKey entry))
  ∧ map cacheKey (cachedProfiles w')
    = (if decide (cacheKey entry ∈ map cacheKey (cachedProfiles w))
       then map cacheKey (cachedProfiles w)
       else map cacheKey (cachedProfiles w) ++ [cacheKey entry]).
Proof.
  intros Hnd w'. subst w'. rewrite putCachedProfile_run. cbn [world].
  change (cachedProfiles (setCacheFile (Json ?l) w)) with l.
  split; [|split].
  - rewrite stored_keys. destruct (decide _) as [|Hnew]; [done|].
    apply NoDup_app. split; [done|]. split; [|apply NoDup_singleton].
    intros k Hk ->%list_elem_of_singleton. done.
  - intros c. by apply elem_of_stored.
  - apply stored_keys.
Qed.

(** X8.  A cache file that is missing or is not JSON counts as an empty
    cache: every lookup answers [null] after one read, without an error
    and without changing anything, and a put replaces the file by the one
    entry. *)
Theorem unreadable_cache_counts_as_empty (w : World) :
  (w_cacheFile w = NoFile ∨ ∃ raw, w_cacheFile w = NotJson raw) →
  (∀ pid snap,
     getCachedProfile pid snap w
     = {| res := Ok None; world := w; trace := [EvReadCache] |})
  ∧ (∀ entry,
       putCachedProfile entry w
       = {| res := Ok tt; world := setCacheFile (Json [entry]) w;
            trace := [EvReadCache; EvWriteCache [entry]] |}).
Proof.
  intros Hfile.
  assert (Hempty : cachedProfiles w = []).
  { unfold cachedProfiles. by destruct Hfile as [-> | [raw ->]]. }
  split.
  - intros pid snap. by rewrite getCachedProfile_run, Hempty.
  - intros entry. by rewrite putCachedProfile_run, Hempty.
Qed.

(** ** Pagination *)

Lemma pageOffsets_closed (total : nat) :
  ∀ k fuel offset,
    0 < k → k ≤ fuel → total ≤ offset + 50 * k →
    (offset + 50 * (k - 1) < total ∨ k = 1) →
    pageOffsets fuel offset total = map (λ j, offset + 50 * j) (seq 0 k).
Proof.
  induction k as [|k IH]; intros fuel offset Hk Hfuel Hle Hgt; [lia|].
  destruct fuel as [|fuel]; [lia|]. cbn [pageOffsets seq map].
  rewrite Nat.mul_0_r, Nat.add_0_r. f_equal.
  destruct (decide (offset + 50 < total)) as [Hmore|Hlast].
  - rewrite (IH fuel (offset + 50)) by lia.
    rewrite <- seq_shift, map_map. apply map_ext. intros j. lia.
  - assert (k = 0) as -> by lia. done.
Qed.

Lemma enumerationEvents_closed (pid : string) (pl : Playlist) :
  enumerationEvents pid pl
  = map (λ k, EvGetPlaylistTracks pid (50 * k))
      (seq 0 (pagesOf 50 (length (playlist_items pl)))).
Proof.
  unfold enumerationEvents, pagesOf.
  set (n := length (playlist_items pl)).
  pose proof (Nat.div_mod_eq (n + (50 - 1)) 50) as Hdiv.
  pose proof (Nat.mod_upper_bound (n + (50 - 1)) 50 ltac:(lia)) as Hmod.
  rewrite (pageOffsets_closed n (Nat.max 1 ((n + (50 - 1)) / 50))) by lia.
  rewrite map_map. done.
Qed.

Section Extras.
Context `{JsRuntime}.

Ltac io_run :=
  unfold mbind, IO_bind, mret, IO_ret, tell, gets, modify, throw in *.

Lemma iteratePlaylistTracks_unknown (w : World) (pid : string) :
  w_failAfter w = None →
  w_playlists w !! pid = None →
  res (iteratePlaylistTracks pid w) = Throw CatalogError.
Proof.
  intros Hrel Hpl. unfold iteratePlaylistTracks.
  rewrite (bind_run (gets w_playlists) _ w w (w_playlists w) []) by done.
  cbv beta. rewrite Hpl. simpl.
  rewrite (bind_throw _ _ _ CatalogError); [done|].
  unfold getPlaylistItemsPaginated. rewrite callWithRetry_reliable by done.
  unfold spotify_getPlaylistTracks, prefixed. io_run. simpl.
  by rewrite Hpl.
Qed.

(** X9.  [iteratePlaylistTracks], when it returns, has yielded exactly
    the track items of the playlist, in order (episodes and items without
    a track are skipped), after one request per page of 50 at the offsets
    0, 50, 100, ... (a single request for an empty playlist, and none
    beyond a last page that is full); it changes no playlist.  Against a
    catalog that does not fail it returns for every known playlist and
    throws for an unknown one. *)
Theorem iteratePlaylistTracks_reads_every_page_once
  (w : World) (pid : string) :
  (∀ tracks,
     res (iteratePlaylistTracks pid w) = Ok tracks →
     ∃ pl,
       w_playlists w !! pid = Some pl
       ∧ tracks = yieldedTracks (playlist_items pl)
       ∧ trace (iteratePlaylistTracks pid w)
         = map (λ k, EvGetPlaylistTracks pid (50 * k))
             (seq 0 (pagesOf 50 (length (playlist_items pl))))
       ∧ w_playlists (world (iteratePlaylistTracks pid w)) = w_playlists w)
  ∧ (w_failAfter w = None →
     res (iteratePlaylistTracks pid w)
     = match w_playlists w !! pid with
       | Some pl => Ok (yieldedTracks (playlist_items pl))
       | None => Throw CatalogError
       end).
Proof.
  split.
  - intros tracks Hres.
    destruct (robust_iteratePlaylistTracks pid w tracks Hres)
      as (Hrel & Htrace & Hworld).
    change (w_playlists w) with (w_playlists (reliable w)).
    destruct (w_playlists (reliable w) !! pid) as [pl|] eqn:Hpl.
    + rewrite (iteratePlaylistTracks_reliable (reliable w) pid pl eq_refl Hpl)
        in Hrel, Htrace, Hworld.
      cbn [res trace world] in *. injection Hrel as <-.
      exists pl. split; [done|]. split; [done|]. split.
      * by rewrite <- Htrace, enumerationEvents_closed.
      * change (w_playlists (reliable w))
          with (w_playlists (reliable (reliable w))).
        rewrite Hworld. done.
    + rewrite (iteratePlaylistTracks_unknown (reliable w) pid eq_refl Hpl)
        in Hrel. done.
  - intros Hrel. destruct (w_playlists w !! pid) as [pl|] eqn:Hpl.
    + by rewrite (iteratePlaylistTracks_reliable w pid pl Hrel Hpl).
    + by apply iteratePlaylistTracks_unknown.
Qed.

(** ** The ids of a playlist *)

Lemma existing_fold_NoDup (tracks : list TrackObjectFull) :
  ∀ acc,
    NoDup acc →
    NoDup (foldl (λ ids track,
                    if truthy (track_id track)
                    then Set_add (track_id track) ids else ids)
             acc tracks).
Proof.
  induction tracks as [|t tracks IH]; intros acc Hacc; simpl; [done|].
  apply IH. destruct (truthy (track_id t)); [by apply Set_add_NoDup | done].
Qed.

Lemma getPlaylistTrackIdsSet_run (w : World) (pid : string)
  (ids : list string) :
  res (getPlaylistTrackIdsSet pid w) = Ok ids →
  ∃ pl,
    w_playlists w !! pid = Some pl
    ∧ ids = existingIds pl
    ∧ trace (getPlaylistTrackIdsSet pid w) = enumerationEvents pid pl
    ∧ world (getPlaylistTrackIdsSet pid (reliable w)) = reliable w
    ∧ reliable (world (getPlaylistTrackIdsSet pid w)) = reliable w.
Proof.
  intros Hres.
  destruct (robust_getPlaylistTrackIdsSet pid w ids Hres)
    as (Hrel & Htrace & Hworld).
  destruct (w_playlists w !! pid) as [pl|] eqn:Hpl.
  - rewrite (getPlaylistTrackIdsSet_reliable (reliable w) pid pl eq_refl Hpl)
      in Hrel, Htrace, Hworld.
    cbn [res trace world] in *. injection Hrel as <-.
    exists pl. split; [done|]. split; [done|]. split; [done|]. split; [|done].
    by rewrite (getPlaylistTrackIdsSet_reliable (reliable w) pid pl eq_refl Hpl).
  - by destruct (getPlaylistTrackIdsSet_unknown (reliable w) pid ids eq_refl Hpl).
Qed.

(** X10.  The set [getPlaylistTrackIdsSet] returns holds no id twice and
    not the empty id, and holds exactly the non-empty ids of the tracks of
    the playlist; computing it only reads pages of that playlist and
    changes no playlist. *)
Theorem getPlaylistTrackIdsSet_is_the_set_of_track_ids
  (w : World) (pid : string) (ids : list string) :
  res (getPlaylistTrackIdsSet pid w) = Ok ids →
  NoDup ids
  ∧ ("" ∉ ids)
  ∧ (∀ id, id ∈ ids ↔ id ≠ "" ∧ id ∈ playlistTrackIds w pid)
  ∧ w_playlists (world (getPlaylistTrackIdsSet pid w)) = w_playlists w
  ∧ Forall (λ ev, ∃ offset, ev = EvGetPlaylistTracks pid offset)
      (trace (getPlaylistTrackIdsSet pid w)).
Proof.
  intros Hres.
  destruct (getPlaylistTrackIdsSet_run w pid ids Hres)
    as (pl & Hpl & -> & Htrace & _ & Hworld).
  split; [|split; [|split; [|split]]].
  - unfold existingIds. apply existing_fold_NoDup. constructor.
  - rewrite elem_of_existingIds. by intros [? _].
  - intros id. unfold playlistTrackIds. rewrite Hpl. apply elem_of_existingIds.
  - change (w_playlists (world (getPlaylistTrackIdsSet pid w)))
      with (w_playlists (reliable (world (getPlaylistTrackIdsSet pid w)))).
    by rewrite Hworld.
  - rewrite Htrace. unfold enumerationEvents. apply Forall_fmap, Forall_forall.
    intros offset _. by exists offset.
Qed.

(** ** Batches *)

Lemma slicesFrom_bounds {A} (size : nat) (xs : list A) :
  0 < size →
  ∀ fuel i,
    Forall (λ s, 0 < length s ≤ size) (slicesFrom fuel size i xs).
Proof.
  intros Hsize. induction fuel as [|fuel IH]; intros i; simpl; [constructor|].
  destruct (decide (i < length xs)) as [Hi|]; [|constructor].
  constructor; [|apply IH].
  rewrite length_take, length_drop. lia.
Qed.

Lemma slicesFrom_length {A} (size : nat) (xs : list A) :
  0 < size →
  ∀ fuel i,
    length xs - i ≤ fuel →
    length (slicesFrom fuel size i xs) = (length xs - i + (size - 1)) / size.
Proof.
  intros Hsize. induction fuel as [|fuel IH]; intros i Hfuel; simpl.
  - replace (length xs - i) with 0 by lia. simpl.
    symmetry. apply Nat.div_small. lia.
  - destruct (decide (i < length xs)) as [Hi|Hi]; simpl.
    + rewrite IH by lia.
      destruct (decide (size ≤ length xs - i)) as [Hbig|Hsmall].
      * replace (length xs - i + (size - 1))
          with (length xs - (i + size) + (size - 1) + 1 * size) by lia.
        rewrite Nat.div_add by lia. lia.
      * replace (length xs - (i + size)) with 0 by lia.
        rewrite (Nat.div_small (0 + (size - 1))) by lia.
        apply (Nat.div_unique _ _ 1 (length xs - i - 1)); lia.
    + replace (length xs - i) with 0 by lia. simpl.
      symmetry. apply Nat.div_small. lia.
Qed.

Lemma slices_bounds {A} (size : nat) (xs : list A) :
  0 < size →
  Forall (λ s, 0 < length s ≤ size) (slices size xs)
  ∧ length (slices size xs) = (length xs + (size - 1)) / size.
Proof.
  intros Hsize. split; [by apply slicesFrom_bounds|].
  unfold slices. rewrite slicesFrom_length by lia. by rewrite Nat.sub_0_r.
Qed.

Lemma addedUris_batches (pid : string) (batches : list (list string)) :
  addedUris (map (λ b, EvAddTracks pid (map toTrackUri b)) batches)
  = map (map toTrackUri) batches.
Proof. induction batches as [|b bs IH]; simpl; [done | by rewrite IH]. Qed.

Lemma length_concat_map {A B} (f : A → B) (ls : list (list A)) :
  length (concat (map (map f) ls)) = length (concat ls).
Proof.
  induction ls as [|l ls IH]; simpl; [done|].
  by rewrite !length_app, length_map, IH.
Qed.

(** The requests of a call that returned, against a catalog that never
    fails. *)
Lemma addTracksToPlaylistIfMissing_trace (w : World) (pid : string)
  (pl : Playlist) (trackIds : list string) (r : AddResult) :
  w_failAfter w = None →
  w_playlists w !! pid = Some pl →
  res (addTracksToPlaylistIfMissing pid trackIds w) = Ok r →
  let toAdd := filter (λ id, id ∉ existingIds pl) trackIds in
  trace (addTracksToPlaylistIfMissing pid trackIds w)
  = enumerationEvents pid pl
    ++ map (λ b, EvAddTracks pid (map toTrackUri b)) (slices 100 toAdd).
Proof.
  intros Hrel Hpl Hres toAdd.
  unfold addTracksToPlaylistIfMissing in Hres |- *.
  rewrite (bind_run _ _ _ _ _ _
             (getPlaylistTrackIdsSet_reliable _ _ _ Hrel Hpl)) in Hres |- *.
  fold toAdd in Hres |- *.
  destruct (decide (length toAdd = 0)) as [Hnone|Hsome].
  - apply length_zero_iff_nil in Hnone. rewrite Hnone. done.
  - unfold prefixed in Hres |- *. cbn in Hres |- *.
    match type of Hres with
    | res ((?m ≫= _) w) = _ => destruct (res (m w)) as [[]|e] eqn:Hloop
    end.
    + rewrite (bind_ok _ _ _ tt Hloop) in Hres |- *. cbn.
      destruct (addLoop_reliable pid (slices 100 toAdd) w pl Hrel Hpl Hloop)
        as (_ & Htrace & _).
      by rewrite app_nil_r, Htrace.
    + rewrite (bind_throw _ _ _ e Hloop) in Hres. discriminate.
Qed.

(** X11.  [addTracksToPlaylistIfMissing], when it returns: the two counts
    add up to the number of listed ids; the insertion requests carry
    [added] URIs in all, between 1 and 100 each, and there are
    ceil(added / 100) of them (none when nothing is missing). *)
Theorem addTracksToPlaylistIfMissing_batches
  (w : World) (pid : string) (trackIds : list string) (r : AddResult) :
  res (addTracksToPlaylistIfMissing pid trackIds w) = Ok r →
  let requests := addedUris (trace (addTracksToPlaylistIfMissing pid trackIds w)) in
  added r + skipped r = length trackIds
  ∧ length (concat requests) = added r
  ∧ Forall (λ uris, 0 < length uris ≤ 100) requests
  ∧ length requests = (added r + 99) / 100.
Proof.
  intros Hres requests. subst requests.
  destruct (robust_addTracksToPlaylistIfMissing pid trackIds w r Hres)
    as (Hrel & Htrace & _).
  destruct (w_playlists w !! pid) as [pl|] eqn:Hpl; cycle 1.
  { exfalso. unfold addTracksToPlaylistIfMissing in Hrel.
    destruct (res (getPlaylistTrackIdsSet pid (reliable w)))
      as [existing|e] eqn:Hex.
    - by apply (getPlaylistTrackIdsSet_unknown (reliable w) pid existing).
    - by rewrite (bind_throw _ _ _ e Hex) in Hrel. }
  destruct (addTracksToPlaylistIfMissing_reliable (reliable w) pid pl
              trackIds r eq_refl Hpl Hrel) as (_ & -> & _).
  pose proof (addTracksToPlaylistIfMissing_trace (reliable w) pid pl
                trackIds _ eq_refl Hpl Hrel) as Ht.
  rewrite Htrace in Ht. rewrite Ht. cbv zeta. cbn [added skipped].
  set (toAdd := filter (λ id, id ∉ existingIds pl) trackIds).
  rewrite addedUris_app, addedUris_enumeration, app_nil_l, addedUris_batches.
  destruct (slices_bounds 100 toAdd ltac:(lia)) as [Hb Hl].
  split; [|split; [|split]].
  - pose proof (length_filter (λ id, id ∉ existingIds pl) trackIds) as Hlen.
    fold toAdd in Hlen. lia.
  - rewrite length_concat_map, slices_concat by lia. done.
  - apply Forall_fmap. eapply Forall_impl; [exact Hb|].
    intros b. simpl. by rewrite length_map.
  - by rewrite length_map, Hl.
Qed.

(** ** Unconditional insertion *)

Lemma robust_addTracksToPlaylist pid trackIds :
  robust (addTracksToPlaylist pid trackIds).
Proof.
  unfold addTracksToPlaylist. apply robust_forOf.
  intros slice []. apply robust_addTracks.
Qed.

Lemma slices_nonempty {A} (size : nat) (xs : list A) :
  xs ≠ [] → ∃ b bs, slices size xs = b :: bs.
Proof.
  intros Hxs. destruct xs as [|x xs]; [done|].
  unfold slices. cbn [length slicesFrom].
  destruct (decide (0 < S (length xs))); [eauto | lia].
Qed.

Lemma addTracks_unknown (w : World) (pid : string) (uris : list string) :
  w_failAfter w = None →
  w_playlists w !! pid = None →
  res (callWithRetry (EvAddTracks pid uris)
         (spotify_addTracksToPlaylist pid uris) w) = Throw CatalogError.
Proof.
  intros Hrel Hpl. rewrite callWithRetry_reliable by done.
  unfold spotify_addTracksToPlaylist, prefixed. io_run. simpl.
  by rewrite Hpl.
Qed.

(** X12.  [addTracksToPlaylist] makes no request for an empty list; for a
    non-empty list, when it returns, the playlist holds its old items
    followed by every listed track, in order, whether or not the playlist
    had it already, after one insertion request per batch of 100. *)
Theorem addTracksToPlaylist_appends_every_track
  (w : World) (pid : string) (trackIds : list string) :
  addTracksToPlaylist pid [] w = {| res := Ok tt; world := w; trace := [] |}
  ∧ (trackIds ≠ [] →
     res (addTracksToPlaylist pid trackIds w) = Ok tt →
     ∃ pl pl',
       w_playlists w !! pid = Some pl
       ∧ w_playlists (world (addTracksToPlaylist pid trackIds w)) !! pid
         = Some pl'
       ∧ playlist_items pl'
         = playlist_items pl ++ map (catalogTrack (w_trackInfo w)) trackIds
       ∧ trace (addTracksToPlaylist pid trackIds w)
         = map (λ b, EvAddTracks pid (map toTrackUri b))
             (slices 100 trackIds)).
Proof.
  split; [done|]. intros Hne Hres.
  destruct (robust_addTracksToPlaylist pid trackIds w tt Hres)
    as (Hrel & Htrace & Hworld).
  destruct (w_playlists w !! pid) as [pl|] eqn:Hpl.
  - destruct (addLoop_reliable pid (slices 100 trackIds) (reliable w) pl
                eq_refl Hpl Hrel)
      as (_ & Ht & _ & _ & pl' & Hpl' & Hitems).
    exists pl, pl'. split; [done|].
    fold (addTracksToPlaylist pid trackIds) in Ht, Hpl'.
    rewrite Hworld in Hpl'. rewrite Htrace in Ht.
    rewrite slices_concat in Hitems by lia. done.
  - exfalso. destruct (slices_nonempty 100 trackIds Hne) as (b & bs & Hb).
    unfold addTracksToPlaylist in Hrel. rewrite Hb in Hrel. simpl in Hrel.
    rewrite (bind_throw _ _ _ CatalogError) in Hrel; [done|].
    by apply addTracks_unknown.
Qed.

(** ** The genres of a liked track *)

Lemma Set_addAll_app (xs ys s : list string) :
  Set_addAll (xs ++ ys) s = Set_addAll ys (Set_addAll xs s).
Proof. unfold Set_addAll. apply foldl_app. Qed.

Lemma collect_tags (w : World) (ids : list string) :
  ∀ s,
    foldl (λ genres artist,
             Set_addAll (default [] (artist_genres artist)) genres)
      s (map (artistOf w) ids)
    = Set_addAll (flat_map (tagsOf w) ids) s.
Proof.
  induction ids as [|a ids IH]; intros s; simpl; [done|].
  by rewrite IH, Set_addAll_app.
Qed.

Lemma collect_tags_batches (w : World) (batches : list (list string)) :
  ∀ s,
    foldl (λ s batch,
             foldl (λ genres artist,
                      Set_addAll (default [] (artist_genres artist)) genres)
               s (map (artistOf w) batch))
      s batches
    = Set_addAll (flat_map (tagsOf w) (concat batches)) s.
Proof.
  induction batches as [|b bs IH]; intros s; simpl; [done|].
  by rewrite IH, collect_tags, flat_map_app, Set_addAll_app.
Qed.

Lemma trackGenresOf_reliable (w : World) (track : TrackObjectFull) :
  w_failAfter w = None →
  let ids := List.filter truthy (map artist_id (track_artists track)) in
  trackGenresOf track w =
    {| res := Ok (Set_addAll (flat_map (tagsOf w) ids) []);
       world := w;
       trace := map EvGetArtists (slices 50 ids) |}.
Proof.
  intros Hrel ids. unfold trackGenresOf. fold ids.
  rewrite (forOf_artists_reliable w
             (λ artists genres,
                foldl (λ genres artist,
                         Set_addAll (default [] (artist_genres artist)) genres)
                  genres artists) Hrel).
  by rewrite collect_tags_batches, slices_concat by lia.
Qed.

(** X13.  The genres [main] computes for a liked track, when the artist
    requests succeed: the distinct tags of the artists of the track that
    have an id, in the order of their first appearance, fetched in
    requests of 1 to 50 artist ids. *)
Theorem trackGenresOf_collects_distinct_tags
  (w : World) (track : TrackObjectFull) (gs : list string) :
  res (trackGenresOf track w) = Ok gs →
  let ids := List.filter truthy (map artist_id (track_artists track)) in
  NoDup gs
  ∧ (∀ g, g ∈ gs ↔
          ∃ a, a ∈ map artist_id (track_artists track)
               ∧ a ≠ "" ∧ g ∈ tagsOf w a)
  ∧ gs = Set_addAll (flat_map (tagsOf w) ids) []
  ∧ trace (trackGenresOf track w) = map EvGetArtists (slices 50 ids)
  ∧ Forall (λ batch, 0 < length batch ≤ 50) (slices 50 ids).
Proof.
  intros Hres ids.
  destruct (robust_trackGenresOf track w gs Hres) as (Hrel & Htrace & _).
  rewrite (trackGenresOf_reliable (reliable w) track eq_refl) in Hrel, Htrace.
  cbn [res trace] in *. fold ids in Hrel, Htrace. injection Hrel as <-.
  change (tagsOf (reliable w)) with (tagsOf w).
  split; [|split; [|split; [|split]]].
  - apply Set_addAll_NoDup. constructor.
  - intros g. rewrite elem_of_Set_addAll, elem_of_nil.
    rewrite list_elem_of_In, in_flat_map. split.
    + intros [(a & Ha & Hg) | []]. exists a.
      apply list_elem_of_In, elem_of_List_filter in Ha as [Ha Ht].
      apply truthy_true in Ht. apply list_elem_of_In in Hg. done.
    + intros (a & Ha & Hne & Hg). left. exists a.
      rewrite <- !list_elem_of_In. split; [|done].
      apply elem_of_List_filter. split; [done|]. by apply truthy_true.
  - done.
  - by rewrite <- Htrace.
  - by destruct (slices_bounds 50 ids ltac:(lia)).
Qed.

(** ** The destination of a liked track *)



(** The playlist a track is routed to: the answer of [pickBestPlaylist],
    else the top of the ranking, else the first target. *)
Lemma best_is_first_maximum (trackGenres targets : list string)
  (profiles : Record GenreProfile) :
  profiles ≠ [] →
  ∃ i pid prof,
    Object_entries profiles !! i = Some (pid, prof)
    ∧ (∀ j q, Object_entries profiles !! j = Some q →
         (scoreTrackAgainstProfile trackGenres q.2
          ≤ scoreTrackAgainstProfile trackGenres prof)%Z)
    ∧ (∀ j q, j < i → Object_entries profiles !! j = Some q →
         (scoreTrackAgainstProfile trackGenres q.2
          < scoreTrackAgainstProfile trackGenres prof)%Z)
    ∧ match pickBestPlaylist trackGenres profiles with
      | Some b => b
      | None =>
          match
            match head (ranking trackGenres profiles) with
            | Some (pid, _) => Some pid
            | None => head targets
            end
          with
          | Some b => b
          | None => default "undefined" (head targets)
          end
      end = pid.
Proof.
  intros Hne. pose proof (ranking_first_maximum trackGenres profiles) as Hr.
  destruct (head (ranking trackGenres profiles)) as [[pid s]|].
  - destruct Hr as [(i & prof & Hi & -> & Hmax & Hfirst) Hpick].
    exists i, pid, prof. split; [done|]. split; [done|]. split; [done|].
    rewrite Hpick. by destruct (0 <=? _)%Z.
  - by destruct Hr.
Qed.

(** X14.  A liked track that is routed goes to the first playlist, in the
    property order of the profiles, whose score for the genres of the
    track is the maximum (also when every score is negative, where
    [pickBestPlaylist] answers [null] and the top of the ranking is used
    instead); the routing is logged after the artist requests, and the
    track id is appended to the ids collected for that playlist. *)
Theorem routeItem_routes_to_first_maximum
  (state : State) (targets : list string) (profiles : Record GenreProfile)
  (item : SavedTrackItem) (acc acc' : Record (list string) * option string)
  (w : World) :
  profiles ≠ [] →
  res (routeItem state targets profiles item acc w) = Ok (Continue acc') →
  ∃ gs i pid prof,
    res (trackGenresOf (saved_track item) w) = Ok gs
    ∧ Object_entries profiles !! i = Some (pid, prof)
    ∧ (∀ j q, Object_entries profiles !! j = Some q →
         (scoreTrackAgainstProfile gs q.2
          ≤ scoreTrackAgainstProfile gs prof)%Z)
    ∧ (∀ j q, j < i → Object_entries profiles !! j = Some q →
         (scoreTrackAgainstProfile gs q.2
          < scoreTrackAgainstProfile gs prof)%Z)
    ∧ trace (routeItem state targets profiles item acc w)
      = trace (trackGenresOf (saved_track item) w) ++ [EvRoute item pid]
    ∧ acc'.1
      = Record_set pid
          (default [] (Record_get pid acc.1) ++ [track_id (saved_track item)])
          acc.1.
Proof.
  intros Hne. unfold routeItem. destruct acc as [byPlaylist newest].
  destruct (truthyOpt (lastProcessedAddedAt state)
            && leOpt (added_at item) (lastProcessedAddedAt state)); [done|].
  destruct (res (trackGenresOf (saved_track item) w)) as [gs|e] eqn:Hgs.
  - rewrite (bind_ok _ _ _ gs Hgs).
    destruct (best_is_first_maximum gs targets profiles Hne)
      as (i & pid & prof & Hi & Hmax & Hfirst & Hbest).
    unfold ranking in Hbest. rewrite Hbest.
    io_run. cbn. intros [= <-].
    by exists gs, i, pid, prof.
  - rewrite (bind_throw _ _ _ e Hgs). done.
Qed.

(** ** Objects as records *)

Lemma Record_get_None {V} (k : string) (o : Record V) :
  Record_get k o = None ↔ k ∉ map fst o.
Proof.
  induction o as [|[k' v] o IH]; simpl.
  - split; [intros _; apply not_elem_of_nil | done].
  - rewrite not_elem_of_cons. destruct (String.eqb_spec k k') as [->|Hne].
    + split; [done | by intros [? _]].
    + rewrite IH. tauto.
Qed.

Lemma Record_replace_keys {V} (k : string) (v : V) (o : Record V) :
  map fst (Record_replace k v o) = map fst o.
Proof.
  induction o as [|[k' v'] o IH]; simpl; [done|].
  destruct (String.eqb_spec k k') as [->|Hne]; simpl; [done | by rewrite IH].
Qed.

Lemma Record_insertIndex_keys {V} (n : N) (k : string) (v : V) (o : Record V) :
  map fst (Record_insertIndex n k v o) ≡ₚ k :: map fst o.
Proof.
  induction o as [|[k' v'] o IH]; simpl; [done|].
  destruct (arrayIndex k') as [n'|]; [|done].
  destruct (n <? n')%N; simpl; [done|].
  rewrite IH. apply Permutation_swap.
Qed.

Lemma Record_set_keys {V} (k : string) (v : V) (o : Record V) :
  map fst (Record_set k v o)
  ≡ₚ if decide (k ∈ map fst o) then map fst o else k :: map fst o.
Proof.
  unfold Record_set. destruct (Record_get k o) as [v'|] eqn:Hget.
  - rewrite decide_True.
    + by rewrite Record_replace_keys.
    + destruct (decide (k ∈ map fst o)) as [|Hn]; [done|].
      apply Record_get_None in Hn. congruence.
  - rewrite decide_False by (by apply Record_get_None).
    destruct (arrayIndex k).
    + apply Record_insertIndex_keys.
    + rewrite map_app. simpl. by rewrite Permutation_app_comm.
Qed.

Lemma elem_of_Record_set {V} (k k' : string) (v : V) (o : Record V) :
  k' ∈ map fst (Record_set k v o) ↔ k' = k ∨ k' ∈ map fst o.
Proof.
  rewrite Record_set_keys. destruct (decide (k ∈ map fst o)).
  - split; [auto | intros [-> | ?]; done].
  - apply elem_of_cons.
Qed.

Lemma Record_set_NoDup {V} (k : string) (v : V) (o : Record V) :
  NoDup (map fst o) → NoDup (map fst (Record_set k v o)).
Proof.
  intros Ho. rewrite Record_set_keys.
  destruct (decide (k ∈ map fst o)); [done | by constructor].
Qed.

(** ** Results of composed computations *)

Lemma bind_Ok_inv {A B} (m : IO A) (f : A → IO B) (w : World) (b : B) :
  res ((m ≫= f) w) = Ok b →
  ∃ a, res (m w) = Ok a ∧ res (f a (world (m w))) = Ok b.
Proof.
  destruct (res (m w)) as [a|e] eqn:Hm.
  - rewrite (bind_ok _ _ _ a Hm). simpl. eauto.
  - by rewrite (bind_throw _ _ _ e Hm).
Qed.

Lemma ret_Ok_inv {A} (a b : A) (w : World) :
  res ((mret a : IO A) w) = Ok b → a = b.
Proof. io_run. simpl. by intros [= ?]. Qed.

(** A loop keeps [I] and establishes, for every element, a fact that the
    later rounds keep. *)
Lemma forOf_Ok_inv {A St} (I : St → Prop) (J : A → St → Prop)
  (xs : list A) (body : A → St → IO St) :
  (∀ x s w s',
     x ∈ xs → I s → res (body x s w) = Ok s' →
     I s' ∧ J x s' ∧ ∀ y, J y s → J y s') →
  ∀ s w s',
    I s → res (forOf xs body s w) = Ok s' →
    I s' ∧ (∀ x, x ∈ xs → J x s') ∧ (∀ y, J y s → J y s').
Proof.
  induction xs as [|x xs IH]; intros Hbody s w s' Hs Hres.
  - apply ret_Ok_inv in Hres as <-. split; [done|]. split; [|done].
    by intros x ?%elem_of_nil.
  - simpl in Hres. apply bind_Ok_inv in Hres as (s1 & H1 & Hrest).
    destruct (Hbody x s w s1 ltac:(left) Hs H1) as (Hs1 & Hx & Hkeep).
    destruct (IH ltac:(intros; eapply Hbody; eauto; by right)
                s1 _ s' Hs1 Hrest) as (Hs' & Hall & Hkeep').
    split; [done|]. split; [|by auto].
    intros y [-> | Hy]%elem_of_cons; auto.
Qed.

(** ** The profiles of a run *)

Lemma shouldRebuildProfile_false (last : option string) (w : World) :
  res (shouldRebuildProfile last w) = Ok false → ∃ l, last = Some l.
Proof. destruct last as [l|]; [eauto | done]. Qed.

(** X15.  The loop of [main] over the target playlists of the
    configuration, when it returns: the profiles hold exactly one entry
    per target playlist; every target has a rebuild time, unless it is
    named like a member of [Object.prototype] (for such a name the code
    finds the inherited member in place of a rebuild time); the rebuild
    times of the playlists that are no targets are the ones of the loaded
    state. *)
Theorem buildProfiles_covers_the_targets
  (state : State) (w : World)
  (profiles : Record GenreProfile) (times : gmap string string) :
  let targets := getTargetPlaylistIds (w_env w) in
  res (buildProfiles state targets w) = Ok (profiles, times) →
  (∀ pid, pid ∈ map fst (Object_entries profiles) ↔ pid ∈ targets)
  ∧ NoDup (map fst (Object_entries profiles))
  ∧ (∀ pid, pid ∈ targets → pid ∉ Object_prototype_members →
       is_Some (times !! pid))
  ∧ (∀ pid, pid ∉ targets →
       times !! pid = default ∅ (lastProfileRebuildTime state) !! pid).
Proof.
  intros targets Hres. unfold buildProfiles in Hres.
  set (init := default ∅ (lastProfileRebuildTime state)) in *.
  pose (I := λ acc : Record GenreProfile * gmap string string,
          (∀ k, k ∈ map fst acc.1 → k ∈ targets)
          ∧ NoDup (map fst acc.1)
          ∧ (∀ k, k ∉ targets → acc.2 !! k = init !! k)
          ∧ (∀ k, is_Some (init !! k) → is_Some (acc.2 !! k))).
  pose (J := λ (pid : string) (acc : Record GenreProfile * gmap string string),
          pid ∈ map fst acc.1 ∧ is_Some (acc.2 !! pid)).
  eapply (forOf_Ok_inv I J) in Hres as (HI & HJ & _).
  - destruct HI as (Hsub & Hnd & Hoff & _). unfold Object_entries.
    split; [|split; [done|split; [|done]]].
    + intros pid. split; [apply Hsub | intros Hpid; by apply HJ].
    + intros pid Hpid _. by apply HJ.
  - intros pid [profs ts] w0 [profs' ts'] Hpid (Hsub & Hnd & Hoff & Hdom) Hbody.
    apply bind_Ok_inv in Hbody as (needs & Hneeds & Hbody).
    assert (Hkeys : ∀ prof k, k ∈ map fst (Record_set pid prof profs) → k ∈ targets).
    { intros prof k [-> | Hk]%elem_of_Record_set; auto. }
    destruct needs.
    + apply bind_Ok_inv in Hbody as (prof & _ & Hbody).
      apply bind_Ok_inv in Hbody as (now & _ & Hbody).
      apply ret_Ok_inv in Hbody. injection Hbody as <- <-.
      split; [|split].
      * split; [apply Hkeys|]. split; [by apply Record_set_NoDup|]. split.
        -- intros k Hk. simpl. rewrite lookup_insert_ne; [by apply Hoff|].
           by intros ->.
        -- intros k Hk. simpl. destruct (decide (pid = k)) as [->|Hne].
           ++ by rewrite lookup_insert_eq.
           ++ rewrite lookup_insert_ne by done. by apply Hdom.
      * split; simpl; [apply elem_of_Record_set; by left|].
        by rewrite lookup_insert_eq.
      * intros y [Hy1 Hy2]. split; simpl; [apply elem_of_Record_set; by right|].
        simpl in Hy2. destruct (decide (pid = y)) as [->|Hne].
        -- by rewrite lookup_insert_eq.
        -- by rewrite lookup_insert_ne.
    + apply shouldRebuildProfile_false in Hneeds as [l Hl].
      apply bind_Ok_inv in Hbody as (prof & _ & Hbody).
      apply ret_Ok_inv in Hbody. injection Hbody as <- <-.
      split; [|split].
      * split; [apply Hkeys|]. split; [by apply Record_set_NoDup|]. done.
      * split; simpl; [apply elem_of_Record_set; by left|].
        apply Hdom. fold init in Hl. by rewrite Hl.
      * intros y [Hy1 Hy2]. split; simpl; [apply elem_of_Record_set; by right|].
        done.
  - split; [by intros k ?%elem_of_nil|]. split; [constructor|]. done.
Qed.

(** ** The conduct of a run *)

#[local] Instance onlyAppends_preorder (targets : list string) :
  PreOrder (onlyAppends targets).
Proof.
  split.
  - intros w. split; [done|]. split; [done|]. intros pid.
    destruct (w_playlists w !! pid) as [pl|] eqn:Hpl; [|done].
    by exists pl.
  - intros w1 w2 w3 (He1 & Hs1 & Hp1) (He2 & Hs2 & Hp2).
    split; [congruence|]. split; [congruence|]. intros pid.
    specialize (Hp1 pid). specialize (Hp2 pid).
    destruct (w_playlists w1 !! pid) as [pl1|].
    + destruct Hp1 as (pl2 & Hpl2 & Hpre1 & Hsame1). rewrite Hpl2 in Hp2.
      destruct Hp2 as (pl3 & Hpl3 & Hpre2 & Hsame2).
      exists pl3. split; [done|]. split; [by etrans|].
      intros Hout. by rewrite (Hsame2 Hout), (Hsame1 Hout).
    + by rewrite Hp1 in Hp2.
Qed.

Section Conduct.
Context (targets : list string).

Lemma onlyAppends_same (w w' : World) :
  w_env w' = w_env w → w_saved w' = w_saved w →
  w_playlists w' = w_playlists w →
  onlyAppends targets w w'.
Proof.
  intros He Hs Hp. split; [done|]. split; [done|]. intros pid. rewrite Hp.
  destruct (w_playlists w !! pid) as [pl|]; [by exists pl | done].
Qed.

Abbreviation conducts Q m :=
  (maintains (onlyAppends targets) (orderly targets) Q m).

Lemma conduct_ret {A} (Q : A → Prop) (a : A) : Q a → conducts Q (mret a).
Proof. exact (maintains_ret _ _ Q a). Qed.

Lemma conduct_throw {A} (Q : A → Prop) (e : Error) : conducts Q (throw e).
Proof. exact (maintains_throw _ _ Q e). Qed.

Lemma conduct_gets {A} (f : World → A) : conducts (λ _, True) (gets f).
Proof. exact (maintains_gets _ _ f). Qed.

Lemma conduct_tell (ev : Event) :
  orderly targets ev → conducts (λ _, True) (tell ev).
Proof. exact (maintains_tell _ _ ev). Qed.

Lemma conduct_bind {A B} (P : A → Prop) (Q : B → Prop)
  (m : IO A) (f : A → IO B) :
  conducts P m → (∀ a, P a → conducts Q (f a)) → conducts Q (m ≫= f).
Proof. exact (maintains_bind _ _ P Q m f). Qed.

Lemma conduct_seq {A B} (Q : B → Prop) (m : IO A) (f : A → IO B) :
  conducts (λ _, True) m → (∀ a, conducts Q (f a)) → conducts Q (m ≫= f).
Proof. exact (maintains_seq _ _ Q m f). Qed.

Ltac conduct_step :=
  match goal with
  | |- maintains _ _ _ (mret _) => by apply conduct_ret
  | |- maintains _ _ _ (throw _) => apply conduct_throw
  | |- maintains _ _ _ (gets _) => apply conduct_gets
  | |- maintains _ _ _ (modify _) =>
      apply maintains_modify; intros; by apply onlyAppends_same
  | |- maintains _ _ _ (_ ≫= _) => eapply conduct_seq; [|intros ?]
  | |- maintains _ _ _ (match ?x with _ => _ end) => destruct x
  end.

Lemma conduct_newDate : conducts (λ _, True) newDate.
Proof. unfold newDate. repeat conduct_step. Qed.

Lemma conduct_callWithRetry {A} (ev : Event) (fn : IO A) :
  orderly targets ev →
  conducts (λ _, True) fn →
  conducts (λ _, True) (callWithRetry ev fn).
Proof.
  intros Hev Hfn. unfold callWithRetry.
  eapply conduct_seq; [by apply conduct_tell|]. intros _.
  repeat conduct_step; done.
Qed.

Lemma conduct_getPlaylistSnapshot pid :
  pid ∈ targets → conducts (λ _, True) (getPlaylistSnapshot pid).
Proof.
  intros Hpid. apply conduct_callWithRetry; [done|].
  unfold spotify_getPlaylist. repeat conduct_step.
Qed.

Lemma conduct_getPlaylistItemsPaginated pid limit offset :
  pid ∈ targets →
  conducts (λ _, True) (getPlaylistItemsPaginated pid limit offset).
Proof.
  intros Hpid. apply conduct_callWithRetry; [done|].
  unfold spotify_getPlaylistTracks. repeat conduct_step.
Qed.

Lemma conduct_getSavedTracksPaginated limit offset :
  conducts (λ _, True) (getSavedTracksPaginated limit offset).
Proof.
  apply conduct_callWithRetry; [done|].
  unfold spotify_getMySavedTracks. repeat conduct_step.
Qed.

Lemma conduct_getSeveralArtists ids :
  0 < length ids ≤ 50 → "" ∉ ids →
  conducts (λ _, True) (getSeveralArtists ids).
Proof.
  intros Hlen Hne. apply conduct_callWithRetry; [done|].
  unfold spotify_getArtists. repeat conduct_step.
Qed.

(** The catalog appends: the one step that changes a playlist. *)
Lemma conduct_spotify_addTracksToPlaylist pid uris :
  pid ∈ targets →
  conducts (λ _, True) (spotify_addTracksToPlaylist pid uris).
Proof.
  intros Hpid w. unfold spotify_addTracksToPlaylist. io_run. cbn.
  destruct (w_playlists w !! pid) as [pl|] eqn:Hpl; cbn;
    [|split; [reflexivity | by split]].
  destruct (mapM fromTrackUri uris) as [ids|]; cbn;
    [|split; [reflexivity | by split]].
  split; [|by split].
  split; [done|]. split; [done|]. intros pid'. cbn.
  destruct (decide (pid' = pid)) as [->|Hne].
  - rewrite Hpl, lookup_insert_eq. eexists. split; [done|]. cbn.
    split; [by apply prefix_app_r | done].
  - rewrite lookup_insert_ne by done.
    destruct (w_playlists w !! pid') as [pl'|]; [by exists pl' | done].
Qed.

Lemma conduct_addTracks pid slice :
  pid ∈ targets → 0 < length slice ≤ 100 →
  conducts (λ _, True)
    (callWithRetry (EvAddTracks pid (map toTrackUri slice))
       (spotify_addTracksToPlaylist pid (map toTrackUri slice))).
Proof.
  intros Hpid Hlen. apply conduct_callWithRetry.
  - split; [done|]. by rewrite length_map.
  - by apply conduct_spotify_addTracksToPlaylist.
Qed.

Lemma conduct_iteratePlaylistTracksFrom fuel pid offset :
  pid ∈ targets →
  conducts (λ _, True) (iteratePlaylistTracksFrom fuel pid offset).
Proof.
  intros Hpid. revert offset. induction fuel as [|fuel IH]; intros offset; simpl.
  - apply conduct_throw.
  - eapply conduct_seq; [by apply conduct_getPlaylistItemsPaginated|].
    intros r. destruct (decide _); [by apply conduct_ret|].
    destruct (negb _); [by apply conduct_ret|].
    eapply conduct_seq; [apply IH|]. intros; by apply conduct_ret.
Qed.

Lemma conduct_iteratePlaylistTracks pid :
  pid ∈ targets → conducts (λ _, True) (iteratePlaylistTracks pid).
Proof.
  intros Hpid. unfold iteratePlaylistTracks.
  eapply conduct_seq; [apply conduct_gets|]. intros pls.
  by apply conduct_iteratePlaylistTracksFrom.
Qed.

Lemma conduct_Cache_readFile : conducts (λ _, True) Cache_readFile.
Proof.
  unfold Cache_readFile.
  eapply conduct_seq; [by apply conduct_tell|]. intros _.
  repeat conduct_step.
Qed.

Lemma conduct_Cache_writeFile profiles :
  conducts (λ _, True) (Cache_writeFile profiles).
Proof.
  unfold Cache_writeFile.
  eapply conduct_seq; [by apply conduct_tell|]. intros _.
  repeat conduct_step.
Qed.

Lemma conduct_getCachedProfile pid snap :
  conducts (λ _, True) (getCachedProfile pid snap).
Proof.
  unfold getCachedProfile.
  eapply conduct_seq; [apply conduct_Cache_readFile|].
  intros; by apply conduct_ret.
Qed.

Lemma conduct_putCachedProfile entry :
  conducts (λ _, True) (putCachedProfile entry).
Proof.
  unfold putCachedProfile.
  eapply conduct_seq; [apply conduct_Cache_readFile|]. intros profiles.
  destruct (findIndex _ _); apply conduct_Cache_writeFile.
Qed.

Lemma conduct_getPlaylistTrackIdsSet pid :
  pid ∈ targets → conducts (λ _, True) (getPlaylistTrackIdsSet pid).
Proof.
  intros Hpid. unfold getPlaylistTrackIdsSet.
  eapply conduct_seq; [by apply conduct_iteratePlaylistTracks|].
  intros; by apply conduct_ret.
Qed.

(** A loop over a list whose elements all satisfy [P]. *)
Lemma conduct_forOf {A St} (P : A → Prop) (I : St → Prop) (xs : list A)
  (body : A → St → IO St) :
  Forall P xs →
  (∀ x s, P x → I s → conducts I (body x s)) →
  ∀ s, I s → conducts I (forOf xs body s).
Proof.
  intros Hxs Hbody. induction Hxs as [|x xs Hx _ IH]; intros s Hs; simpl.
  - by apply conduct_ret.
  - eapply conduct_bind; [by apply Hbody | apply IH].
Qed.

Lemma conduct_addTracksToPlaylistIfMissing pid trackIds :
  pid ∈ targets →
  conducts (λ _, True) (addTracksToPlaylistIfMissing pid trackIds).
Proof.
  intros Hpid. unfold addTracksToPlaylistIfMissing.
  eapply conduct_seq; [by apply conduct_getPlaylistTrackIdsSet|].
  intros existing. destruct (decide _); [by apply conduct_ret|].
  eapply conduct_seq; [|intros; by apply conduct_ret].
  eapply (conduct_forOf _ (λ _, True)); [|intros slice [] Hs _|done].
  - apply (slices_bounds 100). lia.
  - simpl in Hs. by apply conduct_addTracks.
Qed.

Lemma elem_of_concat {A} (x : A) (l : list A) (ls : list (list A)) :
  x ∈ l → l ∈ ls → x ∈ concat ls.
Proof.
  intros Hx Hl. induction ls as [|l' ls IH]; [by apply elem_of_nil in Hl|].
  simpl. apply elem_of_app.
  apply elem_of_cons in Hl as [<- | Hl]; [by left | right; by apply IH].
Qed.

Lemma truthy_filter_nonempty (l : list string) (b : list string) :
  b ∈ slices 50 (List.filter truthy l) → "" ∉ b.
Proof.
  intros Hb Hin.
  assert (Hall : "" ∈ List.filter truthy l).
  { rewrite <- (slices_concat 50 (List.filter truthy l)) by lia.
    by apply (elem_of_concat _ b). }
  apply elem_of_List_filter in Hall as [_ Ht]. done.
Qed.

Lemma artist_batches (l : list string) :
  Forall (λ b, 0 < length b ≤ 50 ∧ "" ∉ b) (slices 50 (List.filter truthy l)).
Proof.
  destruct (slices_bounds 50 (List.filter truthy l) ltac:(lia)) as [Hb _].
  rewrite Forall_forall in Hb |- *. intros b Hin. split; [by apply Hb|].
  by eapply truthy_filter_nonempty.
Qed.

Lemma conduct_buildPlaylistGenreProfile pid :
  pid ∈ targets → conducts (λ _, True) (buildPlaylistGenreProfile pid).
Proof.
  intros Hpid. unfold buildPlaylistGenreProfile.
  eapply conduct_seq; [by apply conduct_getPlaylistSnapshot|]. intros snap.
  eapply conduct_seq; [apply conduct_getCachedProfile|]. intros cached.
  destruct cached as [c|]; [by apply conduct_ret|].
  eapply conduct_seq; [by apply conduct_iteratePlaylistTracks|].
  intros tracks.
  eapply conduct_seq.
  { eapply (conduct_forOf _ (λ _, True)); [apply artist_batches| |done].
    intros batch counts [Hlen Hne] _.
    eapply conduct_seq; [by apply conduct_getSeveralArtists|].
    intros; by apply conduct_ret. }
  intros counts.
  eapply conduct_seq; [apply conduct_newDate|]. intros now.
  eapply conduct_seq; [apply conduct_putCachedProfile|].
  intros; by apply conduct_ret.
Qed.

Lemma conduct_shouldRebuildProfile last :
  conducts (λ _, True) (shouldRebuildProfile last).
Proof.
  unfold shouldRebuildProfile.
  destruct last as [l|]; [|by apply conduct_ret].
  destruct (truthy l); [|by apply conduct_ret].
  eapply conduct_seq; [apply conduct_newDate|]. intros now.
  eapply conduct_seq; [apply conduct_gets|].
  intros; by apply conduct_ret.
Qed.

Lemma conduct_buildProfiles state tgts :
  Forall (λ pid, pid ∈ targets) tgts →
  conducts (λ acc, ∀ pid, pid ∈ map fst acc.1 → pid ∈ targets)
    (buildProfiles state tgts).
Proof.
  intros Htgts. unfold buildProfiles.
  eapply (conduct_forOf _ (λ acc : Record GenreProfile * gmap string string,
                             ∀ pid, pid ∈ map fst acc.1 → pid ∈ targets));
    [exact Htgts | | by intros pid ?%elem_of_nil].
  intros pid [profiles updated] Hpid Hacc. simpl in Hacc.
  assert (Hkeys : ∀ prof k,
            k ∈ map fst (Record_set pid prof profiles) → k ∈ targets).
  { intros prof k [-> | Hk]%elem_of_Record_set; auto. }
  eapply conduct_seq; [apply conduct_shouldRebuildProfile|].
  intros [|].
  - eapply conduct_seq; [by apply conduct_buildPlaylistGenreProfile|].
    intros prof.
    eapply conduct_seq; [apply conduct_newDate|].
    intros; apply conduct_ret. apply Hkeys.
  - eapply conduct_seq; [by apply conduct_buildPlaylistGenreProfile|].
    intros; apply conduct_ret. apply Hkeys.
Qed.

Lemma conduct_trackGenresOf track :
  conducts (λ _, True) (trackGenresOf track).
Proof.
  unfold trackGenresOf.
  eapply (conduct_forOf _ (λ _, True)); [apply artist_batches| |done].
  intros batch genres [Hlen Hne] _.
  eapply conduct_seq; [by apply conduct_getSeveralArtists|].
  intros; by apply conduct_ret.
Qed.

Lemma pickBestPlaylist_key (gs : list string) (profiles : Record GenreProfile)
  (pid : string) :
  pickBestPlaylist gs profiles = Some pid → pid ∈ map fst profiles.
Proof.
  unfold pickBestPlaylist, Object_entries.
  destruct (pickBestLoop_first_max gs profiles None (-1)%Z)
    as [[_ ->] | (i & pid' & prof & Hi & -> & _)]; [done|].
  intros [= <-]. apply list_elem_of_fmap. exists (pid', prof). split; [done|].
  by eapply list_elem_of_lookup_2.
Qed.

Lemma ranking_key (gs : list string) (profiles : Record GenreProfile)
  (pid : string) (s : Z) :
  head (ranking gs profiles) = Some (pid, s) → pid ∈ map fst profiles.
Proof.
  intros Hhead. pose proof (ranking_first_maximum gs profiles) as Hr.
  rewrite Hhead in Hr. destruct Hr as [(i & prof & Hi & _) _].
  apply list_elem_of_fmap. exists (pid, prof). split; [done|].
  by eapply list_elem_of_lookup_2.
Qed.

Lemma conduct_routeItem state tgts profiles item acc :
  tgts ≠ [] → Forall (λ pid, pid ∈ targets) tgts →
  (∀ pid, pid ∈ map fst profiles → pid ∈ targets) →
  toTargets targets acc →
  conducts (λ r, toTargets targets (stepState r))
    (routeItem state tgts profiles item acc).
Proof.
  intros Hne Htgts Hprof Hacc. unfold routeItem.
  destruct acc as [byPlaylist newest].
  destruct (truthyOpt (lastProcessedAddedAt state)
            && leOpt (added_at item) (lastProcessedAddedAt state)).
  - by apply conduct_ret.
  - eapply conduct_seq; [apply conduct_trackGenresOf|]. intros gs.
    fold (ranking gs profiles).
    match goal with
    | |- context [EvRoute item ?b] => set (best := b)
    end.
    assert (Hbest : best ∈ targets).
    { subst best. destruct (pickBestPlaylist gs profiles) as [b|] eqn:Hpick.
      - by apply Hprof, (pickBestPlaylist_key gs).
      - destruct (head (ranking gs profiles)) as [[pid s]|] eqn:Hhead.
        + by apply Hprof, (ranking_key gs _ _ s).
        + destruct tgts as [|t tgts]; [done|]. simpl.
          by apply Forall_cons in Htgts as [? _]. }
    eapply conduct_seq; [by apply conduct_tell|]. intros _.
    apply conduct_ret. intros pid. simpl.
    intros [-> | Hk]%elem_of_Record_set; [done | by apply Hacc].
Qed.

Lemma conduct_forOfBreak {A St} (I : St → Prop) (xs : list A)
  (body : A → St → IO (LoopStep St)) :
  (∀ x s, I s → conducts (λ r, I (stepState r)) (body x s)) →
  ∀ s, I s → conducts (λ r, I (stepState r)) (forOfBreak xs body s).
Proof.
  intros Hbody. induction xs as [|x xs IH]; intros s Hs; simpl.
  - by apply conduct_ret.
  - eapply conduct_bind; [by apply Hbody|].
    intros [s'|s'] Hs'; [by apply IH | by apply conduct_ret].
Qed.

Lemma conduct_forAwaitSavedTracksFrom {St} (I : St → Prop) fuel offset
  (body : SavedTrackItem → St → IO (LoopStep St)) s :
  (∀ x s, I s → conducts (λ r, I (stepState r)) (body x s)) →
  I s →
  conducts I (forAwaitSavedTracksFrom fuel offset body s).
Proof.
  intros Hbody. revert offset s.
  induction fuel as [|fuel IH]; intros offset s Hs; simpl.
  - apply conduct_throw.
  - eapply conduct_seq; [apply conduct_getSavedTracksPaginated|].
    intros r. destruct (decide _); [by apply conduct_ret|].
    eapply conduct_bind; [by apply conduct_forOfBreak|].
    intros [s'|s'] Hs'; [|by apply conduct_ret].
    destruct (negb _); [by apply conduct_ret | by apply IH].
Qed.

Lemma conduct_forAwaitSavedTracks {St} (I : St → Prop)
  (body : SavedTrackItem → St → IO (LoopStep St)) s :
  (∀ x s, I s → conducts (λ r, I (stepState r)) (body x s)) →
  I s →
  conducts I (forAwaitSavedTracks body s).
Proof.
  intros Hbody Hs. unfold forAwaitSavedTracks.
  eapply conduct_seq; [apply conduct_gets|]. intros saved.
  by apply conduct_forAwaitSavedTracksFrom.
Qed.

Lemma conduct_writePlaylists byPlaylist :
  (∀ pid, pid ∈ map fst byPlaylist → pid ∈ targets) →
  conducts (λ _, True) (writePlaylists byPlaylist).
Proof.
  intros Hkeys. unfold writePlaylists, Object_entries.
  eapply (conduct_forOf (λ e, e.1 ∈ targets) (λ _, True)); [| |done].
  - apply Forall_forall. intros [pid ids] Hin. apply Hkeys.
    apply list_elem_of_fmap. by exists (pid, ids).
  - intros [pid ids] [] Hpid _. simpl in Hpid.
    destruct (decide _); [by apply conduct_ret|].
    eapply conduct_seq; [by apply conduct_addTracksToPlaylistIfMissing|].
    intros; by apply conduct_ret.
Qed.

End Conduct.

(** *** The whole run *)

Lemma conduct_incrementalRun (state : State) (w : World) :
  let targets := getTargetPlaylistIds (w_env w) in
  onlyAppends targets w (world (incrementalRun state w))
  ∧ Forall (orderly targets) (trace (incrementalRun state w)).
Proof.
  intros targets. unfold incrementalRun.
  rewrite (bind_run (gets w_env) _ w w (w_env w) []) by done.
  fold targets. unfold prefixed. cbn [res world trace app].
  destruct (decide (length targets = 0)) as [Hnone|Hsome].
  - split; [reflexivity | constructor].
  - assert (Hne : targets ≠ []) by (by intros Heq; rewrite Heq in Hsome).
    assert (Hall : Forall (λ pid, pid ∈ targets) targets)
      by (by apply Forall_forall).
    match goal with
    | |- context [world (?m w)] =>
        assert (Hm : maintains (onlyAppends targets) (orderly targets)
                       (λ _, True) m)
    end.
    { eapply conduct_bind; [by apply conduct_buildProfiles|].
      intros [profiles updated] Hprof. simpl in Hprof.
      eapply conduct_bind.
      { apply (conduct_forAwaitSavedTracks targets (toTargets targets)).
        - intros item acc Hacc. by apply conduct_routeItem.
        - by intros pid ?%elem_of_nil. }
      intros [byPlaylist newest] Hacc.
      eapply conduct_seq; [by apply conduct_writePlaylists|]. intros _.
      by apply conduct_ret. }
    destruct (Hm w) as (HR & HT & _). by split.
Qed.

Lemma main_shape (w : World) :
  let targets := getTargetPlaylistIds (w_env w) in
  onlyAppends targets w (world (main w))
  ∧ ∃ t tail,
      trace (main w) = EvReadState :: t ++ tail
      ∧ Forall (orderly targets) t
      ∧ match res (main w) with
        | Ok _ =>
            ∃ st, tail = [EvWriteState st]
                  ∧ w_stateFile (world (main w)) = Json st
        | Throw _ => tail = []
        end.
Proof.
  intros targets.
  destruct (truthyOpt (lastProcessedAddedAt (loadedState (w_stateFile w))))
    eqn:Hwm.
  - rewrite (main_incremental w Hwm). cbv zeta.
    destruct (conduct_incrementalRun (startState (w_stateFile w)) w)
      as [HR HT]. fold targets in HR, HT.
    destruct (res (incrementalRun (startState (w_stateFile w)) w))
      as [st|e] eqn:Hres; cbn [res world trace].
    + split.
      * etrans; [exact HR|]. by apply onlyAppends_same.
      * exists (trace (incrementalRun (startState (w_stateFile w)) w)),
          [EvWriteState st].
        split; [done|]. split; [done|]. by exists st.
    + split; [done|].
      exists (trace (incrementalRun (startState (w_stateFile w)) w)), [].
      split; [by rewrite app_nil_r|]. by split.
  - rewrite (main_firstRun w Hwm). cbn [res world trace].
    split; [by apply onlyAppends_same|].
    exists [], [EvWriteState (initialState (w_stateFile w) (w_time w (w_tick w)))].
    split; [done|]. split; [constructor|]. by eexists.
Qed.

(** X16.  In every run of [main], successful or not, an artist request
    carries between 1 and 50 ids, none of them empty, and an insertion
    request between 1 and 100 URIs. *)
Theorem main_respects_request_limits (w : World) :
  Forall (λ ev,
            match ev with
            | EvGetArtists ids => 0 < length ids ≤ 50 ∧ "" ∉ ids
            | EvAddTracks _ uris => 0 < length uris ≤ 100
            | _ => True
            end)
    (trace (main w)).
Proof.
  destruct (main_shape w) as (_ & t & tail & -> & Ht & Htail).
  constructor; [done|]. apply Forall_app. split.
  - eapply Forall_impl; [exact Ht|]. intros [] Hev; try done.
    by destruct Hev.
  - destruct (res (main w)).
    + destruct Htail as (st & -> & _). by repeat constructor.
    + subst tail. constructor.
Qed.

(** X17.  In every run of [main], the version and membership requests,
    the insertions and the routing decisions all concern target playlists
    of the configuration, and a playlist that is not a target is the same
    after the run. *)
Theorem main_touches_target_playlists_only (w : World) :
  let targets := getTargetPlaylistIds (w_env w) in
  Forall (λ ev,
            match ev with
            | EvGetPlaylist pid | EvGetPlaylistTracks pid _
            | EvAddTracks pid _ | EvRoute _ pid => pid ∈ targets
            | _ => True
            end)
    (trace (main w))
  ∧ (∀ pid, pid ∉ targets →
       w_playlists (world (main w)) !! pid = w_playlists w !! pid).
Proof.
  intros targets.
  destruct (main_shape w) as ((_ & _ & Hpl) & t & tail & -> & Ht & Htail).
  fold targets in Hpl, Ht. split.
  - constructor; [done|]. apply Forall_app. split.
    + eapply Forall_impl; [exact Ht|]. intros [] Hev; try done.
      by destruct Hev.
    + destruct (res (main w)).
      * destruct Htail as (st & -> & _). by repeat constructor.
      * subst tail. constructor.
  - intros pid Hout. specialize (Hpl pid).
    destruct (w_playlists w !! pid) as [pl|]; [|done].
    destruct Hpl as (pl' & -> & _ & Hsame). by rewrite (Hsame Hout).
Qed.

(** X18.  In every run of [main], successful or not, the liked songs are
    unchanged, no playlist appears or disappears, and every playlist keeps
    its items, in order, as a prefix of its items after the run: the
    program only appends. *)
Theorem main_only_appends_to_playlists (w : World) :
  w_saved (world (main w)) = w_saved w
  ∧ ∀ pid,
      match w_playlists w !! pid with
      | Some pl =>
          ∃ pl', w_playlists (world (main w)) !! pid = Some pl'
                 ∧ playlist_items pl `prefix_of` playlist_items pl'
      | None => w_playlists (world (main w)) !! pid = None
      end.
Proof.
  destruct (main_shape w) as ((_ & Hsaved & Hpl) & _).
  split; [done|]. intros pid. specialize (Hpl pid).
  destruct (w_playlists w !! pid) as [pl|]; [|done].
  destruct Hpl as (pl' & Hpl' & Hpre & _). by exists pl'.
Qed.

(** X19.  Every run of [main] starts with the one state read; between it
    and the end of the run there is no state I/O; a run that returns ends
    with the one state write, of the state the file then holds, and a run
    that fails performs none. *)
Theorem main_reads_state_first_writes_last (w : World) :
  ∃ t tail,
    trace (main w) = EvReadState :: t ++ tail
    ∧ Forall (λ ev, isStateIO ev = false) t
    ∧ match res (main w) with
      | Ok _ =>
          ∃ st, tail = [EvWriteState st]
                ∧ w_stateFile (world (main w)) = Json st
      | Throw _ => tail = []
      end.
Proof.
  destruct (main_shape w) as (_ & t & tail & Htrace & Ht & Htail).
  exists t, tail. split; [done|]. split; [|done].
  eapply Forall_impl; [exact Ht|]. by intros [].
Qed.

(** ** Routed tracks reach their playlist *)

Lemma Record_get_replace {V} (k k' : string) (v : V) (o : Record V) :
  Record_get k' (Record_replace k v o)
  = if decide (k' = k)
    then (match Record_get k o with Some _ => Some v | None => None end)
    else Record_get k' o.
Proof.
  induction o as [|[k0 v0] o IH]; simpl.
  - by destruct (decide _).
  - destruct (String.eqb_spec k k0) as [->|Hne]; simpl.
    + destruct (decide (k' = k0)) as [->|Hne'].
      * by rewrite String.eqb_refl.
      * by destruct (String.eqb_spec k' k0).
    + rewrite IH. destruct (decide (k' = k)) as [->|Hne'].
      * by destruct (String.eqb_spec k k0).
      * done.
Qed.

Lemma Record_get_insertIndex {V} (n : N) (k k' : string) (v : V)
  (o : Record V) :
  Record_get k o = None →
  Record_get k' (Record_insertIndex n k v o)
  = if decide (k' = k) then Some v else Record_get k' o.
Proof.
  intros Hk. induction o as [|[k0 v0] o IH]; simpl in *.
  - destruct (decide (k' = k)) as [->|Hne].
    + by rewrite String.eqb_refl.
    + by destruct (String.eqb_spec k' k).
  - destruct (String.eqb_spec k k0) as [->|Hne0]; [done|].
    assert (Hins : Record_get k' ((k, v) :: (k0, v0) :: o)
                   = if decide (k' = k) then Some v
                     else if String.eqb k' k0 then Some v0
                          else Record_get k' o).
    { simpl. destruct (decide (k' = k)) as [->|Hne].
      - by rewrite String.eqb_refl.
      - by destruct (String.eqb_spec k' k). }
    destruct (arrayIndex k0) as [n0|]; [|exact Hins].
    destruct (n <? n0)%N; [exact Hins|]. simpl.
    rewrite (IH Hk). destruct (decide (k' = k)) as [->|Hne]; [|done].
    by destruct (String.eqb_spec k k0).
Qed.

Lemma Record_get_snoc {V} (k k' : string) (v : V) (o : Record V) :
  Record_get k o = None →
  Record_get k' (o ++ [(k, v)])
  = if decide (k' = k) then Some v else Record_get k' o.
Proof.
  intros Hk. induction o as [|[k0 v0] o IH]; simpl in *.
  - destruct (decide (k' = k)) as [->|Hne].
    + by rewrite String.eqb_refl.
    + by destruct (String.eqb_spec k' k).
  - destruct (String.eqb_spec k k0) as [->|Hne0]; [done|].
    rewrite (IH Hk). destruct (decide (k' = k)) as [->|Hne]; [|done].
    by destruct (String.eqb_spec k k0).
Qed.

(** [o[k] = v] then [o[k']]. *)
Lemma Record_get_set {V} (k k' : string) (v : V) (o : Record V) :
  Record_get k' (Record_set k v o)
  = if decide (k' = k) then Some v else Record_get k' o.
Proof.
  unfold Record_set. destruct (Record_get k o) as [v0|] eqn:Hk.
  - by rewrite Record_get_replace, Hk.
  - destruct (arrayIndex k).
    + by apply Record_get_insertIndex.
    + by apply Record_get_snoc.
Qed.

Lemma Record_get_elem {V} (k : string) (v : V) (o : Record V) :
  Record_get k o = Some v → (k, v) ∈ o.
Proof.
  induction o as [|[k0 v0] o IH]; simpl; [done|].
  destruct (String.eqb_spec k k0) as [->|Hne].
  - intros [= ->]. by left.
  - intros Hg. right. by apply IH.
Qed.

Lemma bind_Ok_trace {A B} (m : IO A) (f : A → IO B) (w : World) (a : A) :
  res (m w) = Ok a →
  trace ((m ≫= f) w) = trace (m w) ++ trace (f a (world (m w)))
  ∧ world ((m ≫= f) w) = world (f a (world (m w))).
Proof. intros Hm. by rewrite (bind_ok _ _ _ a Hm). Qed.

Lemma routes_app (t1 t2 : list Event) :
  routes (t1 ++ t2) = routes t1 ++ routes t2.
Proof. apply omap_app. Qed.

Lemma routes_none (t : list Event) :
  Forall (λ ev, ∀ item pid, ev ≠ EvRoute item pid) t → routes t = [].
Proof.
  induction 1 as [|ev t Hev _ IH]; [done|].
  destruct ev; try exact IH. by destruct (Hev item pid).
Qed.

Lemma elem_of_routes (t : list Event) (pid id : string) :
  (pid, id) ∈ routes t
  ↔ ∃ item, EvRoute item pid ∈ t ∧ id = track_id (saved_track item).
Proof.
  unfold routes. rewrite list_elem_of_omap. split.
  - intros (ev & Hev & Heq). destruct ev; try done.
    injection Heq as <- <-. eauto.
  - intros (item & Hin & ->). by exists (EvRoute item pid).
Qed.

Lemma not_route_getArtists (batches : list (list string)) :
  Forall (λ ev, ∀ item pid, ev ≠ EvRoute item pid) (map EvGetArtists batches).
Proof. apply Forall_fmap, Forall_forall. by intros. Qed.

Lemma trackGenresOf_routes (track : TrackObjectFull) (w : World)
  (gs : list string) :
  res (trackGenresOf track w) = Ok gs →
  routes (trace (trackGenresOf track w)) = [].
Proof.
  intros Hres.
  destruct (robust_trackGenresOf track w gs Hres) as (_ & <- & _).
  rewrite (trackGenresOf_reliable (reliable w) track eq_refl). cbn [trace].
  apply routes_none, not_route_getArtists.
Qed.

Lemma recording_routeItem state targets profiles item
  (acc : Record (list string) * option string) :
  recording (λ r, (stepState r).1) acc.1
    (routeItem state targets profiles item acc).
Proof.
  intros w r. unfold routeItem. destruct acc as [byPlaylist newest].
  destruct (truthyOpt (lastProcessedAddedAt state)
            && leOpt (added_at item) (lastProcessedAddedAt state)).
  - intros Hr. apply ret_Ok_inv in Hr as <-. cbn. split; [done|].
    by intros pid id ?%elem_of_nil.
  - destruct (res (trackGenresOf (saved_track item) w)) as [gs|e] eqn:Hgs;
      [|by rewrite (bind_throw _ _ _ e Hgs)].
    rewrite (bind_ok _ _ _ gs Hgs). cbn [res trace].
    match goal with
    | |- context [EvRoute item ?b] => set (best := b)
    end.
    io_run. cbn. intros [= <-]. cbn.
    unfold collected. split.
    + intros pid id Hold. rewrite Record_get_set.
      destruct (decide (pid = best)) as [->|]; [|done].
      simpl. apply elem_of_app. by left.
    + intros pid id. rewrite routes_app, (trackGenresOf_routes _ _ _ Hgs).
      cbn. intros [= -> ->]%list_elem_of_singleton.
      rewrite Record_get_set, decide_True by done. simpl.
      apply elem_of_app. right. by left.
Qed.

Lemma recording_forOfBreak {A St} (proj : St → Record (list string))
  (xs : list A) (body : A → St → IO (LoopStep St)) :
  (∀ x s, recording (λ r, proj (stepState r)) (proj s) (body x s)) →
  ∀ s, recording (λ r, proj (stepState r)) (proj s) (forOfBreak xs body s).
Proof.
  intros Hbody. induction xs as [|x xs IH]; intros s w r; cbn [forOfBreak].
  - intros Hr. apply ret_Ok_inv in Hr as <-. split; [done|].
    by intros pid id ?%elem_of_nil.
  - destruct (res (body x s w)) as [r1|e] eqn:H1;
      [|by rewrite (bind_throw _ _ _ e H1)].
    rewrite (bind_ok _ _ _ r1 H1). cbn [res trace].
    destruct (Hbody x s w r1 H1) as [Hkeep1 Hrec1].
    destruct r1 as [s1|s1]; simpl in Hkeep1, Hrec1.
    + intros Hr. destruct (IH s1 _ r Hr) as [Hkeep2 Hrec2].
      split; [by auto|]. intros pid id. rewrite routes_app.
      intros [?|?]%elem_of_app; auto.
    + intros Hr. apply ret_Ok_inv in Hr as <-. cbn.
      split; [done|]. intros pid id. rewrite app_nil_r. auto.
Qed.

Lemma routes_getSavedTracks (offset : nat) (w : World) :
  routes (trace (getSavedTracksPaginated 50 offset w)) = [].
Proof.
  unfold getSavedTracksPaginated. rewrite callWithRetry_run.
  unfold spotify_getMySavedTracks, prefixed. io_run.
  by destruct (w_failAfter w) as [[|n]|].
Qed.

Lemma recording_forAwaitSavedTracksFrom {St} (proj : St → Record (list string))
  (body : SavedTrackItem → St → IO (LoopStep St)) :
  (∀ x s, recording (λ r, proj (stepState r)) (proj s) (body x s)) →
  ∀ fuel offset s,
    recording proj (proj s) (forAwaitSavedTracksFrom fuel offset body s).
Proof.
  intros Hbody. induction fuel as [|fuel IH]; intros offset s w r;
    cbn [forAwaitSavedTracksFrom]; [done|].
  destruct (res (getSavedTracksPaginated 50 offset w)) as [p|e] eqn:Hp;
    [|by rewrite (bind_throw _ _ _ e Hp)].
  rewrite (bind_ok _ _ _ p Hp). cbn [res trace].
  rewrite routes_app, routes_getSavedTracks, app_nil_l.
  destruct (decide (length (items p) = 0)).
  { intros Hr. apply ret_Ok_inv in Hr as <-. split; [done|].
    by intros pid id ?%elem_of_nil. }
  set (w1 := world (getSavedTracksPaginated 50 offset w)).
  destruct (res (forOfBreak (items p) body s w1)) as [r1|e] eqn:H1;
    [|by rewrite (bind_throw _ _ _ e H1)].
  rewrite (bind_ok _ _ _ r1 H1). cbn [res trace].
  destruct (recording_forOfBreak proj (items p) body Hbody s w1 r1 H1)
    as [Hkeep1 Hrec1].
  destruct r1 as [s1|s1]; simpl in Hkeep1, Hrec1.
  - destruct (negb (next p)).
    + intros Hr. apply ret_Ok_inv in Hr as <-. cbn.
      split; [done|]. intros pid id. rewrite app_nil_r. auto.
    + intros Hr. destruct (IH _ s1 _ r Hr) as [Hkeep2 Hrec2].
      split; [by auto|]. intros pid id. rewrite routes_app.
      intros [?|?]%elem_of_app; auto.
  - intros Hr. apply ret_Ok_inv in Hr as <-. cbn.
    split; [done|]. intros pid id. rewrite app_nil_r. auto.
Qed.

(** The ids a successful insertion was asked about are in the playlist
    afterwards. *)
Lemma addTracksToPlaylistIfMissing_members (w : World) (pid : string)
  (trackIds : list string) (r : AddResult) :
  res (addTracksToPlaylistIfMissing pid trackIds w) = Ok r →
  ∀ id, id ∈ trackIds →
        id ∈ playlistTrackIds
               (world (addTracksToPlaylistIfMissing pid trackIds w)) pid.
Proof.
  intros Hres.
  destruct (robust_addTracksToPlaylistIfMissing pid trackIds w r Hres)
    as (Hrel & Htrace & Hworld).
  destruct (w_playlists w !! pid) as [pl|] eqn:Hpl; cycle 1.
  { exfalso. unfold addTracksToPlaylistIfMissing in Hrel.
    destruct (res (getPlaylistTrackIdsSet pid (reliable w)))
      as [existing|e] eqn:Hex.
    - by apply (getPlaylistTrackIdsSet_unknown (reliable w) pid existing).
    - by rewrite (bind_throw _ _ _ e Hex) in Hrel. }
  destruct (addTracksToPlaylistIfMissing_reliable (reliable w) pid pl
              trackIds r eq_refl Hpl Hrel)
    as (Htruthy & _ & _ & pl' & Hpl' & Hitems).
  rewrite Hworld in Hpl'.
  change (w_playlists (reliable ?x)) with (w_playlists x) in Hpl'.
  intros id Hid. unfold playlistTrackIds. rewrite Hpl', Hitems.
  rewrite trackIds_after_append, elem_of_app.
  destruct (decide (id ∈ existingIds pl)) as [Hold|Hnew].
  - left. by apply elem_of_existingIds in Hold as [_ ?].
  - right. by apply list_elem_of_filter.
Qed.

Lemma yieldedTracks_app (l1 l2 : list PlaylistTrackObject) :
  yieldedTracks (l1 ++ l2) = yieldedTracks l1 ++ yieldedTracks l2.
Proof. apply omap_app. Qed.

(** Playlists that only grow keep their tracks. *)
Lemma onlyAppends_members (targets : list string) (w w' : World)
  (pid id : string) :
  onlyAppends targets w w' →
  id ∈ playlistTrackIds w pid → id ∈ playlistTrackIds w' pid.
Proof.
  intros (_ & _ & Hpl). specialize (Hpl pid). unfold playlistTrackIds.
  destruct (w_playlists w !! pid) as [pl|]; [|by intros ?%elem_of_nil].
  destruct Hpl as (pl' & -> & [more ->] & _).
  rewrite yieldedTracks_app, map_app, elem_of_app. by left.
Qed.

Lemma writePlaylists_members (entries : Record (list string)) :
  ∀ w,
    res (writePlaylists entries w) = Ok tt →
    ∀ pid ids id,
      (pid, ids) ∈ entries → id ∈ ids →
      id ∈ playlistTrackIds (world (writePlaylists entries w)) pid.
Proof.
  unfold writePlaylists, Object_entries.
  induction entries as [|[pid0 ids0] entries IH]; intros w Hres pid ids id Hin Hid.
  - by apply elem_of_nil in Hin.
  - cbn [forOf] in Hres |- *.
    match type of Hres with
    | res ((?m ≫= _) w) = _ => destruct (res (m w)) as [[]|e] eqn:H1
    end; [|by rewrite (bind_throw _ _ _ e H1) in Hres].
    rewrite (bind_ok _ _ _ tt H1) in Hres |- *. cbn [res world] in Hres |- *.
    match type of Hres with
    | res (_ ?w1) = _ => set (w' := w1) in *
    end.
    apply elem_of_cons in Hin as [[= -> ->] | Hin]; [|by eapply IH].
    pose proof (conduct_writePlaylists (map fst entries) entries
                  ltac:(done) w') as (Hgrow & _).
    unfold writePlaylists, Object_entries in Hgrow.
    eapply onlyAppends_members; [exact Hgrow|].
    subst w'. destruct (decide (length ids0 = 0)) as [Hz|Hnz].
    + apply length_zero_iff_nil in Hz. subst ids0. by apply elem_of_nil in Hid.
    + match type of H1 with
      | res ((?m ≫= _) w) = _ => destruct (res (m w)) as [r|e] eqn:Hadd
      end; [|by rewrite (bind_throw _ _ _ e Hadd) in H1].
      rewrite (bind_ok _ _ _ r Hadd). cbn [world].
      by apply (addTracksToPlaylistIfMissing_members w pid0 ids0 r).
Qed.

#[local] Instance anyWorld_preorder' : PreOrder (λ _ _ : World, True).
Proof. by split. Qed.

Lemma elem_of_routes_not (t : list Event) (item : SavedTrackItem)
  (pid : string) :
  Forall (λ ev, ∀ item pid, ev ≠ EvRoute item pid) t →
  EvRoute item pid ∉ t.
Proof.
  intros Ht Hin. rewrite Forall_forall in Ht. by apply (Ht _ Hin item pid).
Qed.

Lemma incrementalRun_delivers (state : State) (w : World) (st : State) :
  res (incrementalRun state w) = Ok st →
  ∀ item pid,
    EvRoute item pid ∈ trace (incrementalRun state w) →
    track_id (saved_track item)
    ∈ playlistTrackIds (world (incrementalRun state w)) pid.
Proof.
  intros Hres item pid. revert Hres. unfold incrementalRun.
  rewrite (bind_run (gets w_env) _ w w (w_env w) []) by done.
  cbv beta.
  destruct (decide (length (getTargetPlaylistIds (w_env w)) = 0)); [done|].
  set (targets := getTargetPlaylistIds (w_env w)).
  unfold prefixed. cbn [res world trace app].
  destruct (res (buildProfiles state targets w)) as [[profiles updated]|e]
    eqn:Hbuild; [|by rewrite (bind_throw _ _ _ e Hbuild)].
  destruct (maintains_buildProfiles (λ _ _, True)
              (λ ev, ∀ item pid, ev ≠ EvRoute item pid)
              ltac:(done) ltac:(done) ltac:(done)
              ltac:(by intros) state targets w) as (_ & Htrace1 & _).
  rewrite (bind_ok _ _ _ _ Hbuild). cbn [res world trace].
  set (w1 := world (buildProfiles state targets w)).
  set (loop := forAwaitSavedTracks (routeItem state targets profiles)
                 ([], lastProcessedAddedAt state)).
  destruct (res (loop w1)) as [[byPlaylist newest]|e] eqn:Hloop;
    [|by rewrite (bind_throw _ _ _ e Hloop)].
  rewrite (bind_ok _ _ _ _ Hloop). cbn [res world trace].
  set (w2 := world (loop w1)).
  destruct (maintains_writePlaylists (λ _ _, True)
              (λ ev, ∀ item pid, ev ≠ EvRoute item pid)
              ltac:(done) ltac:(done) ltac:(by intros) ltac:(done)
              byPlaylist w2) as (_ & Htrace3 & _).
  destruct (res (writePlaylists byPlaylist w2)) as [[]|e] eqn:Hwrite;
    [|by rewrite (bind_throw _ _ _ e Hwrite)].
  rewrite (bind_ok _ _ _ _ Hwrite). cbn [res world trace].
  intros _. rewrite app_nil_r, !elem_of_app.
  intros [Hin | [Hin | Hin]].
  - by apply elem_of_routes_not in Hin.
  - assert (Hrec : recording fst [] loop).
    { subst loop. unfold forAwaitSavedTracks. intros w0 r0.
      rewrite (bind_run (gets w_saved) _ w0 w0 (w_saved w0) []) by done.
      unfold prefixed. cbn [res trace app].
      apply (recording_forAwaitSavedTracksFrom fst
               (routeItem state targets profiles)
               (λ x s, recording_routeItem state targets profiles x s)
               _ 0 ([], lastProcessedAddedAt state)). }
    destruct (Hrec w1 _ Hloop) as [_ Hroutes].
    specialize (Hroutes pid (track_id (saved_track item))).
    unfold collected in Hroutes. cbn [fst] in Hroutes.
    destruct (Record_get pid byPlaylist) as [ids|] eqn:Hget.
    + apply (writePlaylists_members byPlaylist w2 Hwrite pid ids).
      * by apply Record_get_elem.
      * apply Hroutes, elem_of_routes. eauto.
    + exfalso. eapply elem_of_nil, Hroutes, elem_of_routes. eauto.
  - by apply elem_of_routes_not in Hin.
Qed.

(** X20.  After a run of [main] that returns, every liked track that was
    routed is in the playlist it was routed to. *)
Theorem main_delivers_every_routed_track (w : World) :
  res (main w) = Ok tt →
  ∀ item pid,
    EvRoute item pid ∈ trace (main w) →
    track_id (saved_track item) ∈ playlistTrackIds (world (main w)) pid.
Proof.
  intros Hok item pid.
  destruct (truthyOpt (lastProcessedAddedAt (loadedState (w_stateFile w))))
    eqn:Hwm.
  - rewrite (main_incremental w Hwm) in Hok |- *. cbv zeta in Hok |- *.
    destruct (res (incrementalRun (startState (w_stateFile w)) w))
      as [st|e] eqn:Hres; [|discriminate].
    cbn [trace world]. rewrite elem_of_cons, elem_of_app.
    intros [Hin | [Hin | Hin]].
    + discriminate.
    + change (playlistTrackIds (setStateFile ?f ?x) pid)
        with (playlistTrackIds x pid).
      by apply (incrementalRun_delivers _ w st).
    + by apply list_elem_of_singleton in Hin.
  - rewrite (main_firstRun w Hwm). cbn [trace].
    intros Hin. repeat (apply elem_of_cons in Hin as [Hin | Hin]; [done|]).
    by apply elem_of_nil in Hin.
Qed.

(** ** The keys of a rebuilt profile *)

Lemma countTags_lookup (tags : list string) :
  ∀ (counts : GenreProfile),
    (∀ g v, counts !! g = Some v → (1 ≤ v)%Z) →
    (∀ g v,
       foldl (λ c t, <[t := (weightOf c t + 1)%Z]> c) counts tags !! g = Some v →
       (1 ≤ v)%Z)
    ∧ (∀ g,
         is_Some (foldl (λ c t, <[t := (weightOf c t + 1)%Z]> c) counts tags !! g)
         ↔ is_Some (counts !! g) ∨ g ∈ tags).
Proof.
  induction tags as [|t tags IH]; intros counts Hpos; simpl.
  - split; [done|]. intros g. rewrite elem_of_nil. tauto.
  - destruct (IH (<[t := (weightOf counts t + 1)%Z]> counts)) as [Hpos' Hkeys].
    { intros g v [[<- <-]|[_ Hg]]%lookup_insert_Some; [|by eapply Hpos].
      unfold weightOf. destruct (counts !! t) as [v0|] eqn:Ht; simpl; [|lia].
      apply Hpos in Ht. lia. }
    split; [done|]. intros g. rewrite Hkeys, lookup_insert_is_Some, elem_of_cons.
    destruct (decide (t = g)) as [->|]; [tauto|]. split.
    + intros [[?|[_ ?]]|?]; tauto.
    + intros [?|[?|?]]; [left; right | congruence | right]; done.
Qed.

Lemma countGenres_lookup (artists : list ArtistObjectFull) :
  ∀ (counts : GenreProfile),
    (∀ g v, counts !! g = Some v → (1 ≤ v)%Z) →
    (∀ g v, countGenres artists counts !! g = Some v → (1 ≤ v)%Z)
    ∧ (∀ g,
         is_Some (countGenres artists counts !! g)
         ↔ is_Some (counts !! g)
           ∨ g ∈ flat_map (λ a, default [] (artist_genres a)) artists).
Proof.
  unfold countGenres.
  induction artists as [|a artists IH]; intros counts Hpos; simpl.
  - split; [done|]. intros g. rewrite elem_of_nil. tauto.
  - destruct (countTags_lookup (default [] (artist_genres a)) counts Hpos)
      as [Hpos1 Hkeys1].
    destruct (IH _ Hpos1) as [Hpos2 Hkeys2].
    split; [done|]. intros g. rewrite Hkeys2, Hkeys1, elem_of_app. tauto.
Qed.

(** X21.  A profile rebuilt on the cache-miss path has only weights of at
    least 1, and its genres are exactly the tags carried by some artist,
    with an id, of the tracks of the playlist. *)
Theorem rebuilt_profile_has_positive_weights
  (w : World) (pid : string) (pl : Playlist) (counts : GenreProfile) :
  w_playlists w !! pid = Some pl →
  List.find (cacheKeyIs pid (snapshot_id pl)) (cachedProfiles w) = None →
  res (buildPlaylistGenreProfile pid w) = Ok counts →
  (∀ g v, counts !! g = Some v → (1 ≤ v)%Z)
  ∧ (∀ g,
       is_Some (counts !! g)
       ↔ ∃ a, a ∈ playlistArtists pl ∧ a ≠ "" ∧ g ∈ tagsOf w a).
Proof.
  intros Hpl Hmiss Hres.
  destruct (robust_buildPlaylistGenreProfile pid w counts Hres)
    as (Hrel & _ & _).
  rewrite (buildPlaylistGenreProfile_miss (reliable w) pid pl) in Hrel
    by done.
  simpl in Hrel. injection Hrel as <-.
  destruct (countGenres_lookup
              (map (artistOf (reliable w)) (profiledArtistIds pl)) ∅)
    as [Hpos Hkeys]; [done|].
  split; [exact Hpos|]. intros g. rewrite Hkeys, flat_map_artistOf.
  rewrite lookup_empty, is_Some_alt.
  change (tagsOf (reliable w)) with (tagsOf w).
  rewrite list_elem_of_In, in_flat_map. split.
  - intros [[]|(a & Ha & Hg)]. exists a.
    apply list_elem_of_In, elem_of_profiledArtistIds in Ha as [Ha Hne].
    by apply list_elem_of_In in Hg.
  - intros (a & Ha & Hne & Hg). right. exists a.
    rewrite <- !list_elem_of_In. split; [|done].
    by apply elem_of_profiledArtistIds.
Qed.

(** ** A run without new likes *)

Lemma string_leb_ltb (a b : string) :
  String.leb a b = true → String.ltb b a = false.
Proof.
  unfold String.leb, String.ltb. rewrite (String.compare_antisym b a).
  by destruct (String.compare a b).
Qed.

Lemma string_ltb_irrefl (a : string) : String.ltb a a = false.
Proof.
  unfold String.ltb.
  assert (String.compare a a = Eq) as ->; [|done].
  induction a as [|c a IH]; simpl; [done|].
  unfold Ascii.compare. by rewrite N.compare_refl.
Qed.

Lemma routes_nil_iff (t : list Event) : routes t = [] ↔ routedItems t = [].
Proof.
  induction t as [|ev t IH]; [done|].
  destruct ev; try exact IH. done.
Qed.

Lemma idle_routeItem state targets profiles item
  (byPlaylist : Record (list string)) :
  idleUnlessRouting stepState (byPlaylist, lastProcessedAddedAt state)
    (routeItem state targets profiles item
       (byPlaylist, lastProcessedAddedAt state)).
Proof.
  intros w r. unfold routeItem.
  destruct (truthyOpt (lastProcessedAddedAt state)
            && leOpt (added_at item) (lastProcessedAddedAt state)) eqn:Hcut.
  - intros Hr _. apply ret_Ok_inv in Hr as <-. cbn.
    apply andb_true_iff in Hcut as [Ht Hle]. rewrite Ht. cbn.
    destruct (lastProcessedAddedAt state) as [lp|]; [|done].
    cbn in Hle |- *. by rewrite (string_leb_ltb _ _ Hle).
  - destruct (res (trackGenresOf (saved_track item) w)) as [gs|e] eqn:Hgs;
      [|by rewrite (bind_throw _ _ _ e Hgs)].
    rewrite (bind_ok _ _ _ gs Hgs). cbn [res trace].
    rewrite routes_app. io_run. cbn. intros _ Hnone.
    by apply app_eq_nil in Hnone as [_ ?].
Qed.

Lemma idle_forOfBreak {A St} (xs : list A)
  (body : A → St → IO (LoopStep St)) (s : St) :
  (∀ x, idleUnlessRouting stepState s (body x s)) →
  idleUnlessRouting stepState s (forOfBreak xs body s).
Proof.
  intros Hbody. induction xs as [|x xs IH]; intros w r; cbn [forOfBreak].
  - intros Hr _. by apply ret_Ok_inv in Hr as <-.
  - destruct (res (body x s w)) as [r1|e] eqn:H1;
      [|by rewrite (bind_throw _ _ _ e H1)].
    rewrite (bind_ok _ _ _ r1 H1). cbn [res trace]. rewrite routes_app.
    intros Hr [Hn1 Hn2]%app_eq_nil.
    pose proof (Hbody x w r1 H1 Hn1) as Hs1.
    destruct r1 as [s1|s1]; simpl in Hs1; subst s1.
    + by apply (IH _ r Hr).
    + by apply ret_Ok_inv in Hr as <-.
Qed.

Lemma idle_forAwaitSavedTracksFrom {St}
  (body : SavedTrackItem → St → IO (LoopStep St)) (s : St) :
  (∀ x, idleUnlessRouting stepState s (body x s)) →
  ∀ fuel offset,
    idleUnlessRouting id s (forAwaitSavedTracksFrom fuel offset body s).
Proof.
  intros Hbody. induction fuel as [|fuel IH]; intros offset w r;
    cbn [forAwaitSavedTracksFrom]; [done|].
  destruct (res (getSavedTracksPaginated 50 offset w)) as [p|e] eqn:Hp;
    [|by rewrite (bind_throw _ _ _ e Hp)].
  rewrite (bind_ok _ _ _ p Hp). cbn [res trace].
  rewrite routes_app, routes_getSavedTracks, app_nil_l.
  destruct (decide (length (items p) = 0)).
  { intros Hr _. by apply ret_Ok_inv in Hr as <-. }
  set (w1 := world (getSavedTracksPaginated 50 offset w)).
  destruct (res (forOfBreak (items p) body s w1)) as [r1|e] eqn:H1;
    [|by rewrite (bind_throw _ _ _ e H1)].
  rewrite (bind_ok _ _ _ r1 H1). cbn [res trace]. rewrite routes_app.
  intros Hr [Hn1 Hn2]%app_eq_nil.
  pose proof (idle_forOfBreak (items p) body s Hbody w1 r1 H1 Hn1) as Hs1.
  destruct r1 as [s1|s1]; simpl in Hs1; subst s1.
  - destruct (negb (next p)).
    + by apply ret_Ok_inv in Hr as <-.
    + by apply (IH _ _ r Hr).
  - by apply ret_Ok_inv in Hr as <-.
Qed.

#[local] Instance samePlaylists_preorder' : PreOrder samePlaylists.
Proof.
  split; [by intros w | intros w1 w2 w3; unfold samePlaylists; congruence].
Qed.

Lemma incrementalRun_idle (state : State) (w : World) (st : State) :
  res (incrementalRun state w) = Ok st →
  routedItems (trace (incrementalRun state w)) = [] →
  lastProcessedAddedAt st = lastProcessedAddedAt state
  ∧ w_playlists (world (incrementalRun state w)) = w_playlists w
  ∧ Forall (λ ev, isAddTracks ev = false) (trace (incrementalRun state w)).
Proof.
  unfold incrementalRun.
  rewrite (bind_run (gets w_env) _ w w (w_env w) []) by done.
  cbv beta.
  destruct (decide (length (getTargetPlaylistIds (w_env w)) = 0)); [done|].
  set (targets := getTargetPlaylistIds (w_env w)).
  unfold prefixed. cbn [res world trace app].
  destruct (res (buildProfiles state targets w)) as [[profiles updated]|e]
    eqn:Hbuild; [|by rewrite (bind_throw _ _ _ e Hbuild)].
  destruct (maintains_buildProfiles samePlaylists
              (λ ev, isAddTracks ev = false)
              ltac:(done) ltac:(done) ltac:(done)
              ltac:(by intros) state targets w) as (Hpl1 & Htrace1 & _).
  rewrite (bind_ok _ _ _ _ Hbuild). cbn [res world trace].
  set (w1 := world (buildProfiles state targets w)) in *.
  set (loop := forAwaitSavedTracks (routeItem state targets profiles)
                 ([], lastProcessedAddedAt state)).
  destruct (maintains_forAwaitSavedTracks samePlaylists
              (λ ev, isAddTracks ev = false)
              ltac:(done) ltac:(by intros)
              (routeItem state targets profiles)
              ([], lastProcessedAddedAt state)
              (λ x s0,
                 maintains_routeItem samePlaylists
                   (λ ev, isAddTracks ev = false)
                   ltac:(done) ltac:(by intros)
                   state targets profiles x s0 ltac:(done)) w1)
    as (Hpl2 & Htrace2 & _).
  fold loop in Hpl2, Htrace2.
  destruct (res (loop w1)) as [[byPlaylist newest]|e] eqn:Hloop;
    [|by rewrite (bind_throw _ _ _ e Hloop)].
  rewrite (bind_ok _ _ _ _ Hloop). cbn [res world trace].
  set (w2 := world (loop w1)) in *.
  destruct (res (writePlaylists byPlaylist w2)) as [[]|e] eqn:Hwrite;
    [|by rewrite (bind_throw _ _ _ e Hwrite)].
  rewrite (bind_ok _ _ _ _ Hwrite). cbn [res world trace].
  rewrite app_nil_r, !routedItems_app.
  intros Hst [_ [Hquiet _]%app_eq_nil]%app_eq_nil.
  assert (Hacc : (byPlaylist, newest) = ([], lastProcessedAddedAt state)).
  { subst loop. unfold forAwaitSavedTracks in Hloop, Hquiet.
    rewrite (bind_run (gets w_saved) _ w1 w1 (w_saved w1) []) in Hloop, Hquiet
      by done.
    unfold prefixed in Hloop, Hquiet. cbn [res trace app] in Hloop, Hquiet.
    apply (idle_forAwaitSavedTracksFrom
             (routeItem state targets profiles) _
             (λ x, idle_routeItem state targets profiles x [])
             _ _ w1 _ Hloop).
    by apply routes_nil_iff. }
  injection Hacc as -> ->. injection Hst as <-. cbn.
  split; [|split].
  - destruct (lastProcessedAddedAt state) as [lp|]; [|done].
    cbn. by rewrite string_ltb_irrefl, andb_false_r.
  - unfold samePlaylists in Hpl1, Hpl2. by rewrite <- Hpl1, <- Hpl2.
  - rewrite !Forall_app. split; [done|]. split; [done|]. constructor.
Qed.

(** X22.  A run of [main] that returns, starts from a stored watermark
    and finds no like above it in the order the code compares timestamps
    in, the order of strings (there are no likes, or the like time of the
    first one is at or below the watermark as a string), routes nothing,
    issues no insertion, leaves every playlist as it was and keeps the
    watermark. *)
Theorem run_without_new_likes_changes_no_playlist (w : World) :
  res (main w) = Ok tt →
  truthy (watermarkOf (w_stateFile w)) = true →
  newerPrefix (watermarkOf (w_stateFile w)) (w_saved w) = [] →
  routedItems (trace (main w)) = []
  ∧ Forall (λ ev, isAddTracks ev = false) (trace (main w))
  ∧ w_playlists (world (main w)) = w_playlists w
  ∧ watermarkOf (w_stateFile (world (main w))) = watermarkOf (w_stateFile w).
Proof.
  intros Hok Htruthy Hnone.
  pose proof (main_routes_newer_prefix w Hok) as Hrouted.
  rewrite Htruthy, Hnone in Hrouted. split; [done|].
  assert (Hwm : truthyOpt (lastProcessedAddedAt (loadedState (w_stateFile w)))
                = true).
  { unfold watermarkOf in Htruthy.
    by destruct (lastProcessedAddedAt (loadedState (w_stateFile w))). }
  rewrite (main_incremental w Hwm) in Hok, Hrouted |- *.
  cbv zeta in Hok, Hrouted |- *.
  destruct (res (incrementalRun (startState (w_stateFile w)) w))
    as [st|e] eqn:Hres; [|discriminate].
  cbn [trace world] in Hrouted |- *.
  change (EvReadState :: ?t) with ([EvReadState] ++ t) in Hrouted.
  rewrite !routedItems_app in Hrouted. cbn in Hrouted.
  rewrite app_nil_r in Hrouted.
  destruct (incrementalRun_idle _ w st Hres Hrouted) as (Hlp & Hpl & Hadd).
  split; [|split].
  - constructor; [done|]. apply Forall_app. split; [done|]. by constructor.
  - done.
  - unfold watermarkOf. cbn. rewrite Hlp, startState_watermark. done.
Qed.

(** ** The new watermark covers the routed likes *)

Lemma string_ltb_false (a b : string) :
  String.ltb b a = false → (a ≤ b)%string.
Proof.
  unfold String.le, String.leb, String.ltb.
  rewrite (String.compare_antisym a b).
  by destruct (String.compare b a).
Qed.

Lemma truthy_false (s : string) : truthy s = false → s = "".
Proof. unfold truthy. by intros ?%negb_false_iff%String.eqb_eq. Qed.

Lemma routedItems_getArtists (track : TrackObjectFull) (w : World)
  (gs : list string) :
  res (trackGenresOf track w) = Ok gs →
  routedItems (trace (trackGenresOf track w)) = [].
Proof.
  intros Hres. apply routes_nil_iff. by eapply trackGenresOf_routes.
Qed.

Lemma covering_routeItem state targets profiles item
  (acc : Record (list string) * option string) :
  covering stepState acc (routeItem state targets profiles item acc).
Proof.
  intros w r. unfold routeItem. destruct acc as [byPlaylist newest].
  set (newest' := if negb (truthyOpt newest) || gtOpt (added_at item) newest
                  then Some (added_at item) else newest).
  assert (Hnew : (default "" newest ≤ default "" newest')%string
                 ∧ (added_at item ≤ default "" newest')%string).
  { subst newest'. destruct newest as [n|]; cbn.
    - destruct (truthy n) eqn:Hn; cbn.
      + destruct (String.ltb n (added_at item)) eqn:Hlt; cbn.
        * split; [by apply string_ltb_le | done].
        * split; [done | by apply string_ltb_false].
      + apply truthy_false in Hn as ->. split; [apply string_le_empty | done].
    - split; [apply string_le_empty | done]. }
  destruct Hnew as [Hmono Hcover].
  destruct (truthyOpt (lastProcessedAddedAt state)
            && leOpt (added_at item) (lastProcessedAddedAt state)).
  - intros Hr. apply ret_Ok_inv in Hr as <-. cbn. split; [done | constructor].
  - destruct (res (trackGenresOf (saved_track item) w)) as [gs|e] eqn:Hgs;
      [|by rewrite (bind_throw _ _ _ e Hgs)].
    rewrite (bind_ok _ _ _ gs Hgs). cbn [res trace].
    rewrite routedItems_app, (routedItems_getArtists _ _ _ Hgs).
    io_run. cbn. intros [= <-]. cbn. split; [done|]. by repeat constructor.
Qed.

Lemma covering_forOfBreak {A} (xs : list A)
  (body : A → Record (list string) * option string
          → IO (LoopStep (Record (list string) * option string))) :
  (∀ x s, covering stepState s (body x s)) →
  ∀ s, covering stepState s (forOfBreak xs body s).
Proof.
  intros Hbody. induction xs as [|x xs IH]; intros s w r; cbn [forOfBreak].
  - intros Hr. apply ret_Ok_inv in Hr as <-. split; [done | constructor].
  - destruct (res (body x s w)) as [r1|e] eqn:H1;
      [|by rewrite (bind_throw _ _ _ e H1)].
    rewrite (bind_ok _ _ _ r1 H1). cbn [res trace].
    destruct (Hbody x s w r1 H1) as [Hmono1 Hcov1].
    destruct r1 as [s1|s1]; simpl in Hmono1, Hcov1.
    + intros Hr. destruct (IH s1 _ r Hr) as [Hmono2 Hcov2].
      split; [by etrans|]. rewrite routedItems_app. apply Forall_app.
      split; [|done]. eapply Forall_impl; [exact Hcov1|].
      intros item Hitem. simpl in Hitem. by etrans.
    + intros Hr. apply ret_Ok_inv in Hr as <-. cbn.
      split; [done|]. by rewrite app_nil_r.
Qed.

Lemma routedItems_getSavedTracks (offset : nat) (w : World) :
  routedItems (trace (getSavedTracksPaginated 50 offset w)) = [].
Proof. apply routes_nil_iff, routes_getSavedTracks. Qed.

Lemma covering_forAwaitSavedTracksFrom
  (body : SavedTrackItem → Record (list string) * option string
          → IO (LoopStep (Record (list string) * option string))) :
  (∀ x s, covering stepState s (body x s)) →
  ∀ fuel offset s,
    covering id s (forAwaitSavedTracksFrom fuel offset body s).
Proof.
  intros Hbody. induction fuel as [|fuel IH]; intros offset s w r;
    cbn [forAwaitSavedTracksFrom]; [done|].
  destruct (res (getSavedTracksPaginated 50 offset w)) as [p|e] eqn:Hp;
    [|by rewrite (bind_throw _ _ _ e Hp)].
  rewrite (bind_ok _ _ _ p Hp). cbn [res trace].
  rewrite routedItems_app, routedItems_getSavedTracks, app_nil_l.
  destruct (decide (length (items p) = 0)).
  { intros Hr. apply ret_Ok_inv in Hr as <-. split; [done | constructor]. }
  set (w1 := world (getSavedTracksPaginated 50 offset w)).
  destruct (res (forOfBreak (items p) body s w1)) as [r1|e] eqn:H1;
    [|by rewrite (bind_throw _ _ _ e H1)].
  rewrite (bind_ok _ _ _ r1 H1). cbn [res trace].
  destruct (covering_forOfBreak (items p) body Hbody s w1 r1 H1)
    as [Hmono1 Hcov1].
  destruct r1 as [s1|s1]; simpl in Hmono1, Hcov1.
  - destruct (negb (next p)).
    + intros Hr. apply ret_Ok_inv in Hr as <-. cbn.
      split; [done|]. by rewrite app_nil_r.
    + intros Hr. destruct (IH _ s1 _ r Hr) as [Hmono2 Hcov2].
      split; [by etrans|]. rewrite routedItems_app. apply Forall_app.
      split; [|done]. eapply Forall_impl; [exact Hcov1|].
      intros item Hitem. simpl in Hitem. by etrans.
  - intros Hr. apply ret_Ok_inv in Hr as <-. cbn.
    split; [done|]. by rewrite app_nil_r.
Qed.

Lemma incrementalRun_covers (state : State) (w : World) (st : State) :
  truthyOpt (lastProcessedAddedAt state) = true →
  res (incrementalRun state w) = Ok st →
  Forall (λ item,
            (added_at item ≤ default "" (lastProcessedAddedAt st))%string)
    (routedItems (trace (incrementalRun state w))).
Proof.
  intros Hstate. unfold incrementalRun.
  rewrite (bind_run (gets w_env) _ w w (w_env w) []) by done.
  cbv beta.
  destruct (decide (length (getTargetPlaylistIds (w_env w)) = 0)); [done|].
  set (targets := getTargetPlaylistIds (w_env w)).
  unfold prefixed. cbn [res world trace app].
  destruct (res (buildProfiles state targets w)) as [[profiles updated]|e]
    eqn:Hbuild; [|by rewrite (bind_throw _ _ _ e Hbuild)].
  destruct (maintains_buildProfiles (λ _ _, True)
              (λ ev, ∀ item pid, ev ≠ EvRoute item pid)
              ltac:(done) ltac:(done) ltac:(done)
              ltac:(by intros) state targets w) as (_ & Htrace1 & _).
  rewrite (bind_ok _ _ _ _ Hbuild). cbn [res world trace].
  set (w1 := world (buildProfiles state targets w)).
  set (loop := forAwaitSavedTracks (routeItem state targets profiles)
                 ([], lastProcessedAddedAt state)).
  destruct (res (loop w1)) as [[byPlaylist newest]|e] eqn:Hloop;
    [|by rewrite (bind_throw _ _ _ e Hloop)].
  rewrite (bind_ok _ _ _ _ Hloop). cbn [res world trace].
  set (w2 := world (loop w1)).
  destruct (maintains_writePlaylists (λ _ _, True)
              (λ ev, ∀ item pid, ev ≠ EvRoute item pid)
              ltac:(done) ltac:(done) ltac:(by intros) ltac:(done)
              byPlaylist w2) as (_ & Htrace3 & _).
  destruct (res (writePlaylists byPlaylist w2)) as [[]|e] eqn:Hwrite;
    [|by rewrite (bind_throw _ _ _ e Hwrite)].
  rewrite (bind_ok _ _ _ _ Hwrite). cbn [res world trace].
  intros [= <-]. cbn [lastProcessedAddedAt].
  rewrite app_nil_r, !routedItems_app.
  rewrite (routedItems_none _ Htrace1), (routedItems_none _ Htrace3).
  rewrite app_nil_l, app_nil_r.
  assert (Hcov : covering id ([], lastProcessedAddedAt state) loop).
  { subst loop. unfold forAwaitSavedTracks. intros w0 r0.
    rewrite (bind_run (gets w_saved) _ w0 w0 (w_saved w0) []) by done.
    unfold prefixed. cbn [res trace app].
    apply (covering_forAwaitSavedTracksFrom
             (routeItem state targets profiles)
             (λ x s, covering_routeItem state targets profiles x s)). }
  destruct (Hcov w1 _ Hloop) as [Hmono Hcover].
  unfold newestOf in Hmono, Hcover. cbn [id snd] in Hmono, Hcover.
  eapply Forall_impl; [exact Hcover|]. intros item Hitem. simpl in Hitem.
  etrans; [exact Hitem|].
  destruct newest as [nw|]; cbn; [|apply string_le_empty].
  destruct (truthy nw) eqn:Hn; cbn.
  - destruct (lastProcessedAddedAt state) as [lp|]; cbn; [|done].
    destruct (String.ltb lp nw) eqn:Hlt; cbn; [done|].
    by apply string_ltb_false.
  - apply truthy_false in Hn as ->. apply string_le_empty.
Qed.

(** X23.  After a run of [main] that returns, the persisted watermark is
    at or after the like time of every track the run routed, so that with
    X28 no later run routes it again.  (Times are ordered as the code
    orders them, as strings.) *)
Theorem new_watermark_covers_routed_likes (w : World) :
  res (main w) = Ok tt →
  Forall (λ item,
            (added_at item ≤ watermarkOf (w_stateFile (world (main w))))%string)
    (routedItems (trace (main w))).
Proof.
  intros Hok.
  destruct (truthyOpt (lastProcessedAddedAt (loadedState (w_stateFile w))))
    eqn:Hwm.
  - rewrite (main_incremental w Hwm) in Hok |- *. cbv zeta in Hok |- *.
    destruct (res (incrementalRun (startState (w_stateFile w)) w))
      as [st|e] eqn:Hres; [|discriminate].
    cbn [trace world].
    change (EvReadState :: ?t) with ([EvReadState] ++ t).
    rewrite !routedItems_app. cbn. rewrite app_nil_r.
    apply (incrementalRun_covers _ w st); [|done].
    by rewrite startState_watermark.
  - rewrite (main_firstRun w Hwm). cbn. constructor.
Qed.

(** ** Every run asks for the version of every target *)

Lemma versionRequests_app (t1 t2 : list Event) :
  versionRequests (t1 ++ t2) = versionRequests t1 ++ versionRequests t2.
Proof. apply omap_app. Qed.

Lemma versionRequests_none (t : list Event) :
  Forall (λ ev, ∀ pid, ev ≠ EvGetPlaylist pid) t → versionRequests t = [].
Proof.
  induction 1 as [|ev t Hev _ IH]; [done|].
  destruct ev; try exact IH. by destruct (Hev pid).
Qed.

Lemma getPlaylistSnapshot_unknown (w : World) (pid : string) :
  w_failAfter w = None →
  w_playlists w !! pid = None →
  res (getPlaylistSnapshot pid w) = Throw CatalogError.
Proof.
  intros Hrel Hpl. unfold getPlaylistSnapshot.
  rewrite callWithRetry_reliable by done.
  unfold spotify_getPlaylist, prefixed. io_run. simpl. by rewrite Hpl.
Qed.

Lemma buildPlaylistGenreProfile_version (w : World) (pid : string)
  (prof : GenreProfile) :
  res (buildPlaylistGenreProfile pid w) = Ok prof →
  versionRequests (trace (buildPlaylistGenreProfile pid w)) = [pid].
Proof.
  intros Hres.
  destruct (robust_buildPlaylistGenreProfile pid w prof Hres)
    as (Hrel & <- & _).
  destruct (w_playlists (reliable w) !! pid) as [pl|] eqn:Hpl; cycle 1.
  { unfold buildPlaylistGenreProfile in Hrel.
    rewrite (bind_throw _ _ _ CatalogError) in Hrel; [done|].
    by apply getPlaylistSnapshot_unknown. }
  destruct (List.find (cacheKeyIs pid (snapshot_id pl))
              (cachedProfiles (reliable w))) as [c|] eqn:Hfind.
  - by rewrite (buildPlaylistGenreProfile_hit (reliable w) pid pl c Hpl Hfind).
  - rewrite (buildPlaylistGenreProfile_miss (reliable w) pid pl eq_refl Hpl Hfind).
    cbn [trace]. rewrite !versionRequests_app.
    rewrite (versionRequests_none (enumerationEvents pid pl)).
    2:{ unfold enumerationEvents. apply Forall_fmap, Forall_forall. by intros. }
    rewrite (versionRequests_none (map EvGetArtists _)).
    2:{ apply Forall_fmap, Forall_forall. by intros. }
    done.
Qed.

Lemma shouldRebuildProfile_trace (last : option string) (w : World) :
  trace (shouldRebuildProfile last w) = [].
Proof.
  unfold shouldRebuildProfile. destruct last as [l|]; [|done].
  by destruct (truthy l).
Qed.

(** X24.  The loop of [main] over the target playlists, when it returns,
    has asked the catalog for the version of every target playlist, once
    each and in order, whatever the rebuild times and the rebuild interval
    say: the interval decides which rebuild times are renewed, not which
    profiles are looked up. *)
Theorem buildProfiles_asks_the_version_of_every_target
  (state : State) (targets : list string) (w : World)
  (acc : Record GenreProfile * gmap string string) :
  res (buildProfiles state targets w) = Ok acc →
  versionRequests (trace (buildProfiles state targets w)) = targets.
Proof.
  unfold buildProfiles.
  generalize (@nil (string * GenreProfile),
              default (∅ : gmap string string) (lastProfileRebuildTime state)).
  revert w acc. induction targets as [|pid targets IH]; intros w acc s0 Hres;
    [done|].
  cbn [forOf] in Hres |- *. destruct s0 as [profiles updated].
  match type of Hres with
  | res ((?m ≫= _) w) = _ => destruct (res (m w)) as [s1|e] eqn:Hbody
  end; [|by rewrite (bind_throw _ _ _ e Hbody) in Hres].
  rewrite (bind_ok _ _ _ s1 Hbody) in Hres |- *. cbn [res trace] in Hres |- *.
  rewrite versionRequests_app, (IH _ acc s1 Hres). clear Hres IH.
  change (pid :: targets) with ([pid] ++ targets). f_equal.
  revert Hbody.
  set (last := default ∅ (lastProfileRebuildTime state) !! pid).
  pose proof (shouldRebuildProfile_trace last w) as Hquiet.
  destruct (res (shouldRebuildProfile last w)) as [needs|e] eqn:Hneeds;
    [|by rewrite (bind_throw _ _ _ e Hneeds)].
  rewrite (bind_ok _ _ _ needs Hneeds). cbn [res trace]. rewrite Hquiet.
  set (w1 := world (shouldRebuildProfile last w)).
  destruct (res (buildPlaylistGenreProfile pid w1)) as [prof|e] eqn:Hprof;
    [|by destruct needs; rewrite (bind_throw _ _ _ e Hprof)].
  pose proof (buildPlaylistGenreProfile_version w1 pid prof Hprof) as Hv.
  destruct needs; rewrite (bind_ok _ _ _ prof Hprof); cbn [res trace];
    intros _; rewrite app_nil_l, versionRequests_app, Hv; done.
Qed.

(** ** The retry loop *)

Section RetryLoop.
Context {A : Type}.
Context (refreshAccessToken : nat → Retry.Answer string)
  (fn : nat → Retry.Answer A).

Abbreviation retryFrom := (Retry.retryFrom refreshAccessToken fn).
Abbreviation tryOnce := (Retry.tryOnce refreshAccessToken fn).

Lemma sleeps_app (l1 l2 : list Retry.Step) :
  Retry.sleeps (l1 ++ l2) = Retry.sleeps l1 ++ Retry.sleeps l2.
Proof. apply omap_app. Qed.

Lemma refresh_called (c : Retry.Client) :
  Retry.called (Retry.refresh refreshAccessToken c).2 = Retry.called c.
Proof. unfold Retry.refresh. by destruct (refreshAccessToken _). Qed.

Lemma tryOnce_called (c : Retry.Client) :
  Retry.called c ≤ Retry.called (tryOnce c).2 ≤ S (Retry.called c).
Proof.
  unfold Retry.tryOnce, Retry.ensureAccessToken, Retry.refresh.
  destruct (truthyOpt _); [simpl; lia|].
  destruct (refreshAccessToken _); simpl; lia.
Qed.

(** The loop returns, after at most [tries] calls of [fn] from [attempt]
    attempts made, and one call when no attempt is left. *)
Lemma retryFrom_returns (tries : nat) :
  ∀ fuel attempt c,
    0 < fuel → tries - attempt ≤ fuel →
    ∃ r c',
      retryFrom fuel tries attempt c = Some (r, c')
      ∧ Retry.called c ≤ Retry.called c'
      ∧ Retry.called c' ≤ Retry.called c + Nat.max 1 (tries - attempt).
Proof.
  induction fuel as [|fuel IH]; intros attempt c Hpos Hfuel; [lia|].
  cbn [Retry.retryFrom].
  pose proof (tryOnce_called c) as Hcalled.
  destruct (tryOnce c) as [[a|err] c1]; simpl in Hcalled.
  { eexists _, _. split; [done|]. lia. }
  destruct (Nat.ltb_spec (S attempt) tries) as [Hmore|Hlast].
  - assert (Hnext : ∀ c2,
      Retry.called c2 = Retry.called c1 →
      ∃ r c',
        retryFrom fuel tries (S attempt) c2 = Some (r, c')
        ∧ Retry.called c ≤ Retry.called c'
        ∧ Retry.called c' ≤ Retry.called c + Nat.max 1 (tries - attempt)).
    { intros c2 Hc2.
      destruct (IH (S attempt) c2 ltac:(lia) ltac:(lia))
        as (r & c' & Hrun & Hlo & Hhi).
      exists r, c'. split; [done|]. lia. }
    rewrite !andb_true_r.
    destruct (Retry.statusOf err =? 401)%Z.
    + pose proof (refresh_called c1) as Hrc.
      destruct (Retry.refresh refreshAccessToken c1) as [[[]|err'] c2];
        simpl in Hrc.
      * by apply Hnext.
      * eexists _, _. split; [done|]. lia.
    + destruct (Retry.statusOf err =? 429)%Z; by apply Hnext.
  - rewrite !andb_false_r. eexists _, _. split; [done|]. lia.
Qed.

(** X25.  [callWithRetry] in detail: whatever the token service and the
    request answer, the loop ends, after at most [tries] calls of the
    request, and one call when [tries] is 0. *)
Theorem callWithRetry_returns_within_the_tries
  (tries : nat) (c : Retry.Client) :
  ∃ r c',
    Retry.callWithRetry refreshAccessToken fn tries c = Some (r, c')
    ∧ Retry.called c ≤ Retry.called c'
    ∧ Retry.called c' ≤ Retry.called c + Nat.max 1 tries.
Proof.
  unfold Retry.callWithRetry.
  destruct (retryFrom_returns tries (Nat.max 1 tries) 0 c ltac:(lia) ltac:(lia))
    as (r & c' & Hrun & Hlo & Hhi).
  exists r, c'. split; [done|]. split; [done|].
  by rewrite Nat.sub_0_r in Hhi.
Qed.

(** From here on the token service answers. *)
Hypothesis refresh_answers : ∀ n, ∃ t, refreshAccessToken n = Retry.Returned t.

Lemma refresh_ok (c : Retry.Client) :
  ∃ c2,
    Retry.refresh refreshAccessToken c = (Retry.Returned tt, c2)
    ∧ Retry.called c2 = Retry.called c
    ∧ Retry.sleeps (Retry.steps c2) = Retry.sleeps (Retry.steps c).
Proof.
  unfold Retry.refresh. destruct (refresh_answers (Retry.refreshed c)) as [t ->].
  eexists. split; [done|]. split; [done|]. cbn.
  by rewrite sleeps_app, app_nil_r.
Qed.

Lemma tryOnce_ok (c : Retry.Client) :
  ∃ c1,
    tryOnce c = (fn (Retry.called c), c1)
    ∧ Retry.called c1 = S (Retry.called c)
    ∧ Retry.sleeps (Retry.steps c1) = Retry.sleeps (Retry.steps c).
Proof.
  unfold Retry.tryOnce, Retry.ensureAccessToken.
  destruct (truthyOpt (Retry.accessToken c)).
  - eexists. split; [done|]. split; [done|]. cbn.
    by rewrite sleeps_app, app_nil_r.
  - destruct (refresh_ok c) as (c2 & -> & Hcalled & Hsleeps).
    unfold Retry.invoke. rewrite Hcalled.
    eexists. split; [done|]. split; [cbn; lia|]. cbn.
    by rewrite sleeps_app, app_nil_r.
Qed.

(** A rejected attempt that is not the last one. *)
Lemma retryFrom_round (fuel tries attempt : nat) (c : Retry.Client)
  (err : Retry.Failure) :
  fn (Retry.called c) = Retry.Rejected err →
  S attempt < tries →
  ∃ c2,
    retryFrom (S fuel) tries attempt c = retryFrom fuel tries (S attempt) c2
    ∧ Retry.called c2 = S (Retry.called c)
    ∧ Retry.sleeps (Retry.steps c2)
      = Retry.sleeps (Retry.steps c) ++ waitAfter err (S attempt).
Proof.
  intros Herr Hmore. cbn [Retry.retryFrom].
  destruct (tryOnce_ok c) as (c1 & -> & Hcalled & Hsleeps). rewrite Herr.
  destruct (Nat.ltb_spec (S attempt) tries) as [_|]; [|lia].
  rewrite !andb_true_r. unfold waitAfter.
  destruct (Retry.statusOf err =? 401)%Z.
  - destruct (refresh_ok c1) as (c2 & -> & Hcalled2 & Hsleeps2).
    exists c2. split; [done|]. split; [congruence|].
    by rewrite Hsleeps2, Hsleeps, app_nil_r.
  - destruct (Retry.statusOf err =? 429)%Z.
    + eexists. split; [done|]. split; [done|]. cbn.
      by rewrite sleeps_app, Hsleeps.
    + eexists. split; [done|]. split; [done|]. cbn.
      by rewrite sleeps_app, Hsleeps.
Qed.

Lemma retryFrom_first_success (tries : nat) (a : A) :
  ∀ k fuel attempt c,
    k < fuel → attempt + k < Nat.max 1 tries →
    (∀ j, j < k → ∃ err, fn (Retry.called c + j) = Retry.Rejected err) →
    fn (Retry.called c + k) = Retry.Returned a →
    ∃ c',
      retryFrom fuel tries attempt c = Some (Retry.Returned a, c')
      ∧ Retry.called c' = Retry.called c + k + 1.
Proof.
  induction k as [|k IH]; intros fuel attempt c Hfuel Hk Hrej Hret;
    (destruct fuel as [|fuel]; [lia|]).
  - cbn [Retry.retryFrom].
    destruct (tryOnce_ok c) as (c1 & -> & Hcalled & _).
    rewrite Nat.add_0_r in Hret. rewrite Hret.
    exists c1. split; [done|]. lia.
  - destruct (Hrej 0 ltac:(lia)) as [err Herr].
    rewrite Nat.add_0_r in Herr.
    destruct (retryFrom_round fuel tries attempt c err Herr ltac:(lia))
      as (c2 & -> & Hcalled & _).
    destruct (IH fuel (S attempt) c2 ltac:(lia) ltac:(lia)) as (c' & Hrun & Hc').
    + intros j Hj. rewrite Hcalled.
      replace (S (Retry.called c) + j) with (Retry.called c + S j) by lia.
      apply Hrej. lia.
    + rewrite Hcalled.
      by replace (S (Retry.called c) + k) with (Retry.called c + S k) by lia.
    + exists c'. split; [done|]. lia.
Qed.

(** X26.  When the token service answers, [callWithRetry] returns the
    first answer of the request that is not a rejection, provided it comes
    within the allowed attempts; the request is not called again after
    it. *)
Theorem callWithRetry_returns_the_first_answer
  (tries k : nat) (c : Retry.Client) (a : A) :
  k < Nat.max 1 tries →
  (∀ j, j < k → ∃ err, fn (Retry.called c + j) = Retry.Rejected err) →
  fn (Retry.called c + k) = Retry.Returned a →
  ∃ c',
    Retry.callWithRetry refreshAccessToken fn tries c
    = Some (Retry.Returned a, c')
    ∧ Retry.called c' = Retry.called c + k + 1.
Proof.
  intros Hk Hrej Hret. unfold Retry.callWithRetry.
  by apply (retryFrom_first_success tries a k).
Qed.

Lemma flat_map_seq_shift {B} (f : nat → list B) (m : nat) :
  ∀ start,
    flat_map f (seq (S start) m) = flat_map (λ j, f (S j)) (seq start m).
Proof.
  induction m as [|m IH]; intros start; [done|].
  cbn [seq flat_map]. by rewrite IH.
Qed.

Lemma retryFrom_exhausted (tries : nat) :
  ∀ m (errs : nat → Retry.Failure) fuel attempt c,
    m < fuel → S m = Nat.max 1 (tries - attempt) →
    (∀ j, j ≤ m → fn (Retry.called c + j) = Retry.Rejected (errs j)) →
    ∃ c',
      retryFrom fuel tries attempt c = Some (Retry.Rejected (errs m), c')
      ∧ Retry.called c' = Retry.called c + S m
      ∧ Retry.sleeps (Retry.steps c')
        = Retry.sleeps (Retry.steps c)
          ++ flat_map (λ j, waitAfter (errs j) (attempt + S j)) (seq 0 m).
Proof.
  induction m as [|m IH]; intros errs fuel attempt c Hfuel Hm Hrej;
    (destruct fuel as [|fuel]; [lia|]).
  - cbn [Retry.retryFrom].
    destruct (tryOnce_ok c) as (c1 & -> & Hcalled & Hsleeps).
    rewrite <- (Nat.add_0_r (Retry.called c)), (Hrej 0) by lia.
    destruct (Nat.ltb_spec (S attempt) tries) as [|_]; [lia|].
    rewrite !andb_false_r. exists c1. split; [done|]. split; [lia|].
    cbn. by rewrite app_nil_r.
  - pose proof (Hrej 0 ltac:(lia)) as Herr. rewrite Nat.add_0_r in Herr.
    destruct (retryFrom_round fuel tries attempt c (errs 0) Herr ltac:(lia))
      as (c2 & -> & Hcalled & Hsleeps).
    destruct (IH (λ j, errs (S j)) fuel (S attempt) c2 ltac:(lia) ltac:(lia))
      as (c' & Hrun & Hc' & Hs').
    { intros j Hj. rewrite Hcalled.
      replace (S (Retry.called c) + j) with (Retry.called c + S j) by lia.
      apply Hrej. lia. }
    exists c'. split; [done|]. split; [lia|].
    rewrite Hs', Hsleeps, <- app_assoc. f_equal.
    cbn [seq flat_map]. rewrite Nat.add_1_r. f_equal.
    rewrite flat_map_seq_shift.
    apply flat_map_ext. intros j. f_equal. lia.
Qed.

(** X27.  When the token service answers and the request is rejected at
    every allowed attempt, [callWithRetry] throws the rejection of the
    last attempt, after exactly [tries] calls (one when [tries] is 0); the
    waits between the attempts are those of the rejections in order, and
    when no rejection is a 401 or a 429 they are 500 ms times the number
    of attempts made: 500, 1000, 1500, ... *)
Theorem callWithRetry_gives_up_with_the_last_error
  (tries : nat) (c : Retry.Client) (errs : nat → Retry.Failure) :
  let n := Nat.max 1 tries in
  (∀ j, j < n → fn (Retry.called c + j) = Retry.Rejected (errs j)) →
  ∃ c',
    Retry.callWithRetry refreshAccessToken fn tries c
    = Some (Retry.Rejected (errs (n - 1)), c')
    ∧ Retry.called c' = Retry.called c + n
    ∧ Retry.sleeps (Retry.steps c')
      = Retry.sleeps (Retry.steps c)
        ++ flat_map (λ j, waitAfter (errs j) (S j)) (seq 0 (n - 1))
    ∧ ((∀ j, j < n →
          Retry.statusOf (errs j) ≠ 401%Z ∧ Retry.statusOf (errs j) ≠ 429%Z) →
       Retry.sleeps (Retry.steps c')
       = Retry.sleeps (Retry.steps c)
         ++ map (λ j, Some (500 * Z.of_nat (S j))%Z) (seq 0 (n - 1))).
Proof.
  intros n Hrej. unfold Retry.callWithRetry. fold n.
  destruct (retryFrom_exhausted tries (n - 1) errs n 0 c
              ltac:(lia) ltac:(lia)) as (c' & Hrun & Hcalled & Hsleeps).
  { intros j Hj. apply Hrej. lia. }
  exists c'. split; [done|]. split; [lia|]. split; [done|].
  intros Hstatus. rewrite Hsleeps. f_equal.
  assert (Hall : ∀ l : list nat,
    (∀ j, j ∈ l → j < n) →
    flat_map (λ j, waitAfter (errs j) (S j)) l
    = map (λ j, Some (500 * Z.of_nat (S j))%Z) l).
  { induction l as [|j l IH]; intros Hin; [done|].
    cbn [flat_map map]. rewrite IH by (intros; apply Hin; by right).
    destruct (Hstatus j (Hin j ltac:(left))) as [H401 H429].
    unfold waitAfter.
    apply Z.eqb_neq in H401, H429. by rewrite H401, H429. }
  apply Hall. intros j Hj%elem_of_seq. lia.
Qed.

End RetryLoop.

End Extras.

(** * The further properties on sample inputs *)

(** A web address with a query. *)
Lemma extractPlaylistId_accepts_witness :
  allAlnum sampleId = true
  ∧ extractPlaylistId
      ("https://open.spotify.com/playlist/" +:+ sampleId +:+ "?" +:+ "si=abc")
    = Some sampleId.
Proof.
  split; [reflexivity|].
  by destruct (extractPlaylistId_accepts sampleId "si=abc" eq_refl)
    as (_ & _ & _ & Hurl & _).
Defined.

Lemma extractPlaylistId_normalises_witness :
  extractPlaylistId "  spotify:playlist:abc123 " = Some "abc123"
  ∧ extractPlaylistId "abc123" = Some "abc123".
Proof.
  split; [reflexivity|].
  by destruct (extractPlaylistId_normalises "  spotify:playlist:abc123 "
                 "abc123" eq_refl) as (_ & _ & Hagain).
Defined.

Lemma getTargetPlaylistIds_listed_then_numbered_witness :
  getTargetPlaylistIds sampleEnv = ["rockpl"; "jazzpl"]
  ∧ allAlnum "jazzpl" = true.
Proof.
  split; [reflexivity|].
  destruct (getTargetPlaylistIds_listed_then_numbered sampleEnv)
    as (_ & _ & Hall).
  apply (Hall "jazzpl"). apply (bool_decide_unpack _). vm_compute. exact I.
Defined.

(** The order of the genres of a track does not matter. *)
Lemma scoreTrackAgainstProfile_additive_witness :
  scoreTrackAgainstProfile ["rock"; "pop"] (genres sampleEntry)
  = scoreTrackAgainstProfile ["pop"; "rock"] (genres sampleEntry).
Proof.
  destruct (scoreTrackAgainstProfile_additive (genres sampleEntry))
    as (_ & Hperm & _).
  apply Hperm. apply Permutation_swap.
Defined.

(** A profile with a negative weight: no playlist is picked. *)
Lemma pickBestPlaylist_null_iff_all_negative_witness :
  pickBestPlaylist ["rock"] [("A", {[ "rock" := (-2)%Z ]})] = None.
Proof.
  apply (pickBestPlaylist_null_iff_all_negative ["rock"]
           [("A", {[ "rock" := (-2)%Z ]})]).
  repeat constructor.
Defined.

Lemma putCachedProfile_then_getCachedProfile_witness :
  res (getCachedProfile "rockpl" "s1"
         (world (putCachedProfile sampleEntry sampleWorld)))
  = Ok (Some sampleEntry)
  ∧ res (getCachedProfile "rockpl" "s0"
           (world (putCachedProfile sampleEntry sampleWorld)))
    = Ok None.
Proof.
  destruct (putCachedProfile_then_getCachedProfile sampleWorld sampleEntry)
    as (_ & Hown & Hother).
  split; [exact Hown|].
  rewrite (Hother "rockpl" "s0") by discriminate. reflexivity.
Defined.

(** The stale profile of the rock playlist is replaced where it was; the
    two jazz profiles stay. *)
Lemma putCachedProfile_keeps_keys_unique_witness :
  NoDup (map cacheKey (cachedProfiles cachedWorld))
  ∧ cachedProfiles (world (putCachedProfile sampleEntry cachedWorld))
    = [jazzEntry "j0"; sampleEntry; jazzEntry "j1"]
  ∧ (∀ c, c ∈ cachedProfiles (world (putCachedProfile sampleEntry cachedWorld))
          ↔ c = sampleEntry
            ∨ (c ∈ cachedProfiles cachedWorld
               ∧ cacheKey c ≠ cacheKey sampleEntry)).
Proof.
  assert (Hnd : NoDup (map cacheKey (cachedProfiles cachedWorld))).
  { apply (bool_decide_unpack _). vm_compute. exact I. }
  split; [exact Hnd|]. split; [reflexivity|].
  apply (putCachedProfile_keeps_keys_unique cachedWorld sampleEntry Hnd).
Defined.

(** The sample world has no cache file. *)
Lemma unreadable_cache_counts_as_empty_witness :
  w_cacheFile sampleWorld = NoFile
  ∧ res (getCachedProfile "rockpl" "s1" sampleWorld) = Ok None.
Proof.
  split; [reflexivity|].
  destruct (unreadable_cache_counts_as_empty sampleWorld) as [Hget _];
    [by left|].
  by rewrite Hget.
Defined.

Lemma iteratePlaylistTracks_reads_every_page_once_witness :
  res (iteratePlaylistTracks "rockpl" sampleWorld)
  = Ok [sampleTrack "t1" ["a1"; "a2"]; sampleTrack "t2" ["a1"]]
  ∧ trace (iteratePlaylistTracks "rockpl" sampleWorld)
    = [EvGetPlaylistTracks "rockpl" 0].
Proof.
  assert (Hres : res (iteratePlaylistTracks "rockpl" sampleWorld)
                 = Ok [sampleTrack "t1" ["a1"; "a2"]; sampleTrack "t2" ["a1"]])
    by (vm_compute; reflexivity).
  split; [exact Hres|].
  destruct (iteratePlaylistTracks_reads_every_page_once sampleWorld "rockpl")
    as [Hpages _].
  destruct (Hpages _ Hres) as (pl & Hpl & _ & Htrace & _).
  rewrite Htrace. vm_compute in Hpl. injection Hpl as <-. reflexivity.
Defined.

Lemma getPlaylistTrackIdsSet_is_the_set_of_track_ids_witness :
  res (getPlaylistTrackIdsSet "rockpl" sampleWorld) = Ok ["t1"; "t2"]
  ∧ NoDup ["t1"; "t2"].
Proof.
  assert (Hres : res (getPlaylistTrackIdsSet "rockpl" sampleWorld)
                 = Ok ["t1"; "t2"]) by (vm_compute; reflexivity).
  split; [exact Hres|].
  apply (getPlaylistTrackIdsSet_is_the_set_of_track_ids sampleWorld "rockpl"
           _ Hres).
Defined.

Lemma addTracksToPlaylistIfMissing_batches_witness :
  res (addTracksToPlaylistIfMissing "rockpl" ["t1"; "n9"] sampleWorld)
  = Ok {| added := 1; skipped := 1 |}
  ∧ length
      (addedUris
         (trace (addTracksToPlaylistIfMissing "rockpl" ["t1"; "n9"]
                   sampleWorld)))
    = 1.
Proof.
  assert (Hres :
    res (addTracksToPlaylistIfMissing "rockpl" ["t1"; "n9"] sampleWorld)
    = Ok {| added := 1; skipped := 1 |}) by (vm_compute; reflexivity).
  split; [exact Hres|].
  destruct (addTracksToPlaylistIfMissing_batches sampleWorld "rockpl"
              ["t1"; "n9"] _ Hres) as (_ & _ & _ & Hcount).
  rewrite Hcount. reflexivity.
Defined.

(** The unconditional insertion adds a track the playlist already has. *)
Lemma addTracksToPlaylist_appends_every_track_witness :
  res (addTracksToPlaylist "rockpl" ["t1"] sampleWorld) = Ok tt
  ∧ playlistTrackIds (world (addTracksToPlaylist "rockpl" ["t1"] sampleWorld))
      "rockpl"
    = ["t1"; "t2"; "t1"].
Proof.
  assert (Hres : res (addTracksToPlaylist "rockpl" ["t1"] sampleWorld) = Ok tt)
    by (vm_compute; reflexivity).
  split; [exact Hres|].
  destruct (addTracksToPlaylist_appends_every_track sampleWorld "rockpl"
              ["t1"]) as [_ Happ].
  destruct (Happ ltac:(discriminate) Hres)
    as (pl & pl' & Hpl & Hpl' & Hitems & _).
  unfold playlistTrackIds. rewrite Hpl', Hitems.
  vm_compute in Hpl. injection Hpl as <-. reflexivity.
Defined.

Lemma trackGenresOf_collects_distinct_tags_witness :
  res (trackGenresOf (sampleTrack "n1" ["a1"; "a2"]) sampleWorld)
  = Ok ["rock"; "pop"]
  ∧ NoDup ["rock"; "pop"].
Proof.
  assert (Hres : res (trackGenresOf (sampleTrack "n1" ["a1"; "a2"])
                        sampleWorld) = Ok ["rock"; "pop"])
    by (vm_compute; reflexivity).
  split; [exact Hres|].
  apply (trackGenresOf_collects_distinct_tags sampleWorld _ _ Hres).
Defined.

(** The newest like of the sample world, by a jazz artist, against a rock
    and a jazz profile. *)
Lemma routeItem_routes_to_first_maximum_witness :
  ∃ item acc',
    w_saved sampleWorld !! 0 = Some item
    ∧ res (routeItem sampleState ["A"; "B"] tiedProfiles item
             ([], lastProcessedAddedAt sampleState) sampleWorld)
      = Ok (Continue acc')
    ∧ acc'.1 = [("B", ["n1"])].
Proof.
  eexists _, _. split; [reflexivity|].
  assert (Hres :
    res (routeItem sampleState ["A"; "B"] tiedProfiles
           {| added_at := "2025-03-01T00:00:00Z";
              saved_track := sampleTrack "n1" ["a3"] |}
           ([], lastProcessedAddedAt sampleState) sampleWorld)
    = Ok (Continue ([("B", ["n1"])], Some "2025-03-01T00:00:00Z")))
    by (vm_compute; reflexivity).
  split; [exact Hres|].
  destruct (routeItem_routes_to_first_maximum sampleState ["A"; "B"]
              tiedProfiles _ _ _ sampleWorld ltac:(discriminate) Hres)
    as (gs & i & pid & prof & _ & _ & _ & _ & _ & Hacc).
  reflexivity.
Defined.

Lemma buildProfiles_covers_the_targets_witness :
  ∃ profiles times,
    res (@buildProfiles sampleRuntime sampleState
           (getTargetPlaylistIds (w_env sampleWorld)) sampleWorld)
    = Ok (profiles, times)
    ∧ map fst (Object_entries profiles) = ["rockpl"; "jazzpl"]
    ∧ is_Some (times !! "jazzpl").
Proof.
  eexists _, _. split; [vm_compute; reflexivity|].
  split; [reflexivity|].
  destruct (@buildProfiles_covers_the_targets sampleRuntime sampleState
              sampleWorld _ _ ltac:(vm_compute; reflexivity))
    as (_ & _ & Htimes & _).
  apply Htimes.
  - apply (bool_decide_unpack _). vm_compute. exact I.
  - apply (bool_decide_unpack _). vm_compute. exact I.
Defined.

Lemma main_touches_target_playlists_only_witness :
  ("otherpl" ∉ getTargetPlaylistIds (w_env sampleWorld))
  ∧ w_playlists (world (@main sampleRuntime sampleWorld)) !! "otherpl"
    = w_playlists sampleWorld !! "otherpl".
Proof.
  assert (Hout : "otherpl" ∉ getTargetPlaylistIds (w_env sampleWorld)).
  { apply (bool_decide_unpack _). vm_compute. exact I. }
  split; [exact Hout|].
  by apply (@main_touches_target_playlists_only sampleRuntime sampleWorld).
Defined.

(** The run on the sample world routes the two new likes; both are in
    their playlists afterwards. *)
Lemma main_delivers_every_routed_track_witness :
  res (@main sampleRuntime sampleWorld) = Ok tt
  ∧ ∃ item pid,
      w_saved sampleWorld !! 0 = Some item
      ∧ EvRoute item pid ∈ trace (@main sampleRuntime sampleWorld)
      ∧ track_id (saved_track item)
        ∈ playlistTrackIds (world (@main sampleRuntime sampleWorld)) pid.
Proof.
  assert (Hres : res (@main sampleRuntime sampleWorld) = Ok tt)
    by (vm_compute; reflexivity).
  split; [exact Hres|].
  eexists _, "jazzpl". split; [reflexivity|].
  assert (Hin :
    EvRoute {| added_at := "2025-03-01T00:00:00Z";
               saved_track := sampleTrack "n1" ["a3"] |} "jazzpl"
    ∈ trace (@main sampleRuntime sampleWorld)).
  { apply list_elem_of_In. vm_compute. tauto. }
  split; [exact Hin|].
  apply (@main_delivers_every_routed_track sampleRuntime sampleWorld Hres _ _
           Hin).
Defined.

Lemma rebuilt_profile_has_positive_weights_witness :
  ∃ counts,
    res (@buildPlaylistGenreProfile sampleRuntime "rockpl" sampleWorld)
    = Ok counts
    ∧ ∀ g v, counts !! g = Some v → (1 ≤ v)%Z.
Proof.
  eexists. split; [vm_compute; reflexivity|].
  apply (@rebuilt_profile_has_positive_weights sampleRuntime sampleWorld
           "rockpl" rockPlaylist _ eq_refl eq_refl).
  vm_compute. reflexivity.
Defined.

Lemma run_without_new_likes_changes_no_playlist_witness :
  res (@main sampleRuntime idleWorld) = Ok tt
  ∧ w_playlists (world (@main sampleRuntime idleWorld))
    = w_playlists idleWorld
  ∧ watermarkOf (w_stateFile (world (@main sampleRuntime idleWorld)))
    = "2025-04-01T00:00:00Z".
Proof.
  assert (Hres : res (@main sampleRuntime idleWorld) = Ok tt)
    by (vm_compute; reflexivity).
  split; [exact Hres|].
  destruct (@run_without_new_likes_changes_no_playlist sampleRuntime
              idleWorld Hres eq_refl eq_refl) as (_ & _ & Hpl & Hwm).
  split; [exact Hpl|]. rewrite Hwm. reflexivity.
Defined.

Lemma new_watermark_covers_routed_likes_witness :
  res (@main sampleRuntime sampleWorld) = Ok tt
  ∧ Forall (λ item,
              (added_at item
               ≤ watermarkOf
                   (w_stateFile (world (@main sampleRuntime sampleWorld))))%string)
      (routedItems (trace (@main sampleRuntime sampleWorld))).
Proof.
  assert (Hres : res (@main sampleRuntime sampleWorld) = Ok tt)
    by (vm_compute; reflexivity).
  split; [exact Hres|].
  exact (@new_watermark_covers_routed_likes sampleRuntime sampleWorld Hres).
Defined.

Lemma buildProfiles_asks_the_version_of_every_target_witness :
  ∃ acc,
    res (@buildProfiles sampleRuntime sampleState ["rockpl"; "jazzpl"]
           sampleWorld) = Ok acc
    ∧ versionRequests
        (trace (@buildProfiles sampleRuntime sampleState ["rockpl"; "jazzpl"]
                  sampleWorld))
      = ["rockpl"; "jazzpl"].
Proof.
  eexists. split; [vm_compute; reflexivity|].
  eapply (@buildProfiles_asks_the_version_of_every_target sampleRuntime
            sampleState ["rockpl"; "jazzpl"] sampleWorld).
  vm_compute. reflexivity.
Defined.

(** Rejected twice, answered at the third attempt. *)
Lemma callWithRetry_returns_the_first_answer_witness :
  ∃ c',
    Retry.callWithRetry sampleRefresh flakyRequest 5 sampleClient
    = Some (Retry.Returned "answer", c')
    ∧ Retry.called c' = 3.
Proof.
  destruct (callWithRetry_returns_the_first_answer sampleRefresh flakyRequest
              ltac:(intros n; by exists "token")
              5 2 sampleClient "answer") as (c' & Hrun & Hcalled).
  - simpl. lia.
  - intros [|[|j]] Hj; [by eexists | by eexists | lia].
  - reflexivity.
  - exists c'. split; [exact Hrun|]. exact Hcalled.
Defined.

(** Five server errors in a row: five calls, and waits of 0.5, 1, 1.5 and
    2 seconds between them. *)
Lemma callWithRetry_gives_up_with_the_last_error_witness :
  ∃ c',
    Retry.callWithRetry sampleRefresh failingRequest 5 sampleClient
    = Some (Retry.Rejected serverError, c')
    ∧ Retry.called c' = 5
    ∧ Retry.sleeps (Retry.steps c')
      = [Some 500%Z; Some 1000%Z; Some 1500%Z; Some 2000%Z].
Proof.
  destruct (callWithRetry_gives_up_with_the_last_error sampleRefresh
              failingRequest ltac:(intros n; by exists "token")
              5 sampleClient (λ _, serverError))
    as (c' & Hrun & Hcalled & _ & Hwaits).
  - intros j Hj. reflexivity.
  - exists c'. split; [exact Hrun|]. split; [exact Hcalled|].
    rewrite Hwaits; [reflexivity|]. intros j Hj. split; discriminate.
Defined.
